(** * Codriver project generator: the Redis-backed job queue

    A shallow embedding of [QueueManager]
    (src/pkg/project-generator/scalable-queue-arcitecture.py) together with
    the parts of Python and Redis it relies on, and the properties of the
    queue discipline established over it.

    Conventions of the embedding.
    - A Python [str] is a [string] whose characters are code points below 256.
    - A Python [float] holding a clock reading or a sorted-set score is an
      exact rational ([Q]); rounding is not part of the embedding.
    - A Python exception is a value of [exn]; the store keeps every write made
      before the exception was raised.
    - A Redis key expiry is recorded with the key; the passage of time that
      would make a key lapse is not part of the embedding. *)

From Stdlib Require Import ZArith NArith QArith Lqa Lia Ascii String List.
From Stdlib Require Import DecimalString DecimalN DecimalFacts.
From Stdlib Require OrderedTypeEx.
From stdpp Require Import gmap strings list fin_maps.

Local Open Scope Z_scope.

(* ===================================================================== *)
(** * Python text primitives *)
(* ===================================================================== *)

Module PyText.

(** Decimal digits of a natural number, as [str(n)] prints them. *)
Definition digits_of_N (n : N) : string :=
  NilZero.string_of_uint (N.to_uint n).

(** [str(z)] for an [int]. *)
Definition str_int (z : Z) : string :=
  if z <? 0 then String "-"%char (digits_of_N (Z.to_N (- z)))
  else digits_of_N (Z.to_N z).

Definition N_of_digits (s : string) : option N :=
  N.of_uint <$> NilZero.uint_of_string s.

(** [int(s)] on an optional sign followed by decimal digits (leading zeros
    allowed, as in Python). Surrounding white space and digit-group
    underscores, which Python also accepts, are answered with [None]. *)
Definition int_of_str (s : string) : option Z :=
  match s with
  | String "-"%char r => (λ n, - Z.of_N n) <$> N_of_digits r
  | String "+"%char r => Z.of_N <$> N_of_digits r
  | _ => Z.of_N <$> N_of_digits s
  end.

Definition is_digit (c : ascii) : bool :=
  let n := N_of_ascii c in ((48 <=? n) && (n <=? 57))%N.

Definition digit_val (c : ascii) : option N :=
  if is_digit c then Some (N_of_ascii c - 48)%N else None.

Definition digit_char (n : N) : ascii := ascii_of_N (48 + n).

(** [%0wd]: the last [w] decimal digits of [n], zero padded. *)
Fixpoint zero_pad (w : nat) (n : N) : string :=
  match w with
  | O => ""
  | S w' => zero_pad w' (n / 10)%N +:+ String (digit_char (n mod 10)%N) ""
  end.

(** Reads exactly [w] decimal digits from the front of [s]. *)
Fixpoint read_digits (w : nat) (s : string) : option (N * string) :=
  match w with
  | O => Some (0%N, s)
  | S w' =>
      match read_digits w' s with
      | Some (x, String c s') =>
          match digit_val c with
          | Some d => Some (x * 10 + d, s')%N
          | None => None
          end
      | _ => None
      end
  end.

Definition expect (c : ascii) (s : string) : option string :=
  match s with
  | String c' s' => if Ascii.eqb c c' then Some s' else None
  | EmptyString => None
  end.

(** [str.upper()] on the ASCII letters. *)
Definition upper_char (c : ascii) : ascii :=
  let n := N_of_ascii c in
  if ((97 <=? n) && (n <=? 122))%N then ascii_of_N (n - 32) else c.

Fixpoint upper (s : string) : string :=
  match s with
  | EmptyString => EmptyString
  | String c s' => String (upper_char c) (upper s')
  end.

(** Truth value of a [str]: only the empty string is false. *)
Definition truthy (s : string) : bool :=
  match s with EmptyString => false | _ => true end.

End PyText.

(* ===================================================================== *)
(** * [datetime] *)
(* ===================================================================== *)

Module Datetime.
Import PyText.

(** A naive [datetime.datetime], as [datetime.now()] returns it. *)
Record datetime := mkDatetime {
  year : N; month : N; day : N;
  hour : N; minute : N; second : N; microsecond : N
}.

Definition is_leap (y : N) : bool :=
  (((y mod 4 =? 0) && negb (y mod 100 =? 0)) || (y mod 400 =? 0))%N.

Definition days_in_month (y m : N) : N :=
  match m with
  | 1 | 3 | 5 | 7 | 8 | 10 | 12 => 31
  | 4 | 6 | 9 | 11 => 30
  | 2 => if is_leap y then 29 else 28
  | _ => 0
  end%N.

(** The range checks of the [datetime] constructor. *)
Definition valid (d : datetime) : bool :=
  ((1 <=? year d) && (year d <=? 9999) &&
   (1 <=? month d) && (month d <=? 12) &&
   (1 <=? day d) && (day d <=? days_in_month (year d) (month d)) &&
   (hour d <? 24) && (minute d <? 60) && (second d <? 60) &&
   (microsecond d <? 1000000))%N.

(** [d.isoformat(sep)]: [YYYY-MM-DDTHH:MM:SS], followed by [.ffffff] when the
    microsecond field is not zero. *)
Definition isoformat_sep (sep : ascii) (d : datetime) : string :=
  zero_pad 4 (year d) +:+ "-" +:+ zero_pad 2 (month d) +:+ "-" +:+
  zero_pad 2 (day d) +:+ String sep
  (zero_pad 2 (hour d) +:+ ":" +:+ zero_pad 2 (minute d) +:+ ":" +:+
   zero_pad 2 (second d) +:+
   (if (microsecond d =? 0)%N then "" else "." +:+ zero_pad 6 (microsecond d))).

Definition isoformat : datetime → string := isoformat_sep "T"%char.

(** [str(d)] is [d.isoformat(sep=' ')]. *)
Definition str_datetime : datetime → string := isoformat_sep " "%char.

(** [d.strftime('%Y-%m')]. *)
Definition strftime_Ym (d : datetime) : string :=
  zero_pad 4 (year d) +:+ "-" +:+ zero_pad 2 (month d).

(** [datetime.fromisoformat(s)] on the strings [isoformat] produces (any
    single character is accepted as separator); [None] stands for the
    [ValueError] raised on a malformed string or an out-of-range field. *)
Definition fromisoformat (s : string) : option datetime :=
  '(y, s) ← read_digits 4 s;
  s ← expect "-"%char s;
  '(mo, s) ← read_digits 2 s;
  s ← expect "-"%char s;
  '(dd, s) ← read_digits 2 s;
  s ← (match s with String _ s' => Some s' | EmptyString => None end);
  '(hh, s) ← read_digits 2 s;
  s ← expect ":"%char s;
  '(mi, s) ← read_digits 2 s;
  s ← expect ":"%char s;
  '(ss, s) ← read_digits 2 s;
  '(us, s) ← (match s with
              | EmptyString => Some (0%N, EmptyString)
              | String c s' =>
                  if Ascii.eqb c "."%char then read_digits 6 s' else None
              end);
  match s with
  | EmptyString =>
      let d := mkDatetime y mo dd hh mi ss us in
      if valid d then Some d else None
  | _ => None
  end.

End Datetime.

Import PyText Datetime.




(* ===================================================================== *)
(** * Python values and the [json] module *)
(* ===================================================================== *)

Module Json.
Import PyText.

(** The objects a [Dict[str, Any]] request document is built from: the
    Python values [json.dumps] accepts, floats left out. A [dict] is kept as
    the list of its items in insertion order. *)
#[warnings="-register-all"] Inductive pyval :=
| PNone
| PBool (b : bool)
| PInt (z : Z)
| PStr (s : string)
| PList (l : list pyval)
| PTuple (l : list pyval)
| PDict (items : list (string * pyval)).

Definition dict_get (k : string) (d : list (string * pyval)) : option pyval :=
  snd <$> find (λ kv, String.eqb k (fst kv)) d.

(** [d[k] = v]: an existing key keeps its position. *)
Fixpoint dict_set (k : string) (v : pyval) (d : list (string * pyval))
  : list (string * pyval) :=
  match d with
  | [] => [(k, v)]
  | (k', v') :: d' =>
      if String.eqb k k' then (k', v) :: d' else (k', v') :: dict_set k v d'
  end.

(** [dict(pairs)]. *)
Definition dict_of_pairs (ps : list (string * pyval)) : list (string * pyval) :=
  fold_left (λ d kv, dict_set (fst kv) (snd kv) d) ps [].


(** ** Encoding *)

Definition dquote : ascii := ascii_of_N 34.
Definition backslash : ascii := ascii_of_N 92.

Definition hex_char (n : N) : ascii :=
  if (n <? 10)%N then ascii_of_N (48 + n) else ascii_of_N (87 + n).

(** One character of [py_encode_basestring_ascii] (the default
    [ensure_ascii=True]). *)
Definition escape_char (c : ascii) : string :=
  let n := N_of_ascii c in
  match n with
  | 34 => String backslash (String dquote "")
  | 92 => String backslash (String backslash "")
  | 10 => String backslash "n"
  | 13 => String backslash "r"
  | 9 => String backslash "t"
  | 12 => String backslash "f"
  | 8 => String backslash "b"
  | _ =>
      if ((32 <=? n) && (n <=? 126))%N then String c ""
      else String backslash
             (String "u" (String "0" (String "0"
               (String (hex_char (n / 16)) (String (hex_char (n mod 16)) "")))))
  end%N.

Fixpoint escape (s : string) : string :=
  match s with
  | EmptyString => EmptyString
  | String c s' => escape_char c +:+ escape s'
  end.

Definition quote (s : string) : string :=
  String dquote (escape s +:+ String dquote "").

(** [sep.join(parts)]. *)
Fixpoint join (sep : string) (parts : list string) : string :=
  match parts with
  | [] => ""
  | [p] => p
  | p :: ps => p +:+ sep +:+ join sep ps
  end.

(** [json.dumps(v)] with the default separators. *)
Fixpoint dumps (v : pyval) : string :=
  match v with
  | PNone => "null"
  | PBool true => "true"
  | PBool false => "false"
  | PInt z => str_int z
  | PStr s => quote s
  | PList l | PTuple l => "[" +:+ join ", " (map dumps l) +:+ "]"
  | PDict items =>
      "{" +:+ join ", " (map (λ kv, quote (fst kv) +:+ ": " +:+ dumps (snd kv)) items)
          +:+ "}"
  end.

(** ** Decoding *)

Definition is_ws (c : ascii) : bool :=
  match N_of_ascii c with 32 | 9 | 10 | 13 => true | _ => false end%N.

Fixpoint skip_ws (s : string) : string :=
  match s with
  | String c s' => if is_ws c then skip_ws s' else s
  | EmptyString => EmptyString
  end.

Definition hex_val (c : ascii) : option N :=
  let n := N_of_ascii c in
  if ((48 <=? n) && (n <=? 57))%N then Some (n - 48)%N
  else if ((97 <=? n) && (n <=? 102))%N then Some (n - 87)%N
  else if ((65 <=? n) && (n <=? 70))%N then Some (n - 55)%N
  else None.

Definition hex4 (a b c d : ascii) : option N :=
  x3 ← hex_val a; x2 ← hex_val b; x1 ← hex_val c; x0 ← hex_val d;
  Some (((x3 * 16 + x2) * 16 + x1) * 16 + x0)%N.

(** The character a one-letter escape stands for. *)
Definition unescape (e : ascii) : option ascii :=
  match N_of_ascii e with
  | 34 => Some dquote
  | 92 => Some backslash
  | 47 => Some "/"%char
  | 98 => Some (ascii_of_N 8)
  | 102 => Some (ascii_of_N 12)
  | 110 => Some (ascii_of_N 10)
  | 114 => Some (ascii_of_N 13)
  | 116 => Some (ascii_of_N 9)
  | _ => None
  end%N.

(** [scanstring] in strict mode, entered after the opening quote: the
    decoded string and the text after the closing quote. A [\uXXXX] escape
    for a code point of 256 or more is answered with [None]. *)
Fixpoint scan_string (s : string) : option (string * string) :=
  match s with
  | EmptyString => None
  | String c s' =>
      let n := N_of_ascii c in
      if (n =? 34)%N then Some (EmptyString, s')
      else if (n =? 92)%N then
        match s' with
        | EmptyString => None
        | String e s'' =>
            if (N_of_ascii e =? 117)%N then
              match s'' with
              | String h1 (String h2 (String h3 (String h4 s3))) =>
                  match hex4 h1 h2 h3 h4 with
                  | Some u =>
                      if (u <? 256)%N then
                        match scan_string s3 with
                        | Some (str, r) => Some (String (ascii_of_N u) str, r)
                        | None => None
                        end
                      else None
                  | None => None
                  end
              | _ => None
              end
            else
              match unescape e with
              | Some ch =>
                  match scan_string s'' with
                  | Some (str, r) => Some (String ch str, r)
                  | None => None
                  end
              | None => None
              end
        end
      else if (n <? 32)%N then None
      else
        match scan_string s' with
        | Some (str, r) => Some (String c str, r)
        | None => None
        end
  end.

(** The longest prefix of decimal digits, and the rest. *)
Fixpoint span_digits (s : string) : string * string :=
  match s with
  | String c s' =>
      if is_digit c then let '(ds, r) := span_digits s' in (String c ds, r)
      else (EmptyString, s)
  | EmptyString => (EmptyString, EmptyString)
  end.

(** The text after a number continues it into a float. *)
Definition float_tail (s : string) : bool :=
  match s with
  | String c _ =>
      match N_of_ascii c with 46 | 101 | 69 => true | _ => false end%N
  | EmptyString => false
  end.

(** A JSON integer without its sign: a single 0, or a nonzero digit followed
    by digits. A number with a fraction or an exponent (a float) is answered
    with [None]. *)
Definition scan_nat (s : string) : option (N * string) :=
  match s with
  | String c s' =>
      if (N_of_ascii c =? 48)%N then
        if float_tail s' then None else Some (0%N, s')
      else if is_digit c then
        let '(ds, r) := span_digits s in
        if float_tail r then None
        else match N_of_digits ds with Some n => Some (n, r) | None => None end
      else None
  | EmptyString => None
  end.

(** The text after the literal [lit] at the front of [s]. *)
Fixpoint strip_prefix (lit s : string) : option string :=
  match lit with
  | EmptyString => Some s
  | String c lit' =>
      match s with
      | String c' s' => if Ascii.eqb c c' then strip_prefix lit' s' else None
      | EmptyString => None
      end
  end.

Definition scan_literal (lit : string) (v : pyval) (s : string)
  : option (pyval * string) :=
  match strip_prefix lit s with
  | Some r => Some (v, r)
  | None => None
  end.

(** [scan_once], [JSONArray] and [JSONObject] of the decoder; [fuel] bounds
    the nesting of calls. [parse_elems] is entered at the first character of
    an element and [parse_members] at the opening quote of a key. *)
Fixpoint parse_value (fuel : nat) (s : string) : option (pyval * string) :=
  match fuel with
  | O => None
  | S fuel' =>
      match s with
      | EmptyString => None
      | String c s' =>
          match N_of_ascii c with
          | 34 =>
              match scan_string s' with
              | Some (str, r) => Some (PStr str, r)
              | None => None
              end
          | 91 =>
              match skip_ws s' with
              | String c2 r =>
                  if (N_of_ascii c2 =? 93)%N then Some (PList [], r)
                  else
                    match parse_elems fuel' (String c2 r) with
                    | Some (vs, r') => Some (PList vs, r')
                    | None => None
                    end
              | EmptyString => None
              end
          | 123 =>
              match skip_ws s' with
              | String c2 r =>
                  if (N_of_ascii c2 =? 125)%N then Some (PDict [], r)
                  else
                    match parse_members fuel' (String c2 r) with
                    | Some (ps, r') => Some (PDict (dict_of_pairs ps), r')
                    | None => None
                    end
              | EmptyString => None
              end
          | 110 => scan_literal "null" PNone s
          | 116 => scan_literal "true" (PBool true) s
          | 102 => scan_literal "false" (PBool false) s
          | 45 =>
              match scan_nat s' with
              | Some (n, r) => Some (PInt (- Z.of_N n), r)
              | None => None
              end
          | _ =>
              match scan_nat s with
              | Some (n, r) => Some (PInt (Z.of_N n), r)
              | None => None
              end
          end%N
      end
  end
with parse_elems (fuel : nat) (s : string) : option (list pyval * string) :=
  match fuel with
  | O => None
  | S fuel' =>
      match parse_value fuel' s with
      | Some (v, r) =>
          match skip_ws r with
          | String c r' =>
              if (N_of_ascii c =? 93)%N then Some ([v], r')
              else if (N_of_ascii c =? 44)%N then
                match parse_elems fuel' (skip_ws r') with
                | Some (vs, r'') => Some (v :: vs, r'')
                | None => None
                end
              else None
          | EmptyString => None
          end
      | None => None
      end
  end
with parse_members (fuel : nat) (s : string)
  : option (list (string * pyval) * string) :=
  match fuel with
  | O => None
  | S fuel' =>
      match s with
      | String q s1 =>
          if (N_of_ascii q =? 34)%N then
            match scan_string s1 with
            | Some (k, r) =>
                match skip_ws r with
                | String c r1 =>
                    if (N_of_ascii c =? 58)%N then
                      match parse_value fuel' (skip_ws r1) with
                      | Some (v, r2) =>
                          match skip_ws r2 with
                          | String c2 r3 =>
                              if (N_of_ascii c2 =? 125)%N then Some ([(k, v)], r3)
                              else if (N_of_ascii c2 =? 44)%N then
                                match parse_members fuel' (skip_ws r3) with
                                | Some (ps, r4) => Some ((k, v) :: ps, r4)
                                | None => None
                                end
                              else None
                          | EmptyString => None
                          end
                      | None => None
                      end
                    else None
                | EmptyString => None
                end
            | None => None
            end
          else None
      | EmptyString => None
      end
  end.

(** [json.loads(s)]; [None] stands for [JSONDecodeError]. Every call of the
    decoder consumes a character, so the length of the text bounds their
    nesting. *)
Definition loads (s : string) : option pyval :=
  match parse_value (S (String.length s)) (skip_ws s) with
  | Some (v, r) =>
      match skip_ws r with
      | EmptyString => Some v
      | _ => None
      end
  | None => None
  end.

(** ** What a round trip through the text does *)

(** The values [json.loads] can return: no tuple, and distinct keys in every
    dict. *)
Fixpoint json_native (v : pyval) : bool :=
  match v with
  | PNone | PBool _ | PInt _ | PStr _ => true
  | PList l => forallb json_native l
  | PTuple _ => false
  | PDict items =>
      bool_decide (NoDup (map fst items))
      && forallb (λ kv, json_native (snd kv)) items
  end.

(** The value [json.loads(json.dumps(v))] returns: tuples come back as lists,
    and of the items of a dict that share a key the last one wins. *)
Fixpoint json_image (v : pyval) : pyval :=
  match v with
  | PList l | PTuple l => PList (map json_image l)
  | PDict items =>
      PDict (dict_of_pairs (map (λ kv, (fst kv, json_image (snd kv))) items))
  | _ => v
  end.

(** A text that cannot continue a number. *)
Definition delimited (s : string) : bool :=
  match s with
  | String c _ => negb (is_digit c) && negb (float_tail s)
  | EmptyString => true
  end.

(** How a value written by [dumps] opens: never with white space nor with a
    closing bracket. *)
Definition opens_value (c : ascii) : bool :=
  negb (is_ws c) && negb (N_of_ascii c =? 93)%N.

(** One item of a dict, as [dumps] writes it. *)
Definition dumps_item (kv : string * pyval) : string :=
  quote kv.1 +:+ ": " +:+ dumps kv.2.

(** The decoder reads the text of [v] back, whatever delimited text follows
    it, given fuel for the length of the text. *)
Definition reads_back (v : pyval) : Prop :=
  ∀ (fuel : nat) (rest : string),
    (String.length (dumps v) ≤ fuel)%nat → delimited rest = true →
    parse_value fuel (dumps v +:+ rest) = Some (json_image v, rest).

End Json.

Import Json.

Definition sample_schema : pyval :=
  PDict [("name", PStr "demo"); ("n", PInt 3);
         ("tags", PList [PStr "a"; PBool true; PNone]); ("sub", PDict [])].




(* ===================================================================== *)
(** * Exceptions *)
(* ===================================================================== *)

(** The exceptions the queue manager meets. [WrongType] and [NotAnInteger]
    are the [redis.exceptions.ResponseError]s of a command applied to a key
    that holds a value of another type, and of [INCR] on a string that is not
    a 64-bit integer. *)
Inductive exn :=
| KeyError (k : string)
| ValueError
| JSONDecodeError
| WrongType
| NotAnInteger
| Exception (msg : string).


Inductive result (A : Type) :=
| Ok (a : A)
| Raise (e : exn).
Arguments Ok {A} a.
Arguments Raise {A} e.

#[global] Instance result_ret : MRet result := λ A a, Ok a.
#[global] Instance result_bind : MBind result := λ A B f m,
  match m with Ok a => f a | Raise e => Raise e end.
#[global] Instance result_fmap : FMap result := λ A B f m,
  match m with Ok a => Ok (f a) | Raise e => Raise e end.

Definition or_raise {A} (e : exn) (o : option A) : result A :=
  match o with Some a => Ok a | None => Raise e end.

(* ===================================================================== *)
(** * Configuration and data model *)
(* ===================================================================== *)

Module QueueConfig.
Definition QUEUE_PENDING : string := "projects:pending".
Definition QUEUE_PROCESSING : string := "projects:processing".
Definition QUEUE_COMPLETED : string := "projects:completed".
Definition QUEUE_FAILED : string := "projects:failed".
Definition MAX_CONCURRENT_JOBS : Z := 3.
Definition MAX_QUEUE_SIZE : Z := 1000.
Definition PRIORITY_ENTERPRISE : Z := 0.
Definition PRIORITY_PRO : Z := 1.
Definition PRIORITY_INDIE : Z := 2.
Definition PRIORITY_FREE : Z := 3.
Definition JOB_TIMEOUT_SECONDS : Z := 3600.
Definition POSITION_ESTIMATE_SECONDS : Z := 600.
End QueueConfig.

Inductive JobStatus := QUEUED | PROCESSING | COMPLETED | FAILED | CANCELLED.

(** [status.value] *)
Definition status_value (s : JobStatus) : string :=
  match s with
  | QUEUED => "queued"
  | PROCESSING => "processing"
  | COMPLETED => "completed"
  | FAILED => "failed"
  | CANCELLED => "cancelled"
  end.

(** [JobStatus(value)] *)
Definition status_of_value (v : string) : option JobStatus :=
  if String.eqb v "queued" then Some QUEUED
  else if String.eqb v "processing" then Some PROCESSING
  else if String.eqb v "completed" then Some COMPLETED
  else if String.eqb v "failed" then Some FAILED
  else if String.eqb v "cancelled" then Some CANCELLED
  else None.

Record limits := mkLimits {
  concurrent : Z; queue_priority : Z; monthly_limit : Z
}.

Module TierLimits.
Definition FREE := mkLimits 1 3 1.
Definition INDIE := mkLimits 2 2 10.
Definition PRO := mkLimits 3 1 (-1).
Definition ENTERPRISE := mkLimits 5 0 (-1).

(** [TierLimits[name].value] *)
Definition getitem (name : string) : result limits :=
  if String.eqb name "FREE" then Ok FREE
  else if String.eqb name "INDIE" then Ok INDIE
  else if String.eqb name "PRO" then Ok PRO
  else if String.eqb name "ENTERPRISE" then Ok ENTERPRISE
  else Raise (KeyError name).
End TierLimits.

Record ProjectJob := mkJob {
  job_id : string;
  user_id : string;
  tier : string;
  project_schema : pyval;
  status : JobStatus;
  priority : Z;
  created_at : datetime;
  started_at : option datetime;
  completed_at : option datetime;
  error_message : option string;
  result_url : option string;
  queue_position : option Z;
  estimated_start : option datetime;
  worker_id : option string
}.

(** ** The job codec *)

(** [str(v)] of an optional field: [str(None)] is the text [None]. *)
Definition str_optional {A} (str : A → string) (o : option A) : string :=
  match o with Some a => str a | None => "None" end.

(** [d.isoformat() if d else ""] *)
Definition iso_or_empty (o : option datetime) : string :=
  match o with Some d => isoformat d | None => "" end.

Definition _serialize_job (job : ProjectJob) : gmap string string :=
  list_to_map
    [ ("job_id", job_id job);
      ("user_id", user_id job);
      ("tier", tier job);
      ("project_schema", dumps (project_schema job));
      ("status", status_value (status job));
      ("priority", str_int (priority job));
      ("created_at", isoformat (created_at job));
      ("started_at", iso_or_empty (started_at job));
      ("completed_at", iso_or_empty (completed_at job));
      ("error_message", str_optional id (error_message job));
      ("result_url", str_optional id (result_url job));
      ("queue_position", str_optional str_int (queue_position job));
      ("estimated_start", str_optional str_datetime (estimated_start job));
      ("worker_id", str_optional id (worker_id job)) ].

(** [data[k]] *)
Definition getitem (data : gmap string string) (k : string) : result string :=
  or_raise (KeyError k) (data !! k).

(** [datetime.fromisoformat(data[k]) if data.get(k) else None] *)
Definition optional_datetime (data : gmap string string) (k : string)
  : result (option datetime) :=
  match data !! k with
  | Some s =>
      if truthy s then Some <$> or_raise ValueError (fromisoformat s)
      else Ok None
  | None => Ok None
  end.

Definition _deserialize_job (data : gmap string string) : result ProjectJob :=
  jid ← getitem data "job_id";
  uid ← getitem data "user_id";
  tr ← getitem data "tier";
  schema_text ← getitem data "project_schema";
  schema ← or_raise JSONDecodeError (loads schema_text);
  status_text ← getitem data "status";
  st ← or_raise ValueError (status_of_value status_text);
  priority_text ← getitem data "priority";
  pr ← or_raise ValueError (int_of_str priority_text);
  created_text ← getitem data "created_at";
  created ← or_raise ValueError (fromisoformat created_text);
  started ← optional_datetime data "started_at";
  completed ← optional_datetime data "completed_at";
  Ok {| job_id := jid; user_id := uid; tier := tr;
        project_schema := schema; status := st; priority := pr;
        created_at := created; started_at := started;
        completed_at := completed;
        error_message := data !! "error_message";
        result_url := data !! "result_url";
        queue_position := None; estimated_start := None;
        worker_id := data !! "worker_id" |}.

(** The fields [_deserialize_job] reads. *)
Definition job_fields : list string :=
  [ "job_id"; "user_id"; "tier"; "project_schema"; "status"; "priority";
    "created_at"; "started_at"; "completed_at"; "error_message";
    "result_url"; "worker_id" ].

(** An optional [datetime] that is in range when it is set. *)
Definition valid_optional (o : option datetime) : bool :=
  match o with Some d => valid d | None => true end.

(** The job [_deserialize_job] makes of the serialization of [job]: an unset
    string field comes back as the text [None], the two fields the codec
    does not read come back unset, and the request document has gone through
    [json]. *)
Definition job_image (job : ProjectJob) : ProjectJob :=
  {| job_id := job_id job; user_id := user_id job; tier := tier job;
     project_schema := json_image (project_schema job);
     status := status job; priority := priority job;
     created_at := created_at job; started_at := started_at job;
     completed_at := completed_at job;
     error_message := Some (str_optional id (error_message job));
     result_url := Some (str_optional id (result_url job));
     queue_position := None; estimated_start := None;
     worker_id := Some (str_optional id (worker_id job)) |}.

(** A job as [_deserialize_job] returns them. *)
Definition decoded_job (job : ProjectJob) : Prop :=
  json_native (project_schema job) = true
  ∧ valid (created_at job) = true
  ∧ valid_optional (started_at job) = true
  ∧ valid_optional (completed_at job) = true
  ∧ queue_position job = None
  ∧ estimated_start job = None.

Definition sample_job : ProjectJob :=
  {| job_id := "j1"; user_id := "u1"; tier := "free";
     project_schema := sample_schema; status := QUEUED; priority := 3;
     created_at := mkDatetime 2026 11 4 9 41 0 0;
     started_at := None; completed_at := None;
     error_message := None; result_url := None;
     queue_position := None; estimated_start := None; worker_id := None |}.



(* ===================================================================== *)
(** * The Redis store *)
(* ===================================================================== *)

#[global] Instance Q_eq_dec : EqDecision Q.
Proof. solve_decision. Defined.

(** What a key holds. A sorted set maps each member to its score, a hash
    each field to its value. *)
Inductive rval :=
| RString (s : string)
| RList (l : list string)
| RZSet (z : gmap string Q)
| RHash (h : gmap string string).

(** The commands that write, as they reach the server. *)
Inductive command :=
| ZADD (key member : string) (score : Q)
| ZREM (key member : string)
| LPUSH (key value : string)
| LREM (key value : string)
| HSET (key : string) (mapping : gmap string string)
| INCR (key : string)
| EXPIRE (key : string) (seconds : Z)
| SETEX (key : string) (seconds : Z) (value : string).

(** The key space [db], the time to live last set on each key, and the write
    commands served so far, oldest first. *)
Record redis := mkRedis {
  db : gmap string rval;
  ttl : gmap string Z;
  writes : list command
}.

Definition empty_redis : redis := mkRedis ∅ ∅ [].

(** A computation against the store: the store it leaves and what it
    returns or raises. *)
Definition Redis (A : Type) : Type := redis → redis * result A.

#[global] Instance Redis_ret : MRet Redis := λ A a r, (r, Ok a).
#[global] Instance Redis_bind : MBind Redis := λ A B f m r,
  match m r with
  | (r', Ok a) => f a r'
  | (r', Raise e) => (r', Raise e)
  end.

Definition raise {A} (e : exn) : Redis A := λ r, (r, Raise e).

Definition lift {A} (x : result A) : Redis A := λ r, (r, x).

Module RedisCmd.

(** [key] now holds [v]. *)
Definition store_key (c : command) (key : string) (v : rval) (r : redis) : redis :=
  mkRedis (<[key := v]> (db r)) (ttl r) (writes r ++ [c]).

(** [key] is gone, with its time to live: the server drops a list, set or
    hash when its last element is removed. *)
Definition drop_key (c : command) (key : string) (r : redis) : redis :=
  mkRedis (delete key (db r)) (delete key (ttl r)) (writes r ++ [c]).

Definition served (c : command) (r : redis) : redis :=
  mkRedis (db r) (ttl r) (writes r ++ [c]).

(** Order of a sorted set: by score, members of equal score by their bytes. *)
Definition zlt (a b : string * Q) : bool :=
  match (a.2 ?= b.2)%Q with
  | Lt => true
  | Eq => String.ltb a.1 b.1
  | Gt => false
  end.

Definition zfirst (z : gmap string Q) : option (string * Q) :=
  foldr (λ x acc, match acc with
                  | None => Some x
                  | Some y => if zlt x y then Some x else Some y
                  end) None (map_to_list z).

Definition llen (key : string) : Redis Z := λ r,
  match db r !! key with
  | None => (r, Ok 0)
  | Some (RList l) => (r, Ok (Z.of_nat (length l)))
  | Some _ => (r, Raise WrongType)
  end.

Definition lpush (key value : string) : Redis Z := λ r,
  match db r !! key with
  | None => (store_key (LPUSH key value) key (RList [value]) r, Ok 1)
  | Some (RList l) =>
      (store_key (LPUSH key value) key (RList (value :: l)) r,
       Ok (Z.of_nat (S (length l))))
  | Some _ => (r, Raise WrongType)
  end.

(** [lrem(key, 0, value)]: every occurrence is removed. *)
Definition lrem_all (key value : string) : Redis Z := λ r,
  match db r !! key with
  | None => (served (LREM key value) r, Ok 0)
  | Some (RList l) =>
      let l' := filter (λ x, x ≠ value) l in
      let n := Z.of_nat (length l - length l') in
      match l' with
      | [] => (drop_key (LREM key value) key r, Ok n)
      | _ => (store_key (LREM key value) key (RList l') r, Ok n)
      end
  | Some _ => (r, Raise WrongType)
  end.

(** [zadd(key, {member: score})] *)
Definition zadd (key member : string) (score : Q) : Redis Z := λ r,
  match db r !! key with
  | None =>
      (store_key (ZADD key member score) key (RZSet {[member := score]}) r, Ok 1)
  | Some (RZSet z) =>
      (store_key (ZADD key member score) key (RZSet (<[member := score]> z)) r,
       Ok (match z !! member with Some _ => 0 | None => 1 end))
  | Some _ => (r, Raise WrongType)
  end.

(** [zrange(key, 0, 0, withscores=True)] *)
Definition zrange_first (key : string) : Redis (list (string * Q)) := λ r,
  match db r !! key with
  | None => (r, Ok [])
  | Some (RZSet z) =>
      (r, Ok (match zfirst z with Some x => [x] | None => [] end))
  | Some _ => (r, Raise WrongType)
  end.

Definition zrem (key member : string) : Redis Z := λ r,
  match db r !! key with
  | None => (served (ZREM key member) r, Ok 0)
  | Some (RZSet z) =>
      let n := match z !! member with Some _ => 1 | None => 0 end in
      let z' := delete member z in
      if decide (z' = ∅) then (drop_key (ZREM key member) key r, Ok n)
      else (store_key (ZREM key member) key (RZSet z') r, Ok n)
  | Some _ => (r, Raise WrongType)
  end.

Definition zcard (key : string) : Redis Z := λ r,
  match db r !! key with
  | None => (r, Ok 0)
  | Some (RZSet z) => (r, Ok (Z.of_nat (size z)))
  | Some _ => (r, Raise WrongType)
  end.

(** [zrank(key, member)]: how many members come before it. *)
Definition zrank (key member : string) : Redis (option Z) := λ r,
  match db r !! key with
  | None => (r, Ok None)
  | Some (RZSet z) =>
      (r, Ok (match z !! member with
              | Some sc =>
                  Some (Z.of_nat (length
                          (filter (λ x, zlt x (member, sc) = true) (map_to_list z))))
              | None => None
              end))
  | Some _ => (r, Raise WrongType)
  end.

(** [hset(key, mapping=m)] *)
Definition hset (key : string) (m : gmap string string) : Redis Z := λ r,
  match db r !! key with
  | None => (store_key (HSET key m) key (RHash m) r, Ok (Z.of_nat (size m)))
  | Some (RHash h) =>
      (store_key (HSET key m) key (RHash (m ∪ h)) r,
       Ok (Z.of_nat (size (m ∖ h))))
  | Some _ => (r, Raise WrongType)
  end.

Definition hgetall (key : string) : Redis (gmap string string) := λ r,
  match db r !! key with
  | None => (r, Ok ∅)
  | Some (RHash h) => (r, Ok h)
  | Some _ => (r, Raise WrongType)
  end.

Definition get (key : string) : Redis (option string) := λ r,
  match db r !! key with
  | None => (r, Ok None)
  | Some (RString s) => (r, Ok (Some s))
  | Some _ => (r, Raise WrongType)
  end.

(** The integer a string value stands for, in the server's eyes: the
    canonical decimal text of a signed 64-bit integer. *)
Definition int64_of_str (s : string) : option Z :=
  match int_of_str s with
  | Some n =>
      if String.eqb (str_int n) s && (- 2 ^ 63 <=? n) && (n <? 2 ^ 63)
      then Some n else None
  | None => None
  end.

Definition incr (key : string) : Redis Z := λ r,
  match db r !! key with
  | None => (store_key (INCR key) key (RString "1") r, Ok 1)
  | Some (RString s) =>
      match int64_of_str s with
      | Some n =>
          if n + 1 <? 2 ^ 63
          then (store_key (INCR key) key (RString (str_int (n + 1))) r, Ok (n + 1))
          else (r, Raise NotAnInteger)
      | None => (r, Raise NotAnInteger)
      end
  | Some _ => (r, Raise WrongType)
  end.

Definition expire (key : string) (seconds : Z) : Redis bool := λ r,
  match db r !! key with
  | None => (served (EXPIRE key seconds) r, Ok false)
  | Some _ =>
      (mkRedis (db r) (<[key := seconds]> (ttl r))
               (writes r ++ [EXPIRE key seconds]), Ok true)
  end.

(** [setex(key, seconds, value)] replaces whatever the key held. *)
Definition setex (key : string) (seconds : Z) (value : string) : Redis bool := λ r,
  (mkRedis (<[key := RString value]> (db r)) (<[key := seconds]> (ttl r))
           (writes r ++ [SETEX key seconds value]), Ok true).

End RedisCmd.

(* ===================================================================== *)
(** * [QueueManager] *)
(* ===================================================================== *)

Import QueueConfig RedisCmd.

Definition QUEUE_FULL : exn := Exception "Queue is full. Please try again later.".
Definition QUOTA_EXCEEDED : exn :=
  Exception "Monthly project limit reached. Please upgrade.".

(** [f"job:{job_id}"] *)
Definition job_key (jid : string) : string := "job:" +:+ jid.

(** [f"job:{job_id}:timeout"] *)
Definition timeout_key (jid : string) : string := "job:" +:+ jid +:+ ":timeout".

(** [f"user:{user_id}:jobs:{now.strftime('%Y-%m')}"] *)
Definition month_key (uid : string) (now : datetime) : string :=
  "user:" +:+ uid +:+ ":jobs:" +:+ strftime_Ym now.

(** [int(v or 0)] for the answer of [get]. *)
Definition int_or_zero (v : option string) : result Z :=
  match v with
  | Some s => if truthy s then or_raise ValueError (int_of_str s) else Ok 0
  | None => Ok 0
  end.

(** [now] is the reading of [datetime.now()]. *)
Definition _check_user_limit (now : datetime) (uid tr : string) : Redis bool :=
  lim ← lift (TierLimits.getitem (upper tr));
  if monthly_limit lim =? -1 then mret true
  else
    v ← get (month_key uid now);
    current_count ← lift (int_or_zero v);
    mret (current_count <? monthly_limit lim).

Definition _get_queue_position (jid : string) : Redis Z :=
  rank ← zrank QUEUE_PENDING jid;
  mret (match rank with Some n => n + 1 | None => 0 end).

Definition _estimate_wait_time : Redis Z :=
  pending ← zcard QUEUE_PENDING;
  mret ((pending / MAX_CONCURRENT_JOBS) * 10).

Definition _get_completed_today : Redis Z := llen QUEUE_COMPLETED.

Definition _get_failed_today : Redis Z := llen QUEUE_FAILED.

Definition _get_avg_processing_time : Q := 12.5%Q.

(** The score under which a job enters the pending sorted set; [t] is the
    reading of [time.time()]. *)
Definition job_score (prio : Z) (t : Q) : Q := (inject_Z prio * 1000000 + t)%Q.

(** The clock readings of one [submit_job] call, in the order they are taken:
    [datetime.now()] in [_check_user_limit], [time.time()] for the score, and
    [datetime.now()] for the month key of the counter. *)
Record submit_clock := mkSubmitClock {
  quota_now : datetime;
  score_time : Q;
  counter_now : datetime
}.

(** What [submit_job] returns. The [estimated_start] entry, the clock plus
    ten minutes for each position, is left out. *)
Record receipt := mkReceipt {
  receipt_job_id : string;
  receipt_status : string;
  receipt_queue_position : Z;
  receipt_estimated_wait_minutes : Z
}.

Definition submit_job (clk : submit_clock) (job : ProjectJob) : Redis receipt :=
  queue_size ← llen QUEUE_PENDING;
  if queue_size >=? MAX_QUEUE_SIZE then raise QUEUE_FULL
  else
    within ← _check_user_limit (quota_now clk) (user_id job) (tier job);
    if negb within then raise QUOTA_EXCEEDED
    else
      let job_data := _serialize_job job in
      let score := job_score (priority job) (score_time clk) in
      _ ← zadd QUEUE_PENDING (job_id job) score;
      _ ← hset (job_key (job_id job)) job_data;
      let mkey := month_key (user_id job) (counter_now clk) in
      _ ← incr mkey;
      _ ← expire mkey 2592000;
      position ← _get_queue_position (job_id job);
      mret {| receipt_job_id := job_id job;
              receipt_status := "queued";
              receipt_queue_position := position;
              receipt_estimated_wait_minutes := position * 10 |}.

Definition with_claim (now : datetime) (wid : string) (job : ProjectJob) : ProjectJob :=
  {| job_id := job_id job; user_id := user_id job; tier := tier job;
     project_schema := project_schema job; status := PROCESSING;
     priority := priority job; created_at := created_at job;
     started_at := Some now; completed_at := completed_at job;
     error_message := error_message job; result_url := result_url job;
     queue_position := queue_position job;
     estimated_start := estimated_start job; worker_id := Some wid |}.

Definition get_next_job (now : datetime) (wid : string) : Redis (option ProjectJob) :=
  processing ← llen QUEUE_PROCESSING;
  if processing >=? MAX_CONCURRENT_JOBS then mret None
  else
    jobs ← zrange_first QUEUE_PENDING;
    match jobs with
    | [] => mret None
    | (jid, score) :: _ =>
        _ ← zrem QUEUE_PENDING jid;
        _ ← lpush QUEUE_PROCESSING jid;
        job_data ← hgetall (job_key jid);
        job ← lift (_deserialize_job job_data);
        let job := with_claim now wid job in
        _ ← hset (job_key jid) (_serialize_job job);
        _ ← setex (timeout_key jid) JOB_TIMEOUT_SECONDS "1";
        mret (Some job)
    end.

Definition with_completion (now : datetime) (url : string) (job : ProjectJob)
  : ProjectJob :=
  {| job_id := job_id job; user_id := user_id job; tier := tier job;
     project_schema := project_schema job; status := COMPLETED;
     priority := priority job; created_at := created_at job;
     started_at := started_at job; completed_at := Some now;
     error_message := error_message job; result_url := Some url;
     queue_position := queue_position job;
     estimated_start := estimated_start job; worker_id := worker_id job |}.

Definition complete_job (now : datetime) (jid url : string) : Redis unit :=
  _ ← lrem_all QUEUE_PROCESSING jid;
  job_data ← hgetall (job_key jid);
  job ← lift (_deserialize_job job_data);
  let job := with_completion now url job in
  _ ← hset (job_key jid) (_serialize_job job);
  _ ← lpush QUEUE_COMPLETED jid;
  _ ← expire (job_key jid) 604800;
  mret tt.

Definition with_failure (now : datetime) (error : string) (job : ProjectJob)
  : ProjectJob :=
  {| job_id := job_id job; user_id := user_id job; tier := tier job;
     project_schema := project_schema job; status := FAILED;
     priority := priority job; created_at := created_at job;
     started_at := started_at job; completed_at := Some now;
     error_message := Some error; result_url := result_url job;
     queue_position := queue_position job;
     estimated_start := estimated_start job; worker_id := worker_id job |}.

Definition fail_job (now : datetime) (jid error : string) : Redis unit :=
  _ ← lrem_all QUEUE_PROCESSING jid;
  job_data ← hgetall (job_key jid);
  job ← lift (_deserialize_job job_data);
  let job := with_failure now error job in
  _ ← hset (job_key jid) (_serialize_job job);
  _ ← lpush QUEUE_FAILED jid;
  mret tt.

Record queue_stats := mkStats {
  stats_pending : Z;
  stats_processing : Z;
  completed_today : Z;
  failed_today : Z;
  avg_processing_time_minutes : Q;
  estimated_wait_minutes : Z
}.

Definition get_queue_stats : Redis queue_stats :=
  pending ← zcard QUEUE_PENDING;
  processing ← llen QUEUE_PROCESSING;
  completed ← _get_completed_today;
  failed ← _get_failed_today;
  wait ← _estimate_wait_time;
  mret {| stats_pending := pending; stats_processing := processing;
          completed_today := completed; failed_today := failed;
          avg_processing_time_minutes := _get_avg_processing_time;
          estimated_wait_minutes := wait |}.

(** ** Readings of a store *)

(** What a key holds, read at the type a command expects; a key that is
    absent reads as an empty collection, as the server has it. *)
Definition zset_of (key : string) (r : redis) : gmap string Q :=
  match db r !! key with Some (RZSet z) => z | _ => ∅ end.

Definition list_of (key : string) (r : redis) : list string :=
  match db r !! key with Some (RList l) => l | _ => [] end.

Definition hash_of (key : string) (r : redis) : gmap string string :=
  match db r !! key with Some (RHash h) => h | _ => ∅ end.

(** The pending sorted set. *)
Definition pending_of (r : redis) : gmap string Q := zset_of QUEUE_PENDING r.

(** [key] is absent or holds a value of the named type. *)
Definition zset_key (key : string) (r : redis) : bool :=
  match db r !! key with None | Some (RZSet _) => true | _ => false end.

Definition list_key (key : string) (r : redis) : bool :=
  match db r !! key with None | Some (RList _) => true | _ => false end.

Definition hash_key (key : string) (r : redis) : bool :=
  match db r !! key with None | Some (RHash _) => true | _ => false end.

(** The four queue keys hold what the queue manager keeps in them. *)
Definition queues_typed (r : redis) : bool :=
  zset_key QUEUE_PENDING r && list_key QUEUE_PROCESSING r
  && list_key QUEUE_COMPLETED r && list_key QUEUE_FAILED r.

(** A hash stored under [job:<id>] records [<id>] as its [job_id]. *)
Definition hash_keyed (key : string) (v : rval) : bool :=
  match v, strip_prefix "job:" key with
  | RHash h, Some jid =>
      match h !! "job_id" with
      | Some v => String.eqb v jid
      | None => true
      end
  | _, _ => true
  end.

Definition hashes_keyed (r : redis) : bool :=
  bool_decide (map_Forall (λ key v, hash_keyed key v = true) (db r)).

(** A store-level triple: started in a store satisfying [P], the computation
    leaves a store satisfying [Q] of what it returns, or [E] when it raises. *)
Definition triple {A} (P : redis → Prop) (m : Redis A)
    (Q : A → redis → Prop) (E : redis → Prop) : Prop :=
  ∀ r r' res, P r → m r = (r', res) →
    match res with Ok a => Q a r' | Raise _ => E r' end.

(** The stores the queue manager can bring about, starting from an empty
    one: each call leaves one, whether it returns or raises. *)
Inductive reachable : redis → Prop :=
| reach_empty : reachable empty_redis
| reach_submit clk job r :
    reachable r → reachable (submit_job clk job r).1
| reach_claim now wid r :
    reachable r → reachable (get_next_job now wid r).1
| reach_complete now jid url r :
    reachable r → reachable (complete_job now jid url r).1
| reach_fail now jid error r :
    reachable r → reachable (fail_job now jid error r).1.

(** The invariant of the reachable stores: job hashes are filed under their
    ids, the queue keys hold values of their types, and the pending sorted
    set, when its key is there, has exactly one member. *)
Definition store_inv (r : redis) : Prop :=
  hashes_keyed r = true
  ∧ queues_typed r = true
  ∧ (∀ z, db r !! QUEUE_PENDING = Some (RZSet z) → size z = 1%nat).

(** The new writes of [ws'] over [ws] follow the order: job hash, monthly
    counter, and the pending sorted set last. *)
Definition hash_counter_zadd (ws ws' : list command) : Prop :=
  ∃ k m c mid p member score,
    ws' = ws ++ HSET k m :: INCR c :: mid ++ [ZADD p member score].


(** The monthly counter of a user, as the admission check reads it. *)
Definition monthly_count (uid : string) (now : datetime) (r : redis) : result Z :=
  match get (month_key uid now) r with
  | (_, Ok v) => int_or_zero v
  | (_, Raise e) => Raise e
  end.

(* ===================================================================== *)
(** * A worked scenario *)
(* ===================================================================== *)

(** One free-tier job is submitted to an empty store on 3 November 2026,
    claimed by a worker, and then completed or failed. *)
Definition clk0 : submit_clock :=
  mkSubmitClock (mkDatetime 2026 11 3 9 41 0 0) 1793698860
                (mkDatetime 2026 11 3 9 41 0 0).

Definition now1 : datetime := mkDatetime 2026 11 3 9 50 0 0.
Definition now2 : datetime := mkDatetime 2026 11 3 10 2 30 0.
Definition now3 : datetime := mkDatetime 2026 11 3 10 2 31 500000.

Definition sample_url : string := "https://storage.yourcloud.com/projects/j1.zip".

Definition queued_store : redis := (submit_job clk0 sample_job empty_redis).1.

Definition claimed_store : redis := (get_next_job now1 "worker-0" queued_store).1.

Definition claimed_job : ProjectJob := with_claim now1 "worker-0" (job_image sample_job).

Definition completed_store : redis :=
  (complete_job now2 "j1" sample_url claimed_store).1.

Definition completed_twice_store : redis :=
  (complete_job now2 "j1" sample_url completed_store).1.

Definition failed_store : redis := (fail_job now2 "j1" "boom" claimed_store).1.







(** A pending sorted set of [n] free-tier jobs. *)
Definition numbered_job (i : nat) : string * Q :=
  ("job-" +:+ str_int (Z.of_nat i),
   job_score PRIORITY_FREE (inject_Z (1793698860 + Z.of_nat i))).

Definition numbered_jobs (n : nat) : gmap string Q :=
  list_to_map (numbered_job <$> seq 0 n).

Definition pending_store (n : nat) : redis :=
  mkRedis {[ QUEUE_PENDING := RZSet (numbered_jobs n) ]} ∅ [].

(** A store with three jobs in flight and two pending. *)
Definition busy_store : redis :=
  mkRedis {[ QUEUE_PROCESSING := RList ["c"; "b"; "a"];
             QUEUE_PENDING := RZSet (numbered_jobs 2) ]} ∅ [].



(* ===================================================================== *)
(** * [timedelta] and the arithmetic of [datetime] *)
(* ===================================================================== *)

(** The proleptic Gregorian ordinal of a date and the [timedelta] type, after
    the [datetime] module of the standard library. *)
Module Timedelta.

Definition _MAXORDINAL : Z := 3652059.

Definition _DAYS_IN_MONTH (month : Z) : Z :=
  match month with
  | 1 => 31 | 2 => 28 | 3 => 31 | 4 => 30 | 5 => 31 | 6 => 30
  | 7 => 31 | 8 => 31 | 9 => 30 | 10 => 31 | 11 => 30 | 12 => 31
  | _ => 0
  end.

(** Days of the year before the first of [month], in a common year. *)
Definition _DAYS_BEFORE_MONTH (month : Z) : Z :=
  match month with
  | 1 => 0 | 2 => 31 | 3 => 59 | 4 => 90 | 5 => 120 | 6 => 151
  | 7 => 181 | 8 => 212 | 9 => 243 | 10 => 273 | 11 => 304 | 12 => 334
  | _ => 0
  end.

Definition _is_leap (year : Z) : bool :=
  (year mod 4 =? 0) && (negb (year mod 100 =? 0) || (year mod 400 =? 0)).

Definition _days_before_year (year : Z) : Z :=
  let y := year - 1 in
  y * 365 + y / 4 - y / 100 + y / 400.

Definition _days_in_month (year month : Z) : Z :=
  if (month =? 2) && _is_leap year then 29 else _DAYS_IN_MONTH month.

Definition _days_before_month (year month : Z) : Z :=
  _DAYS_BEFORE_MONTH month + (if (month >? 2) && _is_leap year then 1 else 0).

Definition _ymd2ord (year month day : Z) : Z :=
  _days_before_year year + _days_before_month year month + day.

Definition _DI400Y : Z := 146097.
Definition _DI100Y : Z := 36524.
Definition _DI4Y : Z := 1461.

(** The date of an ordinal, the first of January of year 1 being day 1. *)
Definition _ord2ymd (n : Z) : Z * Z * Z :=
  let n := n - 1 in
  let n400 := n / _DI400Y in
  let n := n mod _DI400Y in
  let year := n400 * 400 + 1 in
  let n100 := n / _DI100Y in
  let n := n mod _DI100Y in
  let n4 := n / _DI4Y in
  let n := n mod _DI4Y in
  let n1 := n / 365 in
  let n := n mod 365 in
  let year := year + n100 * 100 + n4 * 4 + n1 in
  if (n1 =? 4) || (n100 =? 4) then (year - 1, 12, 31)
  else
    let leapyear := (n1 =? 3) && (negb (n4 =? 24) || (n100 =? 3)) in
    let month := Z.shiftr (n + 50) 5 in
    let preceding :=
      _DAYS_BEFORE_MONTH month + (if (month >? 2) && leapyear then 1 else 0) in
    if preceding >? n then
      let month := month - 1 in
      let preceding :=
        preceding
        - (_DAYS_IN_MONTH month + (if (month =? 2) && leapyear then 1 else 0)) in
      (year, month, n - preceding + 1)
    else (year, month, n - preceding + 1).

(** A duration, kept as the constructor leaves it: [0 <= seconds < 86400]
    and [0 <= microseconds < 1000000], the sign being carried by [days]. *)
Record timedelta := mkTimedelta { days : Z; seconds : Z; microseconds : Z }.

(** [timedelta(days, seconds, microseconds)] on [int] arguments; [None]
    stands for the [OverflowError] of a duration beyond 999999999 days. *)
Definition timedelta_new (days seconds microseconds : Z) : option timedelta :=
  let d := days in
  let days1 := seconds / 86400 in
  let seconds1 := seconds mod 86400 in
  let d := d + days1 in
  let s := seconds1 in
  let seconds2 := microseconds / 1000000 in
  let microseconds1 := microseconds mod 1000000 in
  let days2 := seconds2 / 86400 in
  let seconds3 := seconds2 mod 86400 in
  let d := d + days2 in
  let s := s + seconds3 in
  let seconds4 := microseconds1 / 1000000 in
  let us := microseconds1 mod 1000000 in
  let s := s + seconds4 in
  let days3 := s / 86400 in
  let s := s mod 86400 in
  let d := d + days3 in
  if Z.abs d >? 999999999 then None else Some (mkTimedelta d s us).

(** [d.toordinal()] *)
Definition toordinal (d : datetime) : Z :=
  _ymd2ord (Z.of_N (year d)) (Z.of_N (month d)) (Z.of_N (day d)).

(** Seconds of the day. *)
Definition day_seconds (d : datetime) : Z :=
  Z.of_N (second d) + Z.of_N (minute d) * 60 + Z.of_N (hour d) * 3600.

(** [a - b] on two naive [datetime]s. *)
Definition datetime_sub (a b : datetime) : option timedelta :=
  timedelta_new (toordinal a - toordinal b)
                (day_seconds a - day_seconds b)
                (Z.of_N (microsecond a) - Z.of_N (microsecond b)).

(** [d + delta]; [None] stands for the [OverflowError] of a result outside
    the years 1 to 9999. *)
Definition datetime_add (d : datetime) (other : timedelta) : option datetime :=
  delta ← timedelta_new (toordinal d)
                        (Z.of_N (hour d) * 3600 + Z.of_N (minute d) * 60
                         + Z.of_N (second d))
                        (Z.of_N (microsecond d));
  delta ← timedelta_new (days delta + days other)
                        (seconds delta + seconds other)
                        (microseconds delta + microseconds other);
  let hour := seconds delta / 3600 in
  let rem := seconds delta mod 3600 in
  let minute := rem / 60 in
  let second := rem mod 60 in
  if (0 <? days delta) && (days delta <=? _MAXORDINAL) then
    let '(y, m, dd) := _ord2ymd (days delta) in
    Some (mkDatetime (Z.to_N y) (Z.to_N m) (Z.to_N dd)
                     (Z.to_N hour) (Z.to_N minute) (Z.to_N second)
                     (Z.to_N (microseconds delta)))
  else None.

(** Microseconds from the start of day 0 of the calendar to [d]. *)
Definition instant (d : datetime) : Z :=
  (toordinal d * 86400 + day_seconds d) * 1000000 + Z.of_N (microsecond d).

(** The microseconds a duration stands for. *)
Definition total_microseconds (t : timedelta) : Z :=
  (days t * 86400 + seconds t) * 1000000 + microseconds t.

End Timedelta.

(* ===================================================================== *)
(** * The status report, the HTTP interface and the worker *)
(* ===================================================================== *)

(** The exceptions met above the queue manager: those of the queue manager
    itself, the [OverflowError] of date arithmetic, the [TypeError] of an
    operator applied to [None], the [AttributeError] of a method called on
    [None], and the [HTTPException] of the web framework. *)
Inductive py_exn :=
| Queue (e : exn)
| OverflowError
| TypeError
| AttributeError
| HTTPException (status_code : Z) (detail : string).

Inductive outcome (A : Type) :=
| Returned (a : A)
| Raised (e : py_exn).
Arguments Returned {A} a.
Arguments Raised {A} e.

(** A computation against the store that returns or raises a [py_exn]. *)
Definition Api (A : Type) : Type := redis → redis * outcome A.

Definition Api_ret : MRet Api := λ A a r, (r, Returned a).

Definition Api_bind : MBind Api := λ A B f m r,
  match m r with
  | (r', Returned a) => f a r'
  | (r', Raised e) => (r', Raised e)
  end.

(** A call into the queue manager or the Redis client. *)
Definition call {A} (m : Redis A) : Api A := λ r,
  match m r with
  | (r', Ok a) => (r', Returned a)
  | (r', Raise e) => (r', Raised (Queue e))
  end.

Definition throw {A} (e : py_exn) : Api A := λ r, (r, Raised e).

(** The value of an optional field, or the exception of using [None]. *)
Definition required {A} (e : py_exn) (o : option A) : Api A := λ r,
  match o with Some a => (r, Returned a) | None => (r, Raised e) end.

(** [d.update(items)] *)
Definition dict_update (d items : list (string * pyval)) : list (string * pyval) :=
  fold_left (λ d kv, dict_set (fst kv) (snd kv) d) items d.

(** An optional [str] as a Python value. *)
Definition py_optional_str (o : option string) : pyval :=
  match o with Some s => PStr s | None => PNone end.

(** [now] is the reading of [datetime.now()]. The whole-number quotient of
    the true division is the float the code computes. *)
Definition _estimate_start_time (now : datetime) (position : Z) : option datetime :=
  let minutes_until_start := position * POSITION_ESTIMATE_SECONDS / 60 in
  delta ← Timedelta.timedelta_new 0 (minutes_until_start * 60) 0;
  Timedelta.datetime_add now delta.

(** [(a - b).seconds] *)
Definition seconds_between (a b : datetime) : Api Z := λ r,
  match Timedelta.datetime_sub a b with
  | Some delta => (r, Returned (Timedelta.seconds delta))
  | None => (r, Raised OverflowError)
  end.

Section status_report.

#[local] Instance status_ret : MRet Api := Api_ret.
#[local] Instance status_bind : MBind Api := Api_bind.

(** [now] is the reading of [datetime.now()], taken once on the path of a
    queued job and once on the path of a job in flight. *)
Definition get_job_status (now : datetime) (jid : string)
  : Api (list (string * pyval)) :=
  job_data ← call (hgetall (job_key jid));
  if decide (job_data = ∅) then throw (HTTPException 404 "Job not found")
  else
    job ← call (lift (_deserialize_job job_data));
    let response :=
      [ ("job_id", PStr (job_id job));
        ("status", PStr (status_value (status job)));
        ("created_at", PStr (isoformat (created_at job))) ] in
    match status job with
    | QUEUED =>
        position ← call (_get_queue_position jid);
        estimated_start ←
          required OverflowError (_estimate_start_time now position);
        mret (dict_update response
                [ ("queue_position", PInt position);
                  ("estimated_start", PStr (isoformat estimated_start));
                  ("estimated_wait_minutes", PInt (position * 10)) ])
    | PROCESSING =>
        started ← required TypeError (started_at job);
        elapsed ← seconds_between now started;
        mret (dict_update response
                [ ("started_at", PStr (isoformat started));
                  ("elapsed_seconds", PInt elapsed);
                  ("worker_id", py_optional_str (worker_id job)) ])
    | COMPLETED =>
        completed ← required AttributeError (completed_at job);
        started ← required TypeError (started_at job);
        duration ← seconds_between completed started;
        mret (dict_update response
                [ ("completed_at", PStr (isoformat completed));
                  ("result_url", py_optional_str (result_url job));
                  ("duration_seconds", PInt duration) ])
    | FAILED =>
        completed ← required AttributeError (completed_at job);
        mret (dict_update response
                [ ("completed_at", PStr (isoformat completed));
                  ("error", py_optional_str (error_message job)) ])
    | CANCELLED => mret response
    end.

End status_report.

(** ** The HTTP interface *)

(** [QueueConfig.__dict__[f"PRIORITY_{suffix}"]]: of the names of the class,
    four begin with [PRIORITY_]. *)
Definition priority_attr (suffix : string) : result Z :=
  if String.eqb suffix "ENTERPRISE" then Ok PRIORITY_ENTERPRISE
  else if String.eqb suffix "PRO" then Ok PRIORITY_PRO
  else if String.eqb suffix "INDIE" then Ok PRIORITY_INDIE
  else if String.eqb suffix "FREE" then Ok PRIORITY_FREE
  else Raise (KeyError ("PRIORITY_" +:+ suffix)).

(** [JSONResponse(status_code=..., content=...)] *)
Record json_response := mkJSONResponse {
  response_status_code : Z;
  response_content : receipt
}.

(** [f"https://storage.yourcloud.com/projects/{job_id}.zip"] *)
Definition _upload_result (jid : string) : string :=
  "https://storage.yourcloud.com/projects/" +:+ jid +:+ ".zip".

(** The clock readings of one turn of the worker loop: in [get_next_job], in
    [complete_job] and in [fail_job]. *)
Record worker_clock := mkWorkerClock {
  claimed_now : datetime;
  completed_now : datetime;
  failed_now : datetime
}.

Section exception_text.

(** [str(e)], the text of an exception: what the embedding does not keep of
    an exception is a parameter. *)
Variable str_exn : exn → string.

(** The job a request makes; [job_uuid] is the reading of [uuid.uuid4()] and
    [now] that of [datetime.now()]. *)
Definition new_job (job_uuid : string) (now : datetime) (uid tr : string)
    (schema : pyval) (prio : Z) : ProjectJob :=
  {| job_id := job_uuid; user_id := uid; tier := tr;
     project_schema := schema; status := QUEUED; priority := prio;
     created_at := now; started_at := None; completed_at := None;
     error_message := None; result_url := None;
     queue_position := None; estimated_start := None; worker_id := None |}.

(** [POST /api/v1/projects] *)
Definition create_project (job_uuid : string) (now : datetime)
    (clk : submit_clock) (uid tr : string) (schema : pyval)
  : Api json_response := λ r,
  match (prio ← lift (priority_attr (upper tr));
         submit_job clk (new_job job_uuid now uid tr schema prio)) r with
  | (r', Ok result) => (r', Returned (mkJSONResponse 202 result))
  | (r', Raise e) => (r', Raised (HTTPException 400 (str_exn e)))
  end.

(** [GET /api/v1/projects/{job_id}] *)
Definition get_project_status (now : datetime) (jid : string)
  : Api (list (string * pyval)) :=
  get_job_status now jid.

(** ** The worker *)

(** The generation of the project, which is code outside this file: it
    returns, or raises an exception. *)
Variable generate : ProjectJob → result unit.

Definition _process_project (job : ProjectJob) : result string :=
  _ ← generate job;
  Ok (_upload_result (job_id job)).

(** What the worker does with a job it has claimed: the inner [try] of the
    loop. It answers whether the exception handler of the outer [try] ran. *)
Definition process_claimed (clk : worker_clock) (job : ProjectJob)
  : redis → redis * bool := λ r,
  match (result_url ← lift (_process_project job);
         complete_job (completed_now clk) (job_id job) result_url) r with
  | (r1, Ok _) => (r1, false)
  | (r1, Raise e) =>
      match fail_job (failed_now clk) (job_id job) (str_exn e) r1 with
      | (r2, Ok _) => (r2, false)
      | (r2, Raise _) => (r2, true)
      end
  end.

(** One turn of the loop of [Worker.start]; it answers the seconds the
    worker sleeps before the next turn. *)
Definition worker_turn (clk : worker_clock) (wid : string)
  : redis → redis * Z := λ r,
  match get_next_job (claimed_now clk) wid r with
  | (r1, Ok (Some job)) =>
      match process_claimed clk job r1 with
      | (r2, false) => (r2, 0)
      | (r2, true) => (r2, 10)
      end
  | (r1, Ok None) => (r1, 5)
  | (r1, Raise _) => (r1, 10)
  end.

End exception_text.

(** ** Readings a computation leaves as they were *)

(** Whatever [m] returns or raises, the reading [f] of the store is the same
    after it as before. *)
Definition preserves {A B} (f : redis → B) (m : Redis A) : Prop :=
  ∀ r, f (m r).1 = f r.

(** A store in which one id is pending and no job hash is filed under it. *)
Definition ghost_store : redis :=
  mkRedis {[ QUEUE_PENDING := RZSet {[ "ghost" := 1%Q ]} ]} ∅ [].

Definition ghost_claimed_store : redis :=
  (get_next_job now1 "worker-0" ghost_store).1.

(** ** More of the worked scenario *)

(** A job of a tier the tables do not have. *)
Definition gold_job : ProjectJob :=
  new_job "j9" now1 "u9" "gold" sample_schema 0.

(** The text of an exception, for the scenario: the message of a plain
    [Exception], the key of a [KeyError]. *)
Definition plain_text (e : exn) : string :=
  match e with
  | Exception msg => msg
  | KeyError k => k
  | _ => ""
  end.

Definition sample_worker_clock : worker_clock := mkWorkerClock now1 now2 now3.

(** A generation that returns, and one that raises. *)
Definition generate_ok (job : ProjectJob) : result unit := Ok tt.
Definition generate_boom (job : ProjectJob) : result unit :=
  Raise (Exception "boom").

(** The day after [now2], at the same time of day. *)
Definition now2_next_day : datetime := mkDatetime 2026 11 4 10 2 30 0.

(** The queued job of the scenario, completed without having been claimed. *)
Definition unclaimed_completed_store : redis :=
  (complete_job now2 "j1" sample_url queued_store).1.

(* ===================================================================== *)
(** * Text round trips *)
(* ===================================================================== *)

Section text_facts.

Lemma string_app_cons (c : ascii) (a b : string) :
  String c a +:+ b = String c (a +:+ b).
Proof. reflexivity. Qed.

Lemma string_app_nil_l (b : string) : "" +:+ b = b.
Proof. reflexivity. Qed.

Lemma string_app_assoc (a b c : string) : (a +:+ b) +:+ c = a +:+ (b +:+ c).
Proof.
  induction a as [|x a IH]; [done|].
  rewrite !string_app_cons. by f_equal.
Qed.

Lemma string_app_nil_r (a : string) : a +:+ "" = a.
Proof.
  induction a as [|x a IH]; [done|]. rewrite string_app_cons. by f_equal.
Qed.

Lemma string_app_length (a b : string) :
  String.length (a +:+ b) = (String.length a + String.length b)%nat.
Proof.
  induction a as [|x a IH]; [done|].
  rewrite string_app_cons. simpl. by rewrite IH.
Qed.

Lemma digit_val_char (k : N) : (k < 10)%N → digit_val (digit_char k) = Some k.
Proof.
  intros Hk.
  destruct k as [|p]; [reflexivity|].
  do 4 (destruct p as [p|p|]; try lia; try reflexivity).
Qed.

Lemma read_zero_pad (w : nat) : ∀ (n : N) (rest : string),
  (n < 10 ^ N.of_nat w)%N →
  read_digits w (zero_pad w n +:+ rest) = Some (n, rest).
Proof.
  induction w as [|w IH]; intros n rest Hn.
  - simpl in *. f_equal. f_equal. lia.
  - cbn [zero_pad read_digits].
    rewrite string_app_assoc, string_app_cons, string_app_nil_l.
    assert (Hdiv : (n / 10 < 10 ^ N.of_nat w)%N).
    { apply N.Div0.div_lt_upper_bound.
      replace (10 * 10 ^ N.of_nat w)%N with (10 ^ N.of_nat (S w))%N; [done|].
      rewrite Nat2N.inj_succ, N.pow_succ_r'. done. }
    rewrite (IH _ _ Hdiv).
    rewrite digit_val_char by (apply N.mod_lt; lia).
    f_equal. f_equal.
    pose proof (N.div_mod n 10 ltac:(lia)). lia.
Qed.

Lemma uint_nonnil_N (n : N) : N.to_uint n ≠ Decimal.Nil.
Proof.
  destruct n as [|p]; [discriminate|].
  simpl. apply DecimalPos.Unsigned.to_uint_nonnil.
Qed.

Lemma N_of_digits_of_N (n : N) : N_of_digits (digits_of_N n) = Some n.
Proof.
  unfold N_of_digits, digits_of_N.
  rewrite NilZero.usu by apply uint_nonnil_N.
  simpl. by rewrite DecimalN.Unsigned.of_to.
Qed.

(** The text of a natural number opens with a digit. *)
Lemma digits_of_N_head (n : N) :
  ∃ c s, digits_of_N n = String c s ∧ is_digit c = true.
Proof.
  unfold digits_of_N, NilZero.string_of_uint.
  pose proof (uint_nonnil_N n) as Hn.
  destruct (N.to_uint n); [done | ..]; simpl; eauto.
Qed.

Lemma int_of_str_unsigned (c : ascii) (s : string) :
  is_digit c = true →
  int_of_str (String c s) = Z.of_N <$> N_of_digits (String c s).
Proof.
  intros Hc. unfold int_of_str.
  destruct c as [[] [] [] [] [] [] [] []]; try done.
Qed.

Lemma int_of_str_int (z : Z) : int_of_str (str_int z) = Some z.
Proof.
  unfold str_int. destruct (Z.ltb_spec z 0) as [Hneg | Hpos].
  - cbn [int_of_str]. rewrite N_of_digits_of_N. simpl. f_equal. lia.
  - destruct (digits_of_N_head (Z.to_N z)) as (c & s & Hs & Hc).
    rewrite Hs, (int_of_str_unsigned _ _ Hc), <- Hs, N_of_digits_of_N.
    simpl. f_equal. lia.
Qed.

End text_facts.

Ltac str_step :=
  rewrite ?string_app_cons, ?string_app_nil_l;
  cbn [mbind option_bind expect Ascii.eqb Bool.eqb].

Section datetime_facts.

Lemma valid_bounds (d : datetime) :
  valid d = true →
  (year d < 10 ^ 4 ∧ month d < 10 ^ 2 ∧ day d < 10 ^ 2 ∧ hour d < 10 ^ 2
   ∧ minute d < 10 ^ 2 ∧ second d < 10 ^ 2 ∧ microsecond d < 10 ^ 6)%N.
Proof.
  unfold valid. rewrite !andb_true_iff.
  rewrite !N.leb_le, !N.ltb_lt.
  intros [[[[[[[[[? ?] ?] ?] ?] Hday] ?] ?] ?] ?].
  assert (days_in_month (year d) (month d) ≤ 31)%N.
  { unfold days_in_month.
    destruct (month d) as [|p]; [lia|].
    do 5 (try destruct p as [p|p|]; try lia); destruct (is_leap _); lia. }
  repeat split; try lia.
Qed.

Lemma fromisoformat_sep (sep : ascii) (d : datetime) :
  valid d = true → fromisoformat (isoformat_sep sep d) = Some d.
Proof.
  intros Hv. destruct (valid_bounds d Hv) as (Hy & Hmo & Hd & Hh & Hmi & Hs & Hus).
  unfold fromisoformat, isoformat_sep.
  rewrite (read_zero_pad 4) by done. str_step.
  rewrite (read_zero_pad 2) by done. str_step.
  rewrite (read_zero_pad 2) by done. str_step.
  rewrite (read_zero_pad 2) by done. str_step.
  rewrite (read_zero_pad 2) by done. str_step.
  destruct (N.eqb_spec (microsecond d) 0) as [Hz | Hnz].
  - rewrite string_app_nil_r, <- (string_app_nil_r (zero_pad 2 _)).
    rewrite (read_zero_pad 2) by done. cbn [mbind option_bind].
    destruct d; simpl in *; subst. by rewrite Hv.
  -     rewrite (read_zero_pad 2) by done. str_step.
    rewrite <- (string_app_nil_r (zero_pad 6 _)), (read_zero_pad 6) by done.
    destruct d; simpl in *. by rewrite Hv.
Qed.

Lemma fromisoformat_isoformat (d : datetime) :
  valid d = true → fromisoformat (isoformat d) = Some d.
Proof. apply fromisoformat_sep. Qed.

Lemma fromisoformat_valid (s : string) (d : datetime) :
  fromisoformat s = Some d → valid d = true.
Proof.
  unfold fromisoformat. intros H.
  repeat (let x := fresh "x" in
          apply bind_Some in H as (x & _ & H); try destruct x as [? ?]).
  repeat case_match; by simplify_eq.
Qed.

Lemma zero_pad_length (w : nat) (n : N) : String.length (zero_pad w n) = w.
Proof.
  revert n. induction w as [|w IH]; intros n; [done|].
  cbn [zero_pad]. rewrite string_app_length, IH. simpl. lia.
Qed.

(** A formatted [datetime] is never the empty string. *)
Lemma isoformat_truthy (d : datetime) : truthy (isoformat d) = true.
Proof.
  pose proof (zero_pad_length 4 (year d)) as Hlen.
  unfold isoformat, isoformat_sep.
  destruct (zero_pad 4 (year d)) as [|c s]; [done|].
  by rewrite string_app_cons.
Qed.

End datetime_facts.

(* ===================================================================== *)
(** * The [json] round trip *)
(* ===================================================================== *)

Section json_facts.

Lemma pyval_ind' (P : pyval → Prop) :
  P PNone → (∀ b, P (PBool b)) → (∀ z, P (PInt z)) → (∀ s, P (PStr s)) →
  (∀ l, Forall P l → P (PList l)) →
  (∀ l, Forall P l → P (PTuple l)) →
  (∀ items, Forall (λ kv, P kv.2) items → P (PDict items)) →
  ∀ v, P v.
Proof.
  intros HN HB HI HS HL HT HD.
  fix IH 1. intros [| b | z | s | l | l | items].
  - exact HN.
  - apply HB.
  - apply HI.
  - apply HS.
  - apply HL. induction l as [|x l IHl]; constructor; [apply IH | exact IHl].
  - apply HT. induction l as [|x l IHl]; constructor; [apply IH | exact IHl].
  - apply HD. induction items as [|[k x] l IHl]; constructor;
      [apply IH | exact IHl].
Qed.

(** *** Strings *)

Lemma scan_escape_char (c : ascii) (tail : string) :
  scan_string (escape_char c +:+ tail)
  = match scan_string tail with
    | Some (str, r) => Some (String c str, r)
    | None => None
    end.
Proof. destruct c as [[] [] [] [] [] [] [] []]; reflexivity. Qed.

Lemma scan_string_escape (s rest : string) :
  scan_string (escape s +:+ String dquote rest) = Some (s, rest).
Proof.
  induction s as [|c s IH]; [reflexivity|].
  cbn [escape]. by rewrite string_app_assoc, scan_escape_char, IH.
Qed.

Lemma quote_app (s rest : string) :
  quote s +:+ rest = String dquote (escape s +:+ String dquote rest).
Proof.
  unfold quote. by rewrite string_app_cons, string_app_assoc, string_app_cons.
Qed.

(** *** Numbers *)

Lemma string_of_uint_digits (d : Decimal.uint) (rest : string) :
  (match rest with String c _ => is_digit c = false | EmptyString => True end) →
  span_digits (NilEmpty.string_of_uint d +:+ rest)
  = (NilEmpty.string_of_uint d, rest).
Proof.
  intros Hrest. induction d as [| d IH | d IH | d IH | d IH | d IH | d IH
                                  | d IH | d IH | d IH | d IH];
    cbn [NilEmpty.string_of_uint];
    rewrite ?string_app_cons, ?string_app_nil_l;
    try (cbn [span_digits]; change (is_digit _) with true; cbn iota;
         by rewrite IH).
  destruct rest as [|c r]; [done|]. cbn [span_digits]. by rewrite Hrest.
Qed.

Lemma unorm_fixed_head (d : Decimal.uint) :
  Decimal.unorm (Decimal.D0 d) = Decimal.D0 d → d = Decimal.Nil.
Proof.
  intros H. rewrite unorm_D0 in H.
  destruct d as [| d | d | d | d | d | d | d | d | d | d]; [done | exfalso ..];
    match type of H with Decimal.unorm ?u = _ =>
      pose proof (nb_digits_unorm u ltac:(done)) as Hle end;
    rewrite H in Hle; cbn [Decimal.nb_digits] in Hle; lia.
Qed.

Lemma pos_to_uint_head (p : positive) :
  ∃ c s, NilEmpty.string_of_uint (Pos.to_uint p) = String c s
         ∧ is_digit c = true ∧ N_of_ascii c ≠ 48%N.
Proof.
  pose proof (DecimalPos.Unsigned.to_of (Pos.to_uint p)) as Hfix.
  rewrite DecimalPos.Unsigned.of_to in Hfix.
  change (N.to_uint (N.pos p)) with (Pos.to_uint p) in Hfix.
  pose proof (DecimalPos.Unsigned.to_uint_nonnil p) as Hnn.
  destruct (Pos.to_uint p) as [| d | d | d | d | d | d | d | d | d | d] eqn:E;
    [done | | cbn [NilEmpty.string_of_uint]; eexists _, _; repeat split; done ..].
  symmetry in Hfix. apply unorm_fixed_head in Hfix as ->.
  exfalso. by apply (DecimalPos.Unsigned.to_uint_nonzero p).
Qed.

Lemma scan_nat_digits (n : N) (rest : string) :
  delimited rest = true → scan_nat (digits_of_N n +:+ rest) = Some (n, rest).
Proof.
  intros Hrest.
  assert (Hfl : float_tail rest = false).
  { destruct rest; [done|]. unfold delimited in Hrest.
    apply andb_true_iff in Hrest as [_ H]. by apply negb_true_iff in H. }
  assert (Hdg : match rest with String c _ => is_digit c = false | "" => True end).
  { destruct rest; [done|]. unfold delimited in Hrest.
    apply andb_true_iff in Hrest as [H _]. by apply negb_true_iff in H. }
  destruct n as [|p].
  - change (digits_of_N 0) with "0". rewrite string_app_cons, string_app_nil_l.
    cbn. by rewrite Hfl.
  - pose proof (N_of_digits_of_N (N.pos p)) as Hval.
    unfold digits_of_N in *. unfold NilZero.string_of_uint in *.
    pose proof (DecimalPos.Unsigned.to_uint_nonnil p) as Hnn.
    change (N.to_uint (N.pos p)) with (Pos.to_uint p) in *.
    destruct (pos_to_uint_head p) as (c & s & Hs & Hc & Hnz).
    destruct (Pos.to_uint p) eqn:E; [done | ..].
    all: rewrite Hs, string_app_cons; unfold scan_nat;
      apply N.eqb_neq in Hnz; rewrite Hnz, Hc;
      rewrite <- string_app_cons, <- Hs, string_of_uint_digits by done;
      by rewrite Hfl, Hval.
Qed.

(** *** Values *)

Lemma digit_opens_value (c : ascii) : is_digit c = true → opens_value c = true.
Proof. destruct c as [[] [] [] [] [] [] [] []]; done. Qed.

Lemma dumps_head (v : pyval) :
  ∃ c s, dumps v = String c s ∧ opens_value c = true.
Proof.
  destruct v as [| [] | z | s | l | l | items]; cbn [dumps];
    try (eexists _, _; split; [reflexivity | done]).
  unfold str_int. destruct (z <? 0); [by eexists _, _|].
  destruct (digits_of_N_head (Z.to_N z)) as (c & s & -> & Hc).
  eexists _, _. split; [done | by apply digit_opens_value].
Qed.

Lemma skip_ws_opens (c : ascii) (s : string) :
  opens_value c = true → skip_ws (String c s) = String c s.
Proof.
  unfold opens_value. intros [H _]%andb_true_iff.
  cbn [skip_ws]. by destruct (is_ws c).
Qed.

Lemma skip_ws_dumps (v : pyval) (tail : string) :
  skip_ws (dumps v +:+ tail) = dumps v +:+ tail.
Proof.
  destruct (dumps_head v) as (c & s & -> & Hc).
  rewrite string_app_cons. by apply skip_ws_opens.
Qed.

Lemma parse_value_digit (c : ascii) (s : string) (fuel : nat) :
  is_digit c = true →
  parse_value (S fuel) (String c s)
  = match scan_nat (String c s) with
    | Some (n, r) => Some (PInt (Z.of_N n), r)
    | None => None
    end.
Proof. destruct c as [[] [] [] [] [] [] [] []]; done. Qed.

#[local] Arguments join : simpl never.
#[local] Arguments dumps : simpl never.
#[local] Arguments json_image : simpl never.

Lemma join_single (sep p : string) : join sep [p] = p.
Proof. reflexivity. Qed.

Lemma join_cons2 (sep p q : string) (ps : list string) :
  join sep (p :: q :: ps) = p +:+ sep +:+ join sep (q :: ps).
Proof. reflexivity. Qed.

Lemma parse_elems_dumps (l : list pyval) :
  Forall reads_back l → l ≠ [] →
  ∀ (fuel : nat) (rest : string),
    (String.length (join ", " (map dumps l)) < fuel)%nat →
    parse_elems fuel (join ", " (map dumps l) +:+ String "]" rest)
    = Some (map json_image l, rest).
Proof.
  induction 1 as [|v l Hv Hl IH]; [done|]. intros _ fuel rest Hfuel.
  destruct fuel as [|fuel]; [lia|]. cbn [parse_elems].
  destruct l as [|v2 l'].
  - cbn [map] in *. rewrite join_single in *. rewrite Hv by (done || lia). done.
  - cbn [map] in *. rewrite join_cons2 in *.
    rewrite !string_app_length in Hfuel. cbn [String.length] in Hfuel.
    rewrite !string_app_assoc, !string_app_cons, string_app_nil_l.
    rewrite Hv by (done || lia). simpl.
    change (dumps v2 :: map dumps l') with (map dumps (v2 :: l')) in *.
    assert (Hskip : ∀ t, skip_ws (join ", " (map dumps (v2 :: l')) +:+ t)
                         = join ", " (map dumps (v2 :: l')) +:+ t).
    { intros t. cbn [map]. destruct l'; cbn [map];
        [rewrite join_single | rewrite join_cons2, !string_app_assoc];
        apply skip_ws_dumps. }
    rewrite Hskip, IH by (done || lia). done.
Qed.

Lemma dumps_item_app (kv : string * pyval) (tail : string) :
  dumps_item kv +:+ tail
  = String dquote (escape kv.1 +:+ String dquote
                     (String ":" (String " " (dumps kv.2 +:+ tail)))).
Proof.
  unfold dumps_item. rewrite string_app_assoc, quote_app.
  by rewrite !string_app_assoc, !string_app_cons, string_app_nil_l.
Qed.

Lemma dumps_item_length (kv : string * pyval) :
  (String.length (dumps kv.2) + 2 < String.length (dumps_item kv))%nat.
Proof.
  unfold dumps_item, quote. rewrite !string_app_length. cbn [String.length].
  rewrite string_app_length. cbn [String.length]. lia.
Qed.

Lemma parse_members_dumps (items : list (string * pyval)) :
  Forall (λ kv, reads_back kv.2) items → items ≠ [] →
  ∀ (fuel : nat) (rest : string),
    (String.length (join ", " (map dumps_item items)) < fuel)%nat →
    parse_members fuel (join ", " (map dumps_item items) +:+ String "}" rest)
    = Some (map (λ kv, (kv.1, json_image kv.2)) items, rest).
Proof.
  induction 1 as [|kv l Hv Hl IH]; [done|]. intros _ fuel rest Hfuel.
  destruct fuel as [|fuel]; [lia|].
  pose proof (dumps_item_length kv) as Hlen.
  destruct l as [|kv2 l'].
  - cbn [map] in *. rewrite join_single in *. rewrite dumps_item_app.
    cbn [parse_members]. change (N_of_ascii dquote =? 34)%N with true. cbn iota.
    rewrite scan_string_escape. simpl.
    rewrite skip_ws_dumps, Hv by (done || lia). done.
  - cbn [map] in *. rewrite join_cons2 in *.
    rewrite !string_app_length in Hfuel. cbn [String.length] in Hfuel.
    rewrite !string_app_assoc, dumps_item_app.
    cbn [parse_members]. change (N_of_ascii dquote =? 34)%N with true. cbn iota.
    rewrite scan_string_escape. simpl.
    rewrite !string_app_cons, string_app_nil_l.
    rewrite skip_ws_dumps, Hv by (done || lia). simpl.
    change (dumps_item kv2 :: map dumps_item l')
      with (map dumps_item (kv2 :: l')) in *.
    assert (Hskip : ∀ t, skip_ws (join ", " (map dumps_item (kv2 :: l')) +:+ t)
                         = join ", " (map dumps_item (kv2 :: l')) +:+ t).
    { intros t. cbn [map]. destruct l'; cbn [map];
        [rewrite join_single | rewrite join_cons2, !string_app_assoc];
        by rewrite dumps_item_app. }
    rewrite Hskip, IH by (done || lia). done.
Qed.

Lemma dumps_list_app (l : list pyval) (rest : string) :
  ("[" +:+ join ", " (map dumps l) +:+ "]") +:+ rest
  = String "[" (join ", " (map dumps l) +:+ String "]" rest).
Proof. by rewrite !string_app_cons, !string_app_nil_l, string_app_assoc. Qed.

Lemma parse_value_list (l : list pyval) :
  Forall reads_back l →
  ∀ (fuel : nat) (rest : string),
    (String.length (join ", " (map dumps l)) + 2 ≤ fuel)%nat →
    parse_value fuel (String "[" (join ", " (map dumps l) +:+ String "]" rest))
    = Some (PList (map json_image l), rest).
Proof.
  intros Hl fuel rest Hfuel. destruct fuel as [|fuel]; [lia|].
  destruct l as [|v l']; [done|].
  pose proof (parse_elems_dumps (v :: l') Hl ltac:(done) fuel rest ltac:(lia))
    as Hparse.
  assert (∃ c s, join ", " (map dumps (v :: l')) +:+ String "]" rest = String c s
                 ∧ opens_value c = true) as (c & s & Hs & Hc).
  { destruct (dumps_head v) as (c & s & Hv & Hc). cbn [map].
    destruct l'; cbn [map]; [rewrite join_single | rewrite join_cons2];
      rewrite Hv, string_app_cons; eauto. }
  rewrite Hs in *. cbn [parse_value]. cbn [N_of_ascii].
  change (N_of_ascii "[") with 91%N. cbn iota.
  rewrite skip_ws_opens by done.
  unfold opens_value in Hc. apply andb_true_iff in Hc as [_ Hc].
  apply negb_true_iff in Hc. by rewrite Hc, Hparse.
Qed.

Lemma parse_value_dumps (v : pyval) : reads_back v.
Proof.
  induction v as [| b | z | s | l IH | l IH | items IH] using pyval_ind';
    intros fuel rest Hfuel Hrest.
  - destruct fuel; [simpl in Hfuel; lia | done].
  - destruct fuel; [destruct b; simpl in Hfuel; lia | by destruct b].
  - destruct fuel as [|fuel].
    { destruct (dumps_head (PInt z)) as (c & s & Hs & _).
      rewrite Hs in Hfuel. simpl in Hfuel. lia. }
    change (dumps (PInt z)) with (str_int z).
    change (json_image (PInt z)) with (PInt z). unfold str_int.
    destruct (Z.ltb_spec z 0) as [Hneg | Hpos].
    + rewrite string_app_cons. cbn [parse_value].
      change (N_of_ascii "-") with 45%N. cbn iota.
      rewrite scan_nat_digits by done. do 3 f_equal. lia.
    + destruct (digits_of_N_head (Z.to_N z)) as (c & s & Hs & Hc).
      pose proof (scan_nat_digits (Z.to_N z) rest Hrest) as Hscan.
      rewrite Hs in *. rewrite string_app_cons in *.
      rewrite parse_value_digit, Hscan by done. do 3 f_equal. lia.
  - destruct fuel; [simpl in Hfuel; lia|].
    change (dumps (PStr s)) with (quote s).
    change (json_image (PStr s)) with (PStr s).
    rewrite quote_app. cbn [parse_value].
    change (N_of_ascii dquote) with 34%N. cbn iota.
    by rewrite scan_string_escape.
  - change (dumps (PList l)) with ("[" +:+ join ", " (map dumps l) +:+ "]") in *.
    change (json_image (PList l)) with (PList (map json_image l)).
    rewrite dumps_list_app.
    apply parse_value_list; [done|].
    rewrite !string_app_length in Hfuel. cbn [String.length] in Hfuel. lia.
  - change (dumps (PTuple l)) with ("[" +:+ join ", " (map dumps l) +:+ "]") in *.
    change (json_image (PTuple l)) with (PList (map json_image l)).
    rewrite dumps_list_app.
    apply parse_value_list; [done|].
    rewrite !string_app_length in Hfuel. cbn [String.length] in Hfuel. lia.
  - change (dumps (PDict items))
      with ("{" +:+ join ", " (map dumps_item items) +:+ "}") in *.
    change (json_image (PDict items))
      with (PDict (dict_of_pairs (map (λ kv, (kv.1, json_image kv.2)) items))).
    rewrite !string_app_length in Hfuel. cbn [String.length] in Hfuel.
    rewrite !string_app_cons, !string_app_nil_l, string_app_assoc, string_app_cons,
      string_app_nil_l.
    destruct fuel as [|fuel]; [lia|].
    destruct items as [|kv items']; [done|].
    pose proof (parse_members_dumps (kv :: items') IH ltac:(done) fuel rest
                  ltac:(lia)) as Hparse.
    assert (∃ s, join ", " (map dumps_item (kv :: items')) +:+ String "}" rest
                 = String dquote s) as (s & Hs).
    { cbn [map]. destruct items'; cbn [map];
        [rewrite join_single | rewrite join_cons2, !string_app_assoc];
        rewrite dumps_item_app; eauto. }
    rewrite Hs in *. cbn [parse_value].
    change (N_of_ascii "{") with 123%N. cbn iota.
    rewrite skip_ws_opens by done.
    change (N_of_ascii dquote =? 125)%N with false. cbn iota.
    by rewrite Hparse.
Qed.

Theorem loads_dumps (v : pyval) : loads (dumps v) = Some (json_image v).
Proof.
  unfold loads.
  rewrite <- (string_app_nil_r (dumps v)) at 2.
  rewrite skip_ws_dumps, parse_value_dumps by (done || lia).
  done.
Qed.

(** *** Values that come back unchanged *)

Lemma dict_set_fresh (k : string) (v : pyval) (d : list (string * pyval)) :
  k ∉ map fst d → dict_set k v d = d ++ [(k, v)].
Proof.
  induction d as [|[k' v'] d IH]; intros Hk; [done|].
  cbn [dict_set]. cbn [map fst] in Hk.
  apply not_elem_of_cons in Hk as [Hne Hk].
  destruct (String.eqb_spec k k'); [done|]. by rewrite IH.
Qed.

Lemma dict_of_pairs_fresh (l acc : list (string * pyval)) :
  NoDup (map fst (acc ++ l)) →
  fold_left (λ d kv, dict_set kv.1 kv.2 d) l acc = acc ++ l.
Proof.
  revert acc. induction l as [|[k v] l IH]; intros acc Hnd.
  - by rewrite app_nil_r.
  - cbn [fold_left fst snd].
    rewrite dict_set_fresh.
    + rewrite IH; rewrite <- ?app_assoc; done.
    + rewrite map_app in Hnd. apply NoDup_app in Hnd as (_ & Hdisj & _).
      intros Hin. apply (Hdisj k Hin). cbn. left.
Qed.

Lemma dict_of_pairs_nodup_id (l : list (string * pyval)) :
  NoDup (map fst l) → dict_of_pairs l = l.
Proof. intros H. unfold dict_of_pairs. by rewrite dict_of_pairs_fresh. Qed.

Lemma json_image_native (v : pyval) : json_native v = true → json_image v = v.
Proof.
  induction v as [| b | z | s | l IH | l IH | items IH] using pyval_ind';
    try done; intros Hn.
  - change (json_image (PList l)) with (PList (map json_image l)). f_equal.
    change (json_native (PList l)) with (forallb json_native l) in Hn.
    induction IH as [|x l Hx Hl IHl]; [done|].
    cbn [forallb] in Hn. apply andb_true_iff in Hn as [Hx' Hl'].
    cbn [map]. by rewrite Hx, IHl.
  - change (json_image (PDict items))
      with (PDict (dict_of_pairs (map (λ kv, (kv.1, json_image kv.2)) items))).
    change (json_native (PDict items))
      with (bool_decide (NoDup (map fst items))
            && forallb (λ kv, json_native kv.2) items) in Hn.
    apply andb_true_iff in Hn as [Hnd Hn]. apply bool_decide_eq_true in Hnd.
    assert (Hmap : map (λ kv, (kv.1, json_image kv.2)) items = items).
    { clear Hnd. induction IH as [|[k x] l Hx Hl IHl]; [done|].
      cbn [forallb] in Hn. apply andb_true_iff in Hn as [Hx' Hl'].
      cbn [map fst snd] in *. by rewrite Hx, IHl. }
    by rewrite Hmap, dict_of_pairs_nodup_id.
Qed.

(** *** What the decoder returns *)

Lemma dict_set_keys (k : string) (v : pyval) (d : list (string * pyval)) :
  map fst (dict_set k v d)
  = if bool_decide (k ∈ map fst d) then map fst d else map fst d ++ [k].
Proof.
  induction d as [|[k' v'] d IH]; [done|].
  cbn [dict_set map fst]. destruct (String.eqb_spec k k') as [-> | Hne].
  - rewrite bool_decide_eq_true_2 by left. done.
  - cbn [map fst]. rewrite IH.
    destruct (decide (k ∈ map fst d)) as [Hin | Hin].
    + rewrite !bool_decide_eq_true_2; [done | by right | done].
    + rewrite !bool_decide_eq_false_2; [done | | done].
      by intros [? | ?]%elem_of_cons.
Qed.

Lemma dict_set_nodup (k : string) (v : pyval) (d : list (string * pyval)) :
  NoDup (map fst d) → NoDup (map fst (dict_set k v d)).
Proof.
  intros Hnd. rewrite dict_set_keys. case_bool_decide; [done|].
  apply NoDup_app. repeat split; [done | | apply NoDup_singleton].
  intros x Hx ->%list_elem_of_singleton. done.
Qed.

Lemma dict_set_native (k : string) (v : pyval) (d : list (string * pyval)) :
  json_native v = true →
  forallb (λ kv, json_native kv.2) d = true →
  forallb (λ kv, json_native kv.2) (dict_set k v d) = true.
Proof.
  intros Hv. induction d as [|[k' v'] d IH]; cbn [dict_set forallb snd].
  - by rewrite Hv.
  - intros [Hv' Hd]%andb_true_iff.
    destruct (String.eqb k k'); cbn [forallb snd].
    + by rewrite Hv, Hd.
    + by rewrite Hv', IH.
Qed.

Lemma dict_of_pairs_native (ps : list (string * pyval)) :
  forallb (λ kv, json_native kv.2) ps = true →
  json_native (PDict (dict_of_pairs ps)) = true.
Proof.
  intros Hps. unfold dict_of_pairs.
  assert (Hgen : ∀ acc,
    NoDup (map fst acc) → forallb (λ kv, json_native kv.2) acc = true →
    let d := fold_left (λ d kv, dict_set kv.1 kv.2 d) ps acc in
    NoDup (map fst d) ∧ forallb (λ kv, json_native kv.2) d = true).
  { induction ps as [|[k v] ps IH]; intros acc Hnd Hacc; [done|].
    cbn [forallb snd] in Hps. apply andb_true_iff in Hps as [Hv Hps].
    cbn [fold_left]. apply IH; [done | by apply dict_set_nodup |].
    by apply dict_set_native. }
  destruct (Hgen [] (NoDup_nil_2) eq_refl) as [Hnd Hn].
  change (json_native (PDict ?d))
    with (bool_decide (NoDup (map fst d)) && forallb (λ kv, json_native kv.2) d).
  by rewrite bool_decide_eq_true_2, Hn.
Qed.

(** The eight ways [scan_once] can go on the first character. *)
Lemma parse_value_cases (fuel : nat) (c : ascii) (s : string) :
  let s0 := String c s in
  let p := parse_value (S fuel) s0 in
  p = match scan_string s with
      | Some (str, r) => Some (PStr str, r)
      | None => None
      end
  ∨ p = match skip_ws s with
        | String c2 r =>
            if (N_of_ascii c2 =? 93)%N then Some (PList [], r)
            else match parse_elems fuel (String c2 r) with
                 | Some (vs, r') => Some (PList vs, r')
                 | None => None
                 end
        | EmptyString => None
        end
  ∨ p = match skip_ws s with
        | String c2 r =>
            if (N_of_ascii c2 =? 125)%N then Some (PDict [], r)
            else match parse_members fuel (String c2 r) with
                 | Some (ps, r') => Some (PDict (dict_of_pairs ps), r')
                 | None => None
                 end
        | EmptyString => None
        end
  ∨ p = scan_literal "null" PNone s0
  ∨ p = scan_literal "true" (PBool true) s0
  ∨ p = scan_literal "false" (PBool false) s0
  ∨ p = match scan_nat s with
        | Some (n, r) => Some (PInt (- Z.of_N n), r)
        | None => None
        end
  ∨ p = match scan_nat s0 with
        | Some (n, r) => Some (PInt (Z.of_N n), r)
        | None => None
        end.
Proof.
  destruct c as [[] [] [] [] [] [] [] []]; cbv zeta;
    first [ by left
          | by right; left
          | by right; right; left
          | by right; right; right; left
          | by right; right; right; right; left
          | by right; right; right; right; right; left
          | by right; right; right; right; right; right; left
          | by right; right; right; right; right; right; right ].
Qed.

Lemma parse_native (fuel : nat) :
  (∀ s v r, parse_value fuel s = Some (v, r) → json_native v = true)
  ∧ (∀ s vs r, parse_elems fuel s = Some (vs, r) →
       forallb json_native vs = true)
  ∧ (∀ s ps r, parse_members fuel s = Some (ps, r) →
       forallb (λ kv, json_native kv.2) ps = true).
Proof.
  induction fuel as [|fuel (IHv & IHe & IHm)]; [done|].
  repeat split.
  - intros [|c s] v r H; [done|].
    destruct (parse_value_cases fuel c s) as [E|[E|[E|[E|[E|[E|[E|E]]]]]]];
      cbv zeta in E; rewrite E in H; clear E.
    + by repeat (case_match; simplify_eq).
    + repeat (case_match; simplify_eq); [done|].
      change (json_native (PList ?l)) with (forallb json_native l). eauto.
    + repeat (case_match; simplify_eq); [done|].
      apply dict_of_pairs_native. eauto.
    + unfold scan_literal in H. by repeat (case_match; simplify_eq).
    + unfold scan_literal in H. by repeat (case_match; simplify_eq).
    + unfold scan_literal in H. by repeat (case_match; simplify_eq).
    + by repeat (case_match; simplify_eq).
    + by repeat (case_match; simplify_eq).
  - intros s vs r H. cbn [parse_elems] in H.
    repeat (case_match; simplify_eq); cbn [forallb].
    + erewrite IHv by done. done.
    + erewrite IHv, IHe by done. done.
  - intros s ps r H. cbn [parse_members] in H.
    repeat (case_match; simplify_eq); cbn [forallb snd].
    + erewrite IHv by done. done.
    + erewrite IHv, IHm by done. done.
Qed.

Lemma loads_native (s : string) (v : pyval) :
  loads s = Some v → json_native v = true.
Proof.
  unfold loads. intros H. repeat (case_match; simplify_eq).
  by eapply (parse_native _).
Qed.

(** A document of native values comes back as it was. *)
Theorem loads_dumps_native (v : pyval) :
  json_native v = true → loads (dumps v) = Some v.
Proof. intros H. by rewrite loads_dumps, json_image_native. Qed.

End json_facts.

(* ===================================================================== *)
(** * The job codec *)
(* ===================================================================== *)

Section codec_facts.

Lemma status_of_value_value (s : JobStatus) :
  status_of_value (status_value s) = Some s.
Proof. by destruct s. Qed.

Lemma serialize_lookup (job : ProjectJob) :
  _serialize_job job !! "job_id" = Some (job_id job)
  ∧ _serialize_job job !! "user_id" = Some (user_id job)
  ∧ _serialize_job job !! "tier" = Some (tier job)
  ∧ _serialize_job job !! "project_schema" = Some (dumps (project_schema job))
  ∧ _serialize_job job !! "status" = Some (status_value (status job))
  ∧ _serialize_job job !! "priority" = Some (str_int (priority job))
  ∧ _serialize_job job !! "created_at" = Some (isoformat (created_at job))
  ∧ _serialize_job job !! "started_at" = Some (iso_or_empty (started_at job))
  ∧ _serialize_job job !! "completed_at" = Some (iso_or_empty (completed_at job))
  ∧ _serialize_job job !! "error_message"
    = Some (str_optional id (error_message job))
  ∧ _serialize_job job !! "result_url" = Some (str_optional id (result_url job))
  ∧ _serialize_job job !! "worker_id" = Some (str_optional id (worker_id job)).
Proof. repeat split; reflexivity. Qed.

(** Only the fields of [job_fields] matter to the decoder. *)
Lemma deserialize_ext (m1 m2 : gmap string string) :
  Forall (λ k, m1 !! k = m2 !! k) job_fields →
  _deserialize_job m1 = _deserialize_job m2.
Proof.
  unfold job_fields. intros H.
  repeat (apply Forall_cons in H as [? H]).
  unfold _deserialize_job, getitem, optional_datetime.
  by repeat match goal with E : m1 !! _ = m2 !! _ |- _ => rewrite E; clear E end.
Qed.

Lemma serialize_is_Some (job : ProjectJob) :
  Forall (λ k, is_Some (_serialize_job job !! k)) job_fields.
Proof. unfold job_fields. repeat constructor; by eexists. Qed.

(** Writing a serialized job over an older hash reads as the job alone. *)
Lemma deserialize_union (job : ProjectJob) (h : gmap string string) :
  _deserialize_job (_serialize_job job ∪ h) = _deserialize_job (_serialize_job job).
Proof.
  apply deserialize_ext.
  eapply Forall_impl; [apply serialize_is_Some|].
  intros k [v Hv]. cbn beta. rewrite Hv. by apply lookup_union_Some_l.
Qed.

Lemma optional_datetime_iso (m : gmap string string) (k : string)
    (o : option datetime) :
  m !! k = Some (iso_or_empty o) → valid_optional o = true →
  optional_datetime m k = Ok o.
Proof.
  intros Hk Hv. unfold optional_datetime. rewrite Hk.
  destruct o as [d|]; [|done]. cbn [iso_or_empty valid_optional] in *.
  by rewrite isoformat_truthy, fromisoformat_isoformat.
Qed.

Theorem deserialize_serialize (job : ProjectJob) :
  valid (created_at job) = true →
  valid_optional (started_at job) = true →
  valid_optional (completed_at job) = true →
  _deserialize_job (_serialize_job job) = Ok (job_image job).
Proof.
  intros Hc Hs He.
  destruct (serialize_lookup job)
    as (E1 & E2 & E3 & E4 & E5 & E6 & E7 & E8 & E9 & E10 & E11 & E12).
  unfold _deserialize_job, getitem.
  rewrite E1, E2, E3, E4, E5, E6, E7, E10, E11, E12.
  rewrite (optional_datetime_iso _ _ _ E8 Hs), (optional_datetime_iso _ _ _ E9 He).
  cbn [or_raise mbind result_bind].
  rewrite loads_dumps, status_of_value_value, int_of_str_int,
    fromisoformat_isoformat by done.
  done.
Qed.

Lemma result_bind_ok {A B} (m : result A) (f : A → result B) (b : B) :
  m ≫= f = Ok b → ∃ a, m = Ok a ∧ f a = Ok b.
Proof. destruct m; [eauto | done]. Qed.

Lemma or_raise_ok {A} (e : exn) (o : option A) (a : A) :
  or_raise e o = Ok a → o = Some a.
Proof. destruct o; naive_solver. Qed.

Lemma optional_datetime_valid (m : gmap string string) (k : string)
    (o : option datetime) :
  optional_datetime m k = Ok o → valid_optional o = true.
Proof.
  unfold optional_datetime. intros H.
  destruct (m !! k) as [s|]; [|by simplify_eq].
  destruct (truthy s); [|by simplify_eq].
  destruct (fromisoformat s) as [d|] eqn:E; [|done].
  cbn in H. simplify_eq. by eapply fromisoformat_valid.
Qed.

(** What the decoder returns is a [decoded_job]. *)
Lemma deserialize_decoded (m : gmap string string) (job : ProjectJob) :
  _deserialize_job m = Ok job → decoded_job job.
Proof.
  unfold _deserialize_job. intros H.
  repeat (let a := fresh "a" in let E := fresh "E" in
          apply result_bind_ok in H as (a & E & H)).
  simplify_eq. unfold decoded_job. cbn.
  repeat match goal with
         | E : or_raise _ _ = Ok _ |- _ => apply or_raise_ok in E
         end.
  repeat split; eauto using loads_native, fromisoformat_valid,
    optional_datetime_valid.
Qed.

Lemma job_image_decoded (job : ProjectJob) :
  decoded_job job →
  job_image job
  = {| job_id := job_id job; user_id := user_id job; tier := tier job;
       project_schema := project_schema job;
       status := status job; priority := priority job;
       created_at := created_at job; started_at := started_at job;
       completed_at := completed_at job;
       error_message := Some (str_optional id (error_message job));
       result_url := Some (str_optional id (result_url job));
       queue_position := None; estimated_start := None;
       worker_id := Some (str_optional id (worker_id job)) |}.
Proof.
  intros (Hn & _). unfold job_image. by rewrite json_image_native.
Qed.

(** Serializing once more changes nothing: the text [None] stands for itself. *)
Lemma serialize_image (job : ProjectJob) :
  decoded_job job → _serialize_job (job_image job) = _serialize_job job.
Proof.
  intros Hd. rewrite job_image_decoded by done.
  destruct Hd as (_ & _ & _ & _ & Hq & He).
  unfold _serialize_job. cbn. rewrite Hq, He.
  by destruct (error_message job), (result_url job), (worker_id job).
Qed.

End codec_facts.

(* ===================================================================== *)
(** * The store *)
(* ===================================================================== *)

Section key_facts.

Lemma job_key_inj (a b : string) : job_key a = job_key b → a = b.
Proof. unfold job_key. apply String.app_inj. Qed.

Lemma strip_job_key (jid : string) : strip_prefix "job:" (job_key jid) = Some jid.
Proof. reflexivity. Qed.

Lemma job_key_queue (jid : string) :
  job_key jid ≠ QUEUE_PENDING ∧ job_key jid ≠ QUEUE_PROCESSING
  ∧ job_key jid ≠ QUEUE_COMPLETED ∧ job_key jid ≠ QUEUE_FAILED.
Proof. repeat split; discriminate. Qed.

Lemma timeout_key_queue (jid : string) :
  timeout_key jid ≠ QUEUE_PENDING ∧ timeout_key jid ≠ QUEUE_PROCESSING
  ∧ timeout_key jid ≠ QUEUE_COMPLETED ∧ timeout_key jid ≠ QUEUE_FAILED.
Proof. repeat split; discriminate. Qed.

Lemma month_key_queue (uid : string) (now : datetime) :
  month_key uid now ≠ QUEUE_PENDING ∧ month_key uid now ≠ QUEUE_PROCESSING
  ∧ month_key uid now ≠ QUEUE_COMPLETED ∧ month_key uid now ≠ QUEUE_FAILED.
Proof. repeat split; discriminate. Qed.

Lemma month_key_job (uid jid : string) (now : datetime) :
  month_key uid now ≠ job_key jid.
Proof. discriminate. Qed.

Lemma queue_keys_distinct :
  QUEUE_PENDING ≠ QUEUE_PROCESSING ∧ QUEUE_PENDING ≠ QUEUE_COMPLETED
  ∧ QUEUE_PENDING ≠ QUEUE_FAILED ∧ QUEUE_PROCESSING ≠ QUEUE_COMPLETED
  ∧ QUEUE_PROCESSING ≠ QUEUE_FAILED ∧ QUEUE_COMPLETED ≠ QUEUE_FAILED.
Proof. repeat split; discriminate. Qed.

End key_facts.

(** Decides that two keys of the queue manager differ. *)
Ltac key_ne :=
  first
    [ discriminate
    | apply not_eq_sym; discriminate
    | assumption
    | apply not_eq_sym; assumption
    | intros ?%job_key_inj; congruence ].

Section sorted_set_facts.

Lemma zlt_le (a b : string * Q) : zlt a b = true → (a.2 <= b.2)%Q.
Proof.
  unfold zlt. destruct (a.2 ?= b.2)%Q eqn:E; [| |done]; intros _.
  - apply Qeq_alt in E. rewrite E. apply Qle_refl.
  - apply Qlt_alt in E. by apply Qlt_le_weak.
Qed.

Lemma zlt_ge (a b : string * Q) : zlt a b = false → (b.2 <= a.2)%Q.
Proof.
  unfold zlt. destruct (a.2 ?= b.2)%Q eqn:E; [|done|]; intros _.
  - apply Qeq_alt in E. rewrite E. apply Qle_refl.
  - apply Qgt_alt in E. by apply Qlt_le_weak.
Qed.

Lemma first_of_list (l : list (string * Q)) (x : string * Q) :
  foldr (λ x acc, match acc with
                  | None => Some x
                  | Some y => if zlt x y then Some x else Some y
                  end) None l = Some x →
  x ∈ l ∧ ∀ y, y ∈ l → (x.2 <= y.2)%Q.
Proof.
  revert x. induction l as [|a l IH]; intros x; [done|].
  cbn [foldr]. destruct (foldr _ None l) as [y|] eqn:E.
  - destruct (IH y eq_refl) as [Hy Hmin].
    destruct (zlt a y) eqn:Hlt; intros [= <-].
    + split; [left|]. intros z [-> | Hz]%elem_of_cons; [apply Qle_refl|].
      eapply Qle_trans; [by apply zlt_le | by apply Hmin].
    + split; [by right|]. intros z [-> | Hz]%elem_of_cons; [|by apply Hmin].
      by apply zlt_ge.
  - intros [= <-]. destruct l as [|b l]; [|cbn [foldr] in E; by repeat case_match].
    split; [left|]. intros z ->%list_elem_of_singleton. apply Qle_refl.
Qed.

(** The head of a sorted set is a member, and no member scores lower. *)
Lemma zfirst_lowest (z : gmap string Q) (m : string) (sc : Q) :
  zfirst z = Some (m, sc) →
  z !! m = Some sc ∧ ∀ m' sc', z !! m' = Some sc' → (sc <= sc')%Q.
Proof.
  unfold zfirst. intros [Hin Hmin]%first_of_list. split.
  - by apply elem_of_map_to_list in Hin.
  - intros m' sc' H'. by apply (Hmin (m', sc')), elem_of_map_to_list.
Qed.

Lemma zfirst_none (z : gmap string Q) : zfirst z = None → z = ∅.
Proof.
  unfold zfirst. intros H. apply map_to_list_empty_iff.
  destruct (map_to_list z) as [|a l]; [done|].
  cbn [foldr] in H. by repeat case_match.
Qed.

End sorted_set_facts.

Section command_facts.

Lemma redis_bind_run {A B} (m : Redis A) (f : A → Redis B) (r : redis) :
  (m ≫= f) r = match m r with
               | (r1, Ok a) => f a r1
               | (r1, Raise e) => (r1, Raise e)
               end.
Proof. reflexivity. Qed.

Lemma redis_bind_ok {A B} (m : Redis A) (f : A → Redis B) (r r' : redis) (b : B) :
  (m ≫= f) r = (r', Ok b) → ∃ a r1, m r = (r1, Ok a) ∧ f a r1 = (r', Ok b).
Proof. rewrite redis_bind_run. destruct (m r) as [r1 [a|e]]; [eauto | done]. Qed.

Lemma lift_ok {A} (x : result A) (r r' : redis) (a : A) :
  lift x r = (r', Ok a) → r' = r ∧ x = Ok a.
Proof. unfold lift. by intros [= -> ->]. Qed.

Lemma mret_ok {A} (x a : A) (r r' : redis) :
  mret (M := Redis) x r = (r', Ok a) → r' = r ∧ a = x.
Proof. by intros [= -> ->]. Qed.

Lemma llen_ok (key : string) (r r' : redis) (n : Z) :
  llen key r = (r', Ok n) →
  r' = r ∧ n = Z.of_nat (length (list_of key r)) ∧ list_key key r = true.
Proof.
  unfold llen, list_of, list_key.
  destruct (db r !! key) as [[]|]; by intros [= <- <-].
Qed.

Lemma zrange_first_ok (key : string) (r r' : redis) (jobs : list (string * Q)) :
  zrange_first key r = (r', Ok jobs) →
  r' = r ∧ zset_key key r = true
  ∧ jobs = match zfirst (zset_of key r) with Some x => [x] | None => [] end.
Proof.
  unfold zrange_first, zset_of, zset_key.
  destruct (db r !! key) as [[]|]; by intros [= <- <-].
Qed.

Lemma zcard_ok (key : string) (r r' : redis) (n : Z) :
  zcard key r = (r', Ok n) →
  r' = r ∧ n = Z.of_nat (size (zset_of key r)) ∧ zset_key key r = true.
Proof.
  unfold zcard, zset_of, zset_key.
  destruct (db r !! key) as [[]|]; by intros [= <- <-].
Qed.

Lemma zrank_ok (key member : string) (r r' : redis) (n : option Z) :
  zrank key member r = (r', Ok n) → r' = r.
Proof.
  unfold zrank. destruct (db r !! key) as [[]|]; by intros [= <- <-].
Qed.

Lemma hgetall_ok (key : string) (r r' : redis) (h : gmap string string) :
  hgetall key r = (r', Ok h) →
  r' = r ∧ h = hash_of key r ∧ hash_key key r = true.
Proof.
  unfold hgetall, hash_of, hash_key.
  destruct (db r !! key) as [[]|]; by intros [= <- <-].
Qed.

Lemma get_ok (key : string) (r r' : redis) (v : option string) :
  get key r = (r', Ok v) → r' = r.
Proof. unfold get. destruct (db r !! key) as [[]|]; by intros [= <- <-]. Qed.

Lemma zadd_ok (key member : string) (score : Q) (r r' : redis) (n : Z) :
  zadd key member score r = (r', Ok n) →
  zset_key key r = true
  ∧ r' = store_key (ZADD key member score) key
           (RZSet (<[member := score]> (zset_of key r))) r.
Proof.
  unfold zadd, zset_of, zset_key.
  destruct (db r !! key) as [[]|]; intros [= <- <-]; try done.
Qed.

Lemma zrem_ok (key member : string) (r r' : redis) (n : Z) :
  zrem key member r = (r', Ok n) →
  zset_key key r = true
  ∧ zset_of key r' = delete member (zset_of key r)
  ∧ (∀ k, k ≠ key → db r' !! k = db r !! k)
  ∧ writes r' = writes r ++ [ZREM key member].
Proof.
  unfold zrem, zset_of, zset_key.
  destruct (db r !! key) as [[]|] eqn:E; try done.
  - case_decide as Hz; intros [= <- <-]; cbn.
    + rewrite lookup_delete_eq, Hz. split_and!; try done.
      intros k Hk. by rewrite lookup_delete_ne.
    + rewrite lookup_insert_eq. split_and!; try done.
      intros k Hk. by rewrite lookup_insert_ne.
  - intros [= <- <-]. cbn. rewrite E. by rewrite delete_empty.
Qed.

Lemma lpush_ok (key value : string) (r r' : redis) (n : Z) :
  lpush key value r = (r', Ok n) →
  list_key key r = true
  ∧ r' = store_key (LPUSH key value) key (RList (value :: list_of key r)) r.
Proof.
  unfold lpush, list_of, list_key.
  destruct (db r !! key) as [[]|]; intros [= <- <-]; try done.
Qed.

Lemma lrem_all_ok (key value : string) (r r' : redis) (n : Z) :
  lrem_all key value r = (r', Ok n) →
  list_key key r = true
  ∧ list_key key r' = true
  ∧ list_of key r' = filter (λ x, x ≠ value) (list_of key r)
  ∧ (∀ k, k ≠ key → db r' !! k = db r !! k)
  ∧ writes r' = writes r ++ [LREM key value].
Proof.
  unfold lrem_all, list_of, list_key.
  destruct (db r !! key) as [[]|] eqn:E; try done.
  - destruct (filter _ l) eqn:F; intros [= <- <-]; cbn.
    + rewrite lookup_delete_eq. split_and!; try done.
      intros k Hk. by rewrite lookup_delete_ne.
    + rewrite lookup_insert_eq. split_and!; try done.
      intros k Hk. by rewrite lookup_insert_ne.
  - intros [= <- <-]. cbn. by rewrite E.
Qed.

Lemma hset_ok (key : string) (m : gmap string string) (r r' : redis) (n : Z) :
  hset key m r = (r', Ok n) →
  hash_key key r = true
  ∧ r' = store_key (HSET key m) key (RHash (m ∪ hash_of key r)) r.
Proof.
  unfold hset, hash_of, hash_key.
  destruct (db r !! key) as [[]|]; intros [= <- <-]; try done.
  by rewrite (right_id_L ∅ (∪)).
Qed.

Lemma incr_ok (key : string) (r r' : redis) (n : Z) :
  incr key r = (r', Ok n) →
  r' = store_key (INCR key) key (RString (str_int n)) r.
Proof.
  unfold incr. destruct (db r !! key) as [[]|]; try done.
  - repeat case_match; by intros [= <- <-].
  - by intros [= <- <-].
Qed.

Lemma expire_ok (key : string) (seconds : Z) (r r' : redis) (b : bool) :
  expire key seconds r = (r', Ok b) →
  db r' = db r ∧ writes r' = writes r ++ [EXPIRE key seconds].
Proof. unfold expire. destruct (db r !! key); by intros [= <- <-]. Qed.

(** Reading a store after a write. *)
Lemma db_store_key (c : command) (key : string) (v : rval) (r : redis) :
  db (store_key c key v r) = <[key := v]> (db r).
Proof. reflexivity. Qed.

Lemma writes_store_key (c : command) (key : string) (v : rval) (r : redis) :
  writes (store_key c key v r) = writes r ++ [c].
Proof. reflexivity. Qed.

End command_facts.

(* ===================================================================== *)
(** * Claiming the next job *)
(* ===================================================================== *)

(** Inverts one step of a computation that returned. *)
Ltac bind_ok H a r1 E :=
  apply redis_bind_ok in H as (a & r1 & E & H).

(** Reads a key of a store built by writes to other keys. *)
Ltac read_store :=
  unfold pending_of, zset_of, list_of, hash_of, zset_key, list_key, hash_key;
  cbn [db store_key drop_key served];
  repeat first
    [ rewrite lookup_insert_eq
    | rewrite lookup_insert_ne by key_ne
    | rewrite lookup_delete_ne by key_ne ].

Section claim_facts.

Lemma hashes_keyed_lookup (r : redis) (jid : string) (h : gmap string string)
    (v : string) :
  hashes_keyed r = true →
  db r !! job_key jid = Some (RHash h) → h !! "job_id" = Some v → v = jid.
Proof.
  unfold hashes_keyed. intros Hall%bool_decide_eq_true Hk Hv.
  specialize (Hall _ _ Hk). unfold hash_keyed in Hall.
  rewrite strip_job_key, Hv in Hall. by apply String.eqb_eq in Hall.
Qed.

Lemma deserialize_job_id (h : gmap string string) (job : ProjectJob) :
  _deserialize_job h = Ok job → h !! "job_id" = Some (job_id job).
Proof.
  unfold _deserialize_job. intros H.
  apply result_bind_ok in H as (jid & E & H). apply or_raise_ok in E.
  repeat (let a := fresh "a" in let E := fresh "E" in
          apply result_bind_ok in H as (a & E & H)).
  by simplify_eq.
Qed.

(** What a call of [get_next_job] that returns a job has done. *)
Lemma get_next_job_some (now : datetime) (wid : string) (r r' : redis)
    (job : ProjectJob) :
  get_next_job now wid r = (r', Ok (Some job)) →
  ∃ jid score job0,
    zfirst (pending_of r) = Some (jid, score)
    ∧ _deserialize_job (hash_of (job_key jid) r) = Ok job0
    ∧ job = with_claim now wid job0
    ∧ pending_of r' = delete jid (pending_of r)
    ∧ list_of QUEUE_PROCESSING r' = jid :: list_of QUEUE_PROCESSING r
    ∧ hash_of (job_key jid) r' = _serialize_job job ∪ hash_of (job_key jid) r
    ∧ Z.of_nat (length (list_of QUEUE_PROCESSING r)) < MAX_CONCURRENT_JOBS.
Proof.
  unfold get_next_job. intros H.
  bind_ok H n r1 E. apply llen_ok in E as (-> & -> & Hl).
  destruct (_ >=? _) eqn:Hcap; [by apply mret_ok in H as [? ?]|].
  bind_ok H jobs r1 E. apply zrange_first_ok in E as (-> & Hz & ->).
  fold (pending_of r) in *.
  destruct (zfirst (pending_of r)) as [[jid score]|] eqn:Hfirst;
    [|by apply mret_ok in H as [? ?]].
  bind_ok H n1 r1 E. apply zrem_ok in E as (_ & Hpend & Hframe & _).
  bind_ok H n2 r2 E. apply lpush_ok in E as (_ & ->).
  bind_ok H h r3 E. apply hgetall_ok in E as (-> & -> & _).
  bind_ok H job0 r3 E. apply lift_ok in E as (-> & Hjob).
  bind_ok H n3 r3 E. apply hset_ok in E as (_ & ->).
  bind_ok H b r4 E. unfold setex in E. injection E as <- <-.
  apply mret_ok in H as [-> [= ->]].
  assert (Hhash : hash_of (job_key jid)
                    (store_key (LPUSH QUEUE_PROCESSING jid) QUEUE_PROCESSING
                       (RList (jid :: list_of QUEUE_PROCESSING r1)) r1)
                  = hash_of (job_key jid) r).
  { read_store. by rewrite Hframe by key_ne. }
  rewrite Hhash in *.
  exists jid, score, job0. split_and!; try done.
  - unfold pending_of. rewrite <- Hpend. read_store. done.
  - read_store. f_equal. unfold list_of. by rewrite Hframe by key_ne.
  - read_store.
    destruct (decide (timeout_key jid = job_key jid)) as [Heq | Hne].
    + exfalso. unfold timeout_key, job_key in Heq.
      apply String.app_inj in Heq.
      apply (f_equal String.length) in Heq.
      rewrite string_app_length in Heq. cbn in Heq. lia.
    + rewrite lookup_insert_ne by done. by rewrite lookup_insert_eq.
  - lia.
Qed.


(** C7. With [MAX_CONCURRENT_JOBS] or more jobs in flight, [get_next_job]
    returns [None] and leaves the store as it was, whatever is pending. *)
Theorem get_next_job_at_capacity (now : datetime) (wid : string) (r : redis) :
  MAX_CONCURRENT_JOBS ≤ Z.of_nat (length (list_of QUEUE_PROCESSING r)) →
  get_next_job now wid r = (r, Ok None).
Proof.
  intros Hcap. unfold get_next_job. rewrite redis_bind_run.
  unfold llen, list_of in *.
  destruct (db r !! QUEUE_PROCESSING) as [[s|l|z|h]|];
    try (cbn in Hcap; unfold MAX_CONCURRENT_JOBS in Hcap; lia).
  destruct (Z.geb_spec (Z.of_nat (length l)) MAX_CONCURRENT_JOBS); [done | lia].
Qed.

End claim_facts.

(* ===================================================================== *)
(** * Submitting a job *)
(* ===================================================================== *)

Section submit_facts.

(** The admission check only reads. *)
Lemma check_user_limit_run (now : datetime) (uid tr : string) (r : redis) :
  _check_user_limit now uid tr r
  = (r, match TierLimits.getitem (upper tr) with
        | Ok lim =>
            if monthly_limit lim =? -1 then Ok true
            else match monthly_count uid now r with
                 | Ok count => Ok (count <? monthly_limit lim)
                 | Raise e => Raise e
                 end
        | Raise e => Raise e
        end).
Proof.
  unfold _check_user_limit, monthly_count. rewrite redis_bind_run. unfold lift.
  destruct (TierLimits.getitem (upper tr)) as [lim|e]; [|done].
  destruct (monthly_limit lim =? -1); [done|].
  rewrite redis_bind_run. unfold get.
  destruct (db r !! month_key uid now) as [[]|]; try done;
    rewrite redis_bind_run; unfold lift; by destruct (int_or_zero _).
Qed.

(** What a call of [submit_job] that returns has found and done: the
    pending key held nothing, and the four writes went out in this order. *)
Lemma submit_job_ok (clk : submit_clock) (job : ProjectJob) (r r' : redis)
    (rc : receipt) :
  submit_job clk job r = (r', Ok rc) →
  let score := job_score (priority job) (score_time clk) in
  let mkey := month_key (user_id job) (counter_now clk) in
  db r !! QUEUE_PENDING = None
  ∧ _check_user_limit (quota_now clk) (user_id job) (tier job) r = (r, Ok true)
  ∧ pending_of r' = {[job_id job := score]}
  ∧ hash_of (job_key (job_id job)) r'
    = _serialize_job job ∪ hash_of (job_key (job_id job)) r
  ∧ writes r' = writes r ++ [ ZADD QUEUE_PENDING (job_id job) score;
                              HSET (job_key (job_id job)) (_serialize_job job);
                              INCR mkey; EXPIRE mkey 2592000 ].
Proof.
  unfold submit_job. intros H.
  bind_ok H n r1 E. apply llen_ok in E as (-> & -> & Hl).
  destruct (_ >=? _) eqn:Hfull; [done|].
  bind_ok H within r1 E.
  pose proof E as Hcheck. rewrite check_user_limit_run in E.
  injection E as <- Hres. rewrite check_user_limit_run.
  destruct within; [|done]. cbn [negb] in H.
  bind_ok H n1 r1 E. apply zadd_ok in E as (Hz & ->).
  assert (Hnone : db r !! QUEUE_PENDING = None).
  { unfold list_key, zset_key in *. by destruct (db r !! QUEUE_PENDING) as [[]|]. }
  bind_ok H n2 r2 E. apply hset_ok in E as (_ & ->).
  bind_ok H n3 r3 E. apply incr_ok in E as ->.
  bind_ok H b r4 E. apply expire_ok in E as (Hdb & Hw).
  bind_ok H pos r5 E. unfold _get_queue_position in E.
  bind_ok E rank r6 E'. apply zrank_ok in E' as ->. apply mret_ok in E as [-> _].
  apply mret_ok in H as [-> _].
  cbv zeta. split_and!; try done.
  - by rewrite Hres.
  - unfold pending_of, zset_of. rewrite Hdb. read_store. by rewrite Hnone.
  - unfold hash_of. rewrite Hdb. by read_store.
  - rewrite Hw. cbn [writes store_key]. by rewrite <- !app_assoc.
Qed.

(** C8, as the code has it. A [submit_job] call that returns has made its
    writes in this order: the [zadd] into the pending sorted set first, the
    job hash second, and the increment of the monthly counter with its thirty
    days to live last. *)
Theorem submit_job_write_order (clk : submit_clock) (job : ProjectJob)
    (r r' : redis) (rc : receipt) :
  submit_job clk job r = (r', Ok rc) →
  writes r'
  = writes r ++ [ ZADD QUEUE_PENDING (job_id job)
                       (job_score (priority job) (score_time clk));
                  HSET (job_key (job_id job)) (_serialize_job job);
                  INCR (month_key (user_id job) (counter_now clk));
                  EXPIRE (month_key (user_id job) (counter_now clk)) 2592000 ].
Proof. intros H. by apply submit_job_ok in H as (_ & _ & _ & _ & Hw). Qed.





(** With a sorted set under the pending key, the size check of
    [submit_job] raises: [llen] is a list command. *)
Lemma submit_job_pending_zset (clk : submit_clock) (job : ProjectJob)
    (r : redis) (z : gmap string Q) :
  db r !! QUEUE_PENDING = Some (RZSet z) →
  submit_job clk job r = (r, Raise WrongType).
Proof.
  intros Hz. unfold submit_job. rewrite redis_bind_run. unfold llen.
  by rewrite Hz.
Qed.


(** *** Exceptions *)










End submit_facts.

(* ===================================================================== *)
(** * Completing and failing a job *)
(* ===================================================================== *)

Section finish_facts.

Lemma insert_serialize_union (m h : gmap string string) (k v : string) :
  <[k := v]> m ∪ (m ∪ h) = <[k := v]> (m ∪ h).
Proof.
  rewrite <- insert_union_l. f_equal.
  by rewrite (assoc_L (∪)), (idemp_L (∪)).
Qed.

(** What a call of [complete_job] that returns has found and done. *)
Lemma complete_job_ok (now : datetime) (jid url : string) (r r' : redis) :
  complete_job now jid url r = (r', Ok tt) →
  ∃ h job0,
    db r !! job_key jid = Some (RHash h)
    ∧ _deserialize_job h = Ok job0
    ∧ list_key QUEUE_PROCESSING r = true
    ∧ list_key QUEUE_COMPLETED r = true
    ∧ list_of QUEUE_PROCESSING r'
      = filter (λ x, x ≠ jid) (list_of QUEUE_PROCESSING r)
    ∧ list_of QUEUE_COMPLETED r' = jid :: list_of QUEUE_COMPLETED r
    ∧ db r' !! job_key jid
      = Some (RHash (_serialize_job (with_completion now url job0) ∪ h))
    ∧ db r' !! QUEUE_PENDING = db r !! QUEUE_PENDING
    ∧ db r' !! QUEUE_FAILED = db r !! QUEUE_FAILED
    ∧ list_key QUEUE_PROCESSING r' = true
    ∧ list_key QUEUE_COMPLETED r' = true.
Proof.
  unfold complete_job. intros H.
  bind_ok H n r1 E. apply lrem_all_ok in E as (Hl & Hl1 & Hproc & Hframe & _).
  bind_ok H h r2 E. apply hgetall_ok in E as (-> & -> & Hh).
  bind_ok H job0 r2 E. apply lift_ok in E as (-> & Hjob).
  bind_ok H n2 r2 E. apply hset_ok in E as (_ & ->).
  bind_ok H n3 r3 E. apply lpush_ok in E as (Hc & ->).
  bind_ok H b r4 E. apply expire_ok in E as (Hdb & _).
  apply mret_ok in H as [-> _].
  assert (Hkey : db r1 !! job_key jid = db r !! job_key jid).
  { apply Hframe. key_ne. }
  assert (∃ h, db r !! job_key jid = Some (RHash h)) as [h Hr].
  { unfold hash_of in Hjob. rewrite Hkey in Hjob.
    destruct (db r !! job_key jid) as [[]|]; eauto; done. }
  exists h, job0. unfold hash_of in Hjob. rewrite Hkey, Hr in Hjob.
  unfold list_of, list_key in *. rewrite Hdb.
  revert Hc. read_store. rewrite !Hframe by key_ne. rewrite Hkey, Hr.
  intros Hc. split_and!; try done; apply Hframe; key_ne.
Qed.

(** [complete_job] returns on a store whose queue keys hold lists and whose
    job hash can be decoded. *)
Lemma complete_job_run (now : datetime) (jid url : string) (r : redis)
    (h : gmap string string) (job0 : ProjectJob) :
  list_key QUEUE_PROCESSING r = true →
  list_key QUEUE_COMPLETED r = true →
  db r !! job_key jid = Some (RHash h) →
  _deserialize_job h = Ok job0 →
  ∃ r', complete_job now jid url r = (r', Ok tt).
Proof.
  intros Hp Hc Hh Hjob. unfold complete_job.
  rewrite redis_bind_run.
  assert (∃ r1 n, lrem_all QUEUE_PROCESSING jid r = (r1, Ok n)
                  ∧ db r1 !! job_key jid = db r !! job_key jid
                  ∧ db r1 !! QUEUE_COMPLETED = db r !! QUEUE_COMPLETED)
    as (r1 & n & -> & Hk1 & Hc1).
  { unfold lrem_all, list_key in *.
    destruct (db r !! QUEUE_PROCESSING) as [[]|]; try done;
      [destruct (filter _ l)|]; eexists _, _; split_and!; try reflexivity;
      cbn [db drop_key store_key served];
      by rewrite ?lookup_delete_ne, ?lookup_insert_ne by key_ne. }
  rewrite redis_bind_run. unfold hgetall. rewrite Hk1, Hh.
  rewrite redis_bind_run. unfold lift. rewrite Hjob.
  rewrite redis_bind_run. unfold hset. rewrite Hk1, Hh.
  rewrite redis_bind_run. unfold lpush. cbn [db store_key].
  rewrite lookup_insert_ne by key_ne. rewrite Hc1.
  unfold list_key in Hc.
  destruct (db r !! QUEUE_COMPLETED) as [[]|]; try done.
  all: rewrite redis_bind_run; unfold expire; cbn [db store_key].
  all: rewrite lookup_insert_ne by key_ne; rewrite lookup_insert_eq.
  all: by eexists.
Qed.

(** What a call of [fail_job] that returns has found and done. *)
Lemma fail_job_ok (now : datetime) (jid error : string) (r r' : redis) :
  fail_job now jid error r = (r', Ok tt) →
  ∃ h job0,
    db r !! job_key jid = Some (RHash h)
    ∧ _deserialize_job h = Ok job0
    ∧ list_of QUEUE_PROCESSING r'
      = filter (λ x, x ≠ jid) (list_of QUEUE_PROCESSING r)
    ∧ list_of QUEUE_FAILED r' = jid :: list_of QUEUE_FAILED r
    ∧ db r' !! job_key jid
      = Some (RHash (_serialize_job (with_failure now error job0) ∪ h))
    ∧ db r' !! QUEUE_PENDING = db r !! QUEUE_PENDING
    ∧ db r' !! QUEUE_COMPLETED = db r !! QUEUE_COMPLETED.
Proof.
  unfold fail_job. intros H.
  bind_ok H n r1 E. apply lrem_all_ok in E as (Hl & Hl1 & Hproc & Hframe & _).
  bind_ok H h r2 E. apply hgetall_ok in E as (-> & -> & Hh).
  bind_ok H job0 r2 E. apply lift_ok in E as (-> & Hjob).
  bind_ok H n2 r2 E. apply hset_ok in E as (_ & ->).
  bind_ok H n3 r3 E. apply lpush_ok in E as (Hc & ->).
  apply mret_ok in H as [-> _].
  assert (Hkey : db r1 !! job_key jid = db r !! job_key jid).
  { apply Hframe. key_ne. }
  assert (∃ h, db r !! job_key jid = Some (RHash h)) as [h Hr].
  { unfold hash_of in Hjob. rewrite Hkey in Hjob.
    destruct (db r !! job_key jid) as [[]|]; eauto; done. }
  exists h, job0. unfold hash_of in Hjob. rewrite Hkey, Hr in Hjob.
  unfold list_of, list_key in *.
  revert Hc. read_store. rewrite !Hframe by key_ne. rewrite Hkey, Hr.
  intros Hc. split_and!; try done; apply Hframe; key_ne.
Qed.

Lemma fail_job_run (now : datetime) (jid error : string) (r : redis)
    (h : gmap string string) (job0 : ProjectJob) :
  list_key QUEUE_PROCESSING r = true →
  list_key QUEUE_FAILED r = true →
  db r !! job_key jid = Some (RHash h) →
  _deserialize_job h = Ok job0 →
  ∃ r', fail_job now jid error r = (r', Ok tt).
Proof.
  intros Hp Hc Hh Hjob. unfold fail_job.
  rewrite redis_bind_run.
  assert (∃ r1 n, lrem_all QUEUE_PROCESSING jid r = (r1, Ok n)
                  ∧ db r1 !! job_key jid = db r !! job_key jid
                  ∧ db r1 !! QUEUE_FAILED = db r !! QUEUE_FAILED)
    as (r1 & n & -> & Hk1 & Hc1).
  { unfold lrem_all, list_key in *.
    destruct (db r !! QUEUE_PROCESSING) as [[]|]; try done;
      [destruct (filter _ l)|]; eexists _, _; split_and!; try reflexivity;
      cbn [db drop_key store_key served];
      by rewrite ?lookup_delete_ne, ?lookup_insert_ne by key_ne. }
  rewrite redis_bind_run. unfold hgetall. rewrite Hk1, Hh.
  rewrite redis_bind_run. unfold lift. rewrite Hjob.
  rewrite redis_bind_run. unfold hset. rewrite Hk1, Hh.
  rewrite redis_bind_run. unfold lpush. cbn [db store_key].
  rewrite lookup_insert_ne by key_ne. rewrite Hc1.
  unfold list_key in Hc.
  destruct (db r !! QUEUE_FAILED) as [[]|]; try done; by eexists.
Qed.

Lemma serialize_completion_again (now1 now2 : datetime) (url1 url2 : string)
    (job0 : ProjectJob) :
  decoded_job job0 →
  _serialize_job (with_completion now2 url2
                    (job_image (with_completion now1 url1 job0)))
  = <["completed_at" := isoformat now2]>
      (<["result_url" := url2]>
         (_serialize_job (with_completion now1 url1 job0))).
Proof.
  intros (Hn & _ & _ & _ & Hq & He). destruct job0. cbn in *. subst.
  unfold job_image, with_completion, _serialize_job. cbn.
  rewrite json_image_native by done. reflexivity.
Qed.

(** C3, as the code has it. A second [complete_job] on a completed job
    returns as the first did, and leaves the in-flight list and the pending
    set as they were; but it is no no-op: it pushes the job id onto the
    completed list once more, and writes the completion time and the result
    of the second call over those of the first. *)
Theorem complete_job_twice (now1 now2 : datetime) (jid url1 url2 : string)
    (r r1 : redis) :
  valid now1 = true →
  complete_job now1 jid url1 r = (r1, Ok tt) →
  ∃ r2,
    complete_job now2 jid url2 r1 = (r2, Ok tt)
    ∧ list_of QUEUE_PROCESSING r2 = list_of QUEUE_PROCESSING r1
    ∧ pending_of r2 = pending_of r1
    ∧ list_of QUEUE_COMPLETED r2 = jid :: list_of QUEUE_COMPLETED r1
    ∧ hash_of (job_key jid) r2
      = <["completed_at" := isoformat now2]>
          (<["result_url" := url2]> (hash_of (job_key jid) r1)).
Proof.
  intros Hnow H1.
  apply complete_job_ok in H1
    as (h0 & job0 & Hh0 & Hjob0 & _ & _ & Hp1 & Hc1 & Hh1 & _ & _ & Hlp & Hlc).
  pose proof (deserialize_decoded _ _ Hjob0) as Hdec.
  set (j1 := with_completion now1 url1 job0) in *.
  assert (Hjob1 : _deserialize_job (_serialize_job j1 ∪ h0) = Ok (job_image j1)).
  { rewrite deserialize_union. destruct Hdec as (_ & Hc & Hs & _).
    by apply deserialize_serialize. }
  destruct (complete_job_run now2 jid url2 r1 _ _ Hlp Hlc Hh1 Hjob1) as [r2 H2].
  exists r2. split; [done|].
  apply complete_job_ok in H2
    as (h1 & job1 & Hh1' & Hjob1' & _ & _ & Hp2 & Hc2 & Hh2 & Hpend & _).
  rewrite Hh1 in Hh1'. injection Hh1' as <-.
  rewrite Hjob1 in Hjob1'. injection Hjob1' as <-.
  split_and!.
  - rewrite Hp2, Hp1. apply list_filter_filter_l. done.
  - unfold pending_of, zset_of. by rewrite Hpend.
  - done.
  - unfold hash_of. rewrite Hh2, Hh1. unfold j1.
    rewrite serialize_completion_again by done.
    by rewrite <- !insert_union_l, (assoc_L (∪)), (idemp_L (∪)).
Qed.


End finish_facts.

Section stats_facts.

(** [completed_today] and [failed_today] are the lengths of the completed
    and of the failed list, whatever the day of the call and of the jobs. *)
Lemma get_queue_stats_ok (r r' : redis) (st : queue_stats) :
  get_queue_stats r = (r', Ok st) →
  r' = r
  ∧ completed_today st = Z.of_nat (length (list_of QUEUE_COMPLETED r))
  ∧ failed_today st = Z.of_nat (length (list_of QUEUE_FAILED r)).
Proof.
  unfold get_queue_stats, _get_completed_today, _get_failed_today,
    _estimate_wait_time. intros H.
  bind_ok H n1 r1 E. apply zcard_ok in E as (-> & _ & _).
  bind_ok H n2 r1 E. apply llen_ok in E as (-> & _ & _).
  bind_ok H n3 r1 E. apply llen_ok in E as (-> & -> & _).
  bind_ok H n4 r1 E. apply llen_ok in E as (-> & -> & _).
  bind_ok H n5 r1 E. bind_ok E n6 r2 E'. apply zcard_ok in E' as (-> & _ & _).
  apply mret_ok in E as [-> _]. apply mret_ok in H as [-> ->].
  done.
Qed.

End stats_facts.

(* ===================================================================== *)
(** * The codec round trip on jobs *)
(* ===================================================================== *)

Section job_roundtrip.




End job_roundtrip.

(* ===================================================================== *)
(** * The worked scenario *)
(* ===================================================================== *)

Section scenario_facts.

Example submit_sample :
  submit_job clk0 sample_job empty_redis
  = (queued_store, Ok (mkReceipt "j1" "queued" 1 10)).
Proof. vm_compute. reflexivity. Qed.

Example claim_sample :
  get_next_job now1 "worker-0" queued_store
  = (claimed_store, Ok (Some claimed_job)).
Proof. vm_compute. reflexivity. Qed.

Example complete_sample :
  complete_job now2 "j1" sample_url claimed_store = (completed_store, Ok tt).
Proof. vm_compute. reflexivity. Qed.

Example complete_again_sample :
  complete_job now2 "j1" sample_url completed_store
  = (completed_twice_store, Ok tt).
Proof. vm_compute. reflexivity. Qed.




Example queued_store_keyed : hashes_keyed queued_store = true.
Proof. vm_compute. reflexivity. Qed.

Example claimed_store_hash :
  db claimed_store !! job_key "j1"
  = Some (RHash (hash_of (job_key "j1") claimed_store))
  ∧ _deserialize_job (hash_of (job_key "j1") claimed_store)
    = Ok (job_image claimed_job).
Proof. split; vm_compute; reflexivity. Qed.


(** C7 on a store with three jobs in flight and two pending. *)
Lemma get_next_job_at_capacity_witness :
  MAX_CONCURRENT_JOBS ≤ Z.of_nat (length (list_of QUEUE_PROCESSING busy_store))
  ∧ get_next_job now1 "worker-3" busy_store = (busy_store, Ok None).
Proof.
  assert (H : MAX_CONCURRENT_JOBS
              ≤ Z.of_nat (length (list_of QUEUE_PROCESSING busy_store))).
  { vm_compute. discriminate. }
  split; [exact H|].
  exact (get_next_job_at_capacity now1 "worker-3" busy_store H).
Defined.



(** C3: completing a completed job once more changes the store. *)
Lemma complete_job_not_idempotent :
  complete_job now2 "j1" sample_url claimed_store = (completed_store, Ok tt)
  ∧ complete_job now2 "j1" sample_url completed_store
    = (completed_twice_store, Ok tt)
  ∧ list_of QUEUE_COMPLETED completed_store = ["j1"]
  ∧ list_of QUEUE_COMPLETED completed_twice_store = ["j1"; "j1"]
  ∧ db completed_twice_store ≠ db completed_store.
Proof.
  split; [exact complete_sample|]. split; [exact complete_again_sample|].
  assert (H1 : list_of QUEUE_COMPLETED completed_store = ["j1"])
    by (vm_compute; reflexivity).
  assert (H2 : list_of QUEUE_COMPLETED completed_twice_store = ["j1"; "j1"])
    by (vm_compute; reflexivity).
  split; [exact H1|]. split; [exact H2|].
  intros H. unfold list_of in H1, H2. rewrite H in H2. rewrite H1 in H2.
  discriminate H2.
Qed.

Lemma complete_job_twice_witness :
  valid now2 = true
  ∧ complete_job now2 "j1" sample_url claimed_store = (completed_store, Ok tt)
  ∧ ∃ r2,
      complete_job now3 "j1" "s3://other" completed_store = (r2, Ok tt)
      ∧ list_of QUEUE_PROCESSING r2 = list_of QUEUE_PROCESSING completed_store
      ∧ pending_of r2 = pending_of completed_store
      ∧ list_of QUEUE_COMPLETED r2
        = "j1" :: list_of QUEUE_COMPLETED completed_store
      ∧ hash_of (job_key "j1") r2
        = <["completed_at" := isoformat now3]>
            (<["result_url" := "s3://other"]>
               (hash_of (job_key "j1") completed_store)).
Proof.
  split; [reflexivity|]. split; [exact complete_sample|].
  exact (complete_job_twice now2 now3 "j1" sample_url "s3://other"
           claimed_store completed_store eq_refl complete_sample).
Defined.



Lemma numbered_jobs_size (n : nat) : size (numbered_jobs n) = n.
Proof.
  unfold numbered_jobs. rewrite map_size_list_to_map.
  - by rewrite length_fmap, length_seq.
  - rewrite <- list_fmap_compose. apply NoDup_fmap_2_strong; [|apply NoDup_seq].
    intros i j _ _ Heq. cbn in Heq. apply String.app_inj in Heq.
    apply (f_equal int_of_str) in Heq. rewrite !int_of_str_int in Heq.
    injection Heq as Heq. lia.
Qed.

(** C5. With 999 jobs pending, one below the cap, [submit_job] does not
    accept the job, and with 1,000 pending it does not answer that the queue
    is full: either way the size check raises the [WrongType] error of
    [llen] on a sorted set, as it does with a single job pending. *)
Theorem submit_job_size_check :
  zcard QUEUE_PENDING (pending_store 999) = (pending_store 999, Ok 999)
  ∧ submit_job clk0 sample_job (pending_store 999)
    = (pending_store 999, Raise WrongType)
  ∧ zcard QUEUE_PENDING (pending_store 1000) = (pending_store 1000, Ok 1000)
  ∧ submit_job clk0 sample_job (pending_store 1000)
    = (pending_store 1000, Raise WrongType)
  ∧ zcard QUEUE_PENDING (pending_store 1) = (pending_store 1, Ok 1)
  ∧ submit_job clk0 sample_job (pending_store 1)
    = (pending_store 1, Raise WrongType).
Proof.
  assert (Hcard : ∀ n, zcard QUEUE_PENDING (pending_store n)
                       = (pending_store n, Ok (Z.of_nat n))).
  { intros n. unfold zcard, pending_store. cbn [db].
    by rewrite lookup_singleton_eq, numbered_jobs_size. }
  assert (Hsubmit : ∀ n, submit_job clk0 sample_job (pending_store n)
                         = (pending_store n, Raise WrongType)).
  { intros n. eapply submit_job_pending_zset.
    unfold pending_store. cbn [db]. apply lookup_singleton_eq. }
  split_and!; first [apply Hsubmit | apply (Hcard 999%nat)
                     | apply (Hcard 1000%nat) | apply (Hcard 1%nat)].
Qed.

(** C8: the [zadd] is the first write of a submission, not the last. *)
Lemma submit_job_zadd_first :
  submit_job clk0 sample_job empty_redis
  = (queued_store, Ok (mkReceipt "j1" "queued" 1 10))
  ∧ ¬ hash_counter_zadd (writes empty_redis) (writes queued_store).
Proof.
  split; [exact submit_sample|].
  intros (k & m & c & mid & p & member & score & H).
  rewrite (submit_job_write_order _ _ _ _ _ submit_sample) in H.
  apply app_inv_head in H. discriminate.
Qed.

Lemma submit_job_write_order_witness :
  submit_job clk0 sample_job empty_redis
  = (queued_store, Ok (mkReceipt "j1" "queued" 1 10))
  ∧ writes queued_store
    = writes empty_redis
      ++ [ ZADD QUEUE_PENDING (job_id sample_job)
                (job_score (priority sample_job) (score_time clk0));
           HSET (job_key (job_id sample_job)) (_serialize_job sample_job);
           INCR (month_key (user_id sample_job) (counter_now clk0));
           EXPIRE (month_key (user_id sample_job) (counter_now clk0)) 2592000 ].
Proof.
  split; [exact submit_sample|].
  exact (submit_job_write_order clk0 sample_job empty_redis queued_store
           (mkReceipt "j1" "queued" 1 10) submit_sample).
Defined.

(** C9. A job completed on 3 November 2026 is counted by every later call
    of [get_queue_stats], which reads no clock: [completed_today] is the
    length of the completed list, and [failed_today] that of the failed
    list. *)
Theorem completed_today_counts_all :
  hash_of (job_key "j1") completed_store !! "completed_at"
  = Some "2026-11-03T10:02:30"
  ∧ get_queue_stats completed_store
    = (completed_store, Ok (mkStats 0 0 1 0 12.5 0))
  ∧ hash_of (job_key "j1") failed_store !! "completed_at"
    = Some "2026-11-03T10:02:30"
  ∧ get_queue_stats failed_store = (failed_store, Ok (mkStats 0 0 0 1 12.5 0)).
Proof.
  split; [vm_compute; reflexivity|]. split; [vm_compute; reflexivity|].
  split; vm_compute; reflexivity.
Qed.




End scenario_facts.

(* ===================================================================== *)
(** * The reachable stores *)
(* ===================================================================== *)

Section triple_facts.

Lemma triple_bind {A B} (P : redis → Prop) (m : Redis A) (f : A → Redis B)
    (Q : A → redis → Prop) (R : B → redis → Prop) (E : redis → Prop) :
  triple P m Q E → (∀ a, triple (Q a) (f a) R E) → triple P (m ≫= f) R E.
Proof.
  intros Hm Hf r r' res HP. rewrite redis_bind_run.
  destruct (m r) as [r1 [a|e]] eqn:Hrun; specialize (Hm _ _ _ HP Hrun).
  - intros Hrun'. by apply (Hf a r1 r' res).
  - by intros [= <- <-].
Qed.

Lemma triple_ret {A} (P : redis → Prop) (a : A) (Q : A → redis → Prop)
    (E : redis → Prop) :
  (∀ r, P r → Q a r) → triple P (mret a) Q E.
Proof. intros H r r' res HP [= <- <-]. by apply H. Qed.

Lemma triple_raise {A} (P : redis → Prop) (e : exn) (Q : A → redis → Prop)
    (E : redis → Prop) :
  (∀ r, P r → E r) → triple P (raise e) Q E.
Proof. intros H r r' res HP [= <- <-]. by apply H. Qed.

Lemma triple_lift {A} (P : redis → Prop) (x : result A) (E : redis → Prop) :
  (∀ r, P r → E r) → triple P (lift x) (λ a r, P r ∧ x = Ok a) E.
Proof. intros H r r' res HP [= <- <-]. destruct x; [done | by apply H]. Qed.

Lemma triple_weaken {A} (P P' : redis → Prop) (m : Redis A)
    (Q Q' : A → redis → Prop) (E : redis → Prop) :
  triple P' m Q' E → (∀ r, P r → P' r) → (∀ a r, Q' a r → Q a r) →
  triple P m Q E.
Proof.
  intros Hm HP HQ r r' res Hr Hrun. specialize (Hm r r' res (HP _ Hr) Hrun).
  destruct res; [by apply HQ | done].
Qed.

End triple_facts.

Section invariant_facts.

Lemma hashes_keyed_iff (r : redis) :
  hashes_keyed r = true ↔ map_Forall (λ key v, hash_keyed key v = true) (db r).
Proof. unfold hashes_keyed. apply bool_decide_eq_true. Qed.

(** The invariant reads the key space alone. *)
Lemma store_inv_db (r r' : redis) : db r' = db r → store_inv r → store_inv r'.
Proof.
  unfold store_inv, hashes_keyed, queues_typed, zset_key, list_key.
  by intros ->.
Qed.

Lemma queue_key_cases (key : string) :
  key ∈ [QUEUE_PENDING; QUEUE_PROCESSING; QUEUE_COMPLETED; QUEUE_FAILED] →
  key = QUEUE_PENDING ∨ key = QUEUE_PROCESSING
  ∨ key = QUEUE_COMPLETED ∨ key = QUEUE_FAILED.
Proof.
  intros Hk. repeat (apply elem_of_cons in Hk as [Hk | Hk]; [tauto|]).
  by apply elem_of_nil in Hk.
Qed.

Lemma list_key_cases (key : string) :
  key ∈ [QUEUE_PROCESSING; QUEUE_COMPLETED; QUEUE_FAILED] →
  key = QUEUE_PROCESSING ∨ key = QUEUE_COMPLETED ∨ key = QUEUE_FAILED.
Proof.
  intros Hk. repeat (apply elem_of_cons in Hk as [Hk | Hk]; [tauto|]).
  by apply elem_of_nil in Hk.
Qed.

Lemma hash_keyed_queue (key : string) (v : rval) :
  key ∈ [QUEUE_PENDING; QUEUE_PROCESSING; QUEUE_COMPLETED; QUEUE_FAILED] →
  hash_keyed key v = true.
Proof.
  intros Hk. unfold hash_keyed. destruct v; try done.
  destruct (queue_key_cases key Hk) as [E | [E | [E | E]]]; by subst key.
Qed.

(** A write to a key that is none of the queues. *)
Lemma store_inv_other (c : command) (key : string) (v : rval) (r : redis) :
  key ≠ QUEUE_PENDING → key ≠ QUEUE_PROCESSING →
  key ≠ QUEUE_COMPLETED → key ≠ QUEUE_FAILED →
  hash_keyed key v = true →
  store_inv r → store_inv (store_key c key v r).
Proof.
  intros ? ? ? ? Hv (Hkeyed & Htyped & Hone). split_and!.
  - apply hashes_keyed_iff. apply hashes_keyed_iff in Hkeyed.
    by apply map_Forall_insert_2.
  - revert Htyped. unfold queues_typed, zset_key, list_key. cbn [db store_key].
    by rewrite !lookup_insert_ne by done.
  - intros z. cbn [db store_key]. rewrite lookup_insert_ne by done. apply Hone.
Qed.

(** A write of a list, or its removal, under one of the three list keys. *)
Lemma store_inv_list (c : command) (key : string) (l : list string) (r : redis) :
  key ∈ [QUEUE_PROCESSING; QUEUE_COMPLETED; QUEUE_FAILED] →
  store_inv r → store_inv (store_key c key (RList l) r).
Proof.
  intros Hk (Hkeyed & Htyped & Hone). split_and!.
  - apply hashes_keyed_iff. apply hashes_keyed_iff in Hkeyed.
    apply map_Forall_insert_2; [|done]. apply hash_keyed_queue.
    apply elem_of_cons. by right.
  - revert Htyped. unfold queues_typed, zset_key, list_key. cbn [db store_key].
    rewrite !andb_true_iff. intros [[[? ?] ?] ?].
    destruct (list_key_cases key Hk) as [E | [E | E]]; subst key;
      rewrite ?lookup_insert_eq, ?lookup_insert_ne by key_ne; done.
  - intros z. cbn [db store_key].
    rewrite lookup_insert_ne; [apply Hone|].
    destruct (list_key_cases key Hk) as [E | [E | E]]; subst key; key_ne.
Qed.

Lemma store_inv_drop (c : command) (key : string) (r : redis) :
  key ∈ [QUEUE_PENDING; QUEUE_PROCESSING; QUEUE_COMPLETED; QUEUE_FAILED] →
  store_inv r → store_inv (drop_key c key r).
Proof.
  intros Hk (Hkeyed & Htyped & Hone). split_and!.
  - apply hashes_keyed_iff. apply hashes_keyed_iff in Hkeyed.
    by apply map_Forall_delete.
  - revert Htyped. unfold queues_typed, zset_key, list_key. cbn [db drop_key].
    rewrite !andb_true_iff. intros [[[? ?] ?] ?].
    destruct (queue_key_cases key Hk) as [E | [E | [E | E]]]; subst key;
      rewrite ?lookup_delete_eq, ?lookup_delete_ne by key_ne; done.
  - intros z. cbn [db drop_key].
    destruct (decide (key = QUEUE_PENDING)) as [-> | Hne].
    + by rewrite lookup_delete_eq.
    + rewrite lookup_delete_ne by done. apply Hone.
Qed.

(** A sorted set of one member under the pending key. *)
Lemma store_inv_pending (c : command) (z : gmap string Q) (r : redis) :
  size z = 1%nat →
  store_inv r → store_inv (store_key c QUEUE_PENDING (RZSet z) r).
Proof.
  intros Hz (Hkeyed & Htyped & Hone). split_and!.
  - apply hashes_keyed_iff. apply hashes_keyed_iff in Hkeyed.
    by apply map_Forall_insert_2.
  - revert Htyped. unfold queues_typed, zset_key, list_key. cbn [db store_key].
    rewrite lookup_insert_eq, !lookup_insert_ne by key_ne.
    rewrite !andb_true_iff. by intros [[[? ?] ?] ?].
  - intros z'. cbn [db store_key]. rewrite lookup_insert_eq. by intros [= <-].
Qed.

End invariant_facts.

Section command_triples.

(** A computation that only reads keeps what held of the store. *)
Lemma triple_read {A} (P E : redis → Prop) (m : Redis A) :
  (∀ r, P r → E r) → (∀ r, (m r).1 = r) → triple P m (λ _, P) E.
Proof.
  intros HE Hm r r' res HP Hrun. specialize (Hm r). rewrite Hrun in Hm.
  cbn in Hm. subst r'. destruct res; auto.
Qed.

Lemma llen_triple (key : string) (P : redis → Prop) :
  triple P (llen key) (λ _ r, P r ∧ list_key key r = true) P.
Proof.
  intros r r' res HP. unfold llen, list_key.
  destruct (db r !! key) as [[]|] eqn:E; intros [= <- <-]; by rewrite ?E.
Qed.

Lemma zrange_first_triple (key : string) (P : redis → Prop) :
  triple P (zrange_first key)
    (λ jobs r, P r ∧ ∀ jid sc rest, jobs = (jid, sc) :: rest →
                 ∃ z, db r !! key = Some (RZSet z) ∧ z !! jid = Some sc)
    P.
Proof.
  intros r r' res HP. unfold zrange_first.
  destruct (db r !! key) as [[ | |z| ]|] eqn:E; intros [= <- <-]; try done.
  split; [done|]. intros jid sc rest Hjobs. exists z. split; [done|].
  destruct (zfirst z) as [[m s]|] eqn:Hz; [|done].
  injection Hjobs as -> -> _. by apply zfirst_lowest in Hz as [? _].
Qed.

Lemma hgetall_triple (key : string) (P : redis → Prop) :
  triple P (hgetall key)
    (λ h r, P r ∧ (db r !! key = Some (RHash h) ∨ h = ∅)) P.
Proof.
  intros r r' res HP. unfold hgetall.
  destruct (db r !! key) as [[]|] eqn:E; intros [= <- <-]; auto.
Qed.

Lemma check_user_limit_triple (now : datetime) (uid tr : string)
    (P E : redis → Prop) :
  (∀ r, P r → E r) →
  triple P (_check_user_limit now uid tr) (λ _, P) E.
Proof.
  intros HE. apply triple_read; [done|].
  intros r. by rewrite check_user_limit_run.
Qed.

Lemma get_queue_position_triple (jid : string) (P E : redis → Prop) :
  (∀ r, P r → E r) →
  triple P (_get_queue_position jid) (λ _, P) E.
Proof.
  intros HE. apply triple_read; [done|]. intros r. unfold _get_queue_position.
  rewrite redis_bind_run. unfold zrank.
  by destruct (db r !! QUEUE_PENDING) as [[]|].
Qed.

Lemma zadd_pending_triple (member : string) (score : Q) :
  triple (λ r, store_inv r ∧ list_key QUEUE_PENDING r = true)
    (zadd QUEUE_PENDING member score) (λ _, store_inv) store_inv.
Proof.
  intros r r' res [Hinv Hlist]. unfold zadd.
  pose proof Hinv as (_ & Htyped & _).
  unfold queues_typed, zset_key, list_key in *.
  destruct (db r !! QUEUE_PENDING) as [[]|] eqn:E; try done.
  intros [= <- <-]. apply store_inv_pending; [|done].
  apply map_size_singleton.
Qed.

Lemma zrem_pending_triple (member : string) :
  triple store_inv (zrem QUEUE_PENDING member) (λ _, store_inv) store_inv.
Proof.
  intros r r' res Hinv. unfold zrem.
  destruct (db r !! QUEUE_PENDING) as [[ | |z| ]|] eqn:E;
    try (intros [= <- <-]; first [done | by eapply store_inv_db]).
  case_decide as Hz; intros [= <- <-].
  - apply store_inv_drop; [|done]. apply elem_of_cons. by left.
  - apply store_inv_pending; [|done].
    destruct Hinv as (_ & _ & Hone). specialize (Hone z E).
    destruct (z !! member) as [sc|] eqn:Hm.
    + exfalso. apply Hz. apply map_size_empty_iff.
      rewrite map_size_delete, Hm. lia.
    + by rewrite delete_id.
Qed.

Lemma lpush_triple (key value : string) :
  key ∈ [QUEUE_PROCESSING; QUEUE_COMPLETED; QUEUE_FAILED] →
  triple store_inv (lpush key value) (λ _, store_inv) store_inv.
Proof.
  intros Hk r r' res Hinv. unfold lpush.
  destruct (db r !! key) as [[]|]; intros [= <- <-];
    first [done | by apply store_inv_list].
Qed.

Lemma lrem_all_triple (key value : string) :
  key ∈ [QUEUE_PROCESSING; QUEUE_COMPLETED; QUEUE_FAILED] →
  triple store_inv (lrem_all key value) (λ _, store_inv) store_inv.
Proof.
  intros Hk r r' res Hinv. unfold lrem_all.
  destruct (db r !! key) as [[ |l| | ]|];
    try (intros [= <- <-]; first [done | by eapply store_inv_db]).
  destruct (filter _ l); intros [= <- <-].
  - apply store_inv_drop; [|done]. apply elem_of_cons. by right.
  - by apply store_inv_list.
Qed.

Lemma hset_job_triple (jid : string) (m : gmap string string) :
  m !! "job_id" = Some jid →
  triple store_inv (hset (job_key jid) m) (λ _, store_inv) store_inv.
Proof.
  intros Hm r r' res Hinv. unfold hset.
  assert (Hkeyed : ∀ h, hash_keyed (job_key jid) (RHash (m ∪ h)) = true).
  { intros h. unfold hash_keyed. rewrite strip_job_key.
    rewrite (lookup_union_Some_l _ _ _ _ Hm). apply String.eqb_refl. }
  destruct (db r !! job_key jid) as [[]|]; intros [= <- <-]; try done.
  - apply store_inv_other; try done; apply job_key_queue.
  - apply store_inv_other; try apply job_key_queue; [|done].
    specialize (Hkeyed ∅). by rewrite (right_id_L ∅ (∪)) in Hkeyed.
Qed.

Lemma incr_month_triple (uid : string) (now : datetime) :
  triple store_inv (incr (month_key uid now)) (λ _, store_inv) store_inv.
Proof.
  intros r r' res Hinv. unfold incr.
  destruct (db r !! month_key uid now) as [[]|];
    repeat case_match; intros [= <- <-]; try done;
    apply store_inv_other; try done; apply month_key_queue.
Qed.

Lemma expire_triple (key : string) (seconds : Z) :
  triple store_inv (expire key seconds) (λ _, store_inv) store_inv.
Proof.
  intros r r' res Hinv. unfold expire.
  destruct (db r !! key); intros [= <- <-]; by eapply store_inv_db.
Qed.

Lemma setex_timeout_triple (jid : string) (seconds : Z) (value : string) :
  triple store_inv (setex (timeout_key jid) seconds value)
    (λ _, store_inv) store_inv.
Proof.
  intros r r' res Hinv. unfold setex. intros [= <- <-].
  pose proof (store_inv_other (SETEX (timeout_key jid) seconds value)
                (timeout_key jid) (RString value) r) as H.
  eapply store_inv_db; [|apply H]; try done; apply timeout_key_queue.
Qed.

End command_triples.

Section reachable_facts.

Ltac step lem := eapply triple_bind; [apply lem | intros ?; cbn beta].

Lemma submit_job_inv (clk : submit_clock) (job : ProjectJob) :
  triple store_inv (submit_job clk job) (λ _, store_inv) store_inv.
Proof.
  unfold submit_job.
  eapply triple_bind; [apply (llen_triple QUEUE_PENDING store_inv)|].
  intros n. cbn beta.
  destruct (n >=? MAX_QUEUE_SIZE); [by intros r r' res [? _] [= <- <-]|].
  eapply triple_bind; [apply check_user_limit_triple; by intros ? [? ?]|].
  intros within. cbn beta.
  destruct within; cbn [negb]; [|by intros r r' res [? _] [= <- <-]].
  step zadd_pending_triple.
  eapply triple_bind.
  { apply hset_job_triple. apply serialize_lookup. }
  intros ?. cbn beta.
  step incr_month_triple. step expire_triple.
  eapply triple_bind; [by apply get_queue_position_triple|].
  intros pos. cbn beta.
  by apply triple_ret.
Qed.

(** A hash the decoder accepts, read in a store that satisfies the
    invariant, records the id it is filed under. *)
Lemma decoded_job_id (r : redis) (jid : string) (h : gmap string string)
    (job : ProjectJob) :
  store_inv r → db r !! job_key jid = Some (RHash h) ∨ h = ∅ →
  _deserialize_job h = Ok job → job_id job = jid.
Proof.
  intros (Hkeyed & _) Hh Hjob.
  pose proof (deserialize_job_id _ _ Hjob) as Hfield.
  destruct Hh as [Hh | ->]; [|by rewrite lookup_empty in Hfield].
  by eapply hashes_keyed_lookup.
Qed.

Lemma rewrite_job_inv (jid : string) (change : ProjectJob → ProjectJob)
    {A} (rest : ProjectJob → Redis A) :
  (∀ job, job_id (change job) = job_id job) →
  (∀ job, triple store_inv (rest job) (λ _, store_inv) store_inv) →
  triple store_inv
    (job_data ← hgetall (job_key jid);
     job ← lift (_deserialize_job job_data);
     _ ← hset (job_key jid) (_serialize_job (change job));
     rest (change job))
    (λ _, store_inv) store_inv.
Proof.
  intros Hchange Hrest.
  eapply triple_bind; [apply (hgetall_triple (job_key jid) store_inv)|].
  intros h. cbn beta.
  eapply triple_bind.
  { apply triple_lift. by intros ? [? ?]. }
  intros job. cbn beta.
  intros r r' res [[Hinv Hh] Hjob].
  pose proof (decoded_job_id r jid h job Hinv Hh Hjob) as Hid.
  assert (Hset : triple store_inv
    (hset (job_key jid) (_serialize_job (change job))
       ≫= λ _, rest (change job))
    (λ _, store_inv) store_inv).
  { eapply triple_bind; [|intros ?; apply Hrest].
    apply hset_job_triple.
    destruct (serialize_lookup (change job)) as [-> _].
    by rewrite Hchange, Hid. }
  exact (Hset r r' res Hinv).
Qed.

Lemma get_next_job_inv (now : datetime) (wid : string) :
  triple store_inv (get_next_job now wid) (λ _, store_inv) store_inv.
Proof.
  unfold get_next_job.
  eapply triple_bind; [apply (llen_triple QUEUE_PROCESSING store_inv)|].
  intros n. cbn beta.
  destruct (n >=? MAX_CONCURRENT_JOBS); [by intros r r' res [? _] [= <- <-]|].
  eapply triple_weaken with (P' := λ r, store_inv r) (Q' := λ _, store_inv);
    [|by intros ? [? ?]|done].
  eapply triple_bind; [apply (zrange_first_triple QUEUE_PENDING store_inv)|].
  intros jobs. cbn beta.
  destruct jobs as [|[jid score] rest]; [by intros r r' res [? _] [= <- <-]|].
  eapply triple_weaken with (P' := λ r, store_inv r) (Q' := λ _, store_inv);
    [|by intros ? [? ?]|done].
  step zrem_pending_triple.
  eapply triple_bind.
  { apply lpush_triple. apply elem_of_cons. by left. }
  intros ?. cbn beta.
  apply (rewrite_job_inv jid (with_claim now wid)
           (λ job, _ ← setex (timeout_key jid) JOB_TIMEOUT_SECONDS "1";
                   mret (Some job))); [done|].
  intros job. step setex_timeout_triple. by apply triple_ret.
Qed.

Lemma complete_job_inv (now : datetime) (jid url : string) :
  triple store_inv (complete_job now jid url) (λ _, store_inv) store_inv.
Proof.
  unfold complete_job.
  eapply triple_bind.
  { apply lrem_all_triple. apply elem_of_cons. by left. }
  intros ?. cbn beta.
  apply (rewrite_job_inv jid (with_completion now url)
           (λ _, _ ← lpush QUEUE_COMPLETED jid;
                 _ ← expire (job_key jid) 604800;
                 mret tt)); [done|].
  intros job. eapply triple_bind.
  { apply lpush_triple. apply elem_of_cons. right. apply elem_of_cons. by left. }
  intros ?. cbn beta.
  step expire_triple. by apply triple_ret.
Qed.

Lemma fail_job_inv (now : datetime) (jid error : string) :
  triple store_inv (fail_job now jid error) (λ _, store_inv) store_inv.
Proof.
  unfold fail_job.
  eapply triple_bind.
  { apply lrem_all_triple. apply elem_of_cons. by left. }
  intros ?. cbn beta.
  apply (rewrite_job_inv jid (with_failure now error)
           (λ _, _ ← lpush QUEUE_FAILED jid; mret tt)); [done|].
  intros job. eapply triple_bind.
  { apply lpush_triple. do 2 (apply elem_of_cons; right).
    apply elem_of_cons. by left. }
  intros ?. cbn beta.
  by apply triple_ret.
Qed.

Lemma triple_run {A} (m : Redis A) (r : redis) :
  triple store_inv m (λ _, store_inv) store_inv →
  store_inv r → store_inv (m r).1.
Proof.
  intros Hm Hr. destruct (m r) as [r' res] eqn:Hrun.
  specialize (Hm r r' res Hr Hrun). by destruct res.
Qed.

(** Every store the queue manager can bring about satisfies the invariant:
    whatever the calls and whether they return or raise, each job hash is
    filed under the id it records, and the pending sorted set never holds
    more than one member, a submission being accepted only when it holds
    none. *)
Theorem reachable_inv (r : redis) : reachable r → store_inv r.
Proof.
  induction 1 as [| clk job r _ IH | now wid r _ IH | now jid url r _ IH
                  | now jid error r _ IH].
  - split_and!; [reflexivity | reflexivity |].
    intros z. cbn. by rewrite lookup_empty.
  - by apply triple_run; [apply submit_job_inv|].
  - by apply triple_run; [apply get_next_job_inv|].
  - by apply triple_run; [apply complete_job_inv|].
  - by apply triple_run; [apply fail_job_inv|].
Qed.

(** X27. The pending sorted set of a store the queue manager can bring
    about never holds more than one job: [submit_job] asks for the length
    of the pending key as of a list, which the server refuses with
    [WRONGTYPE] as soon as the sorted set is there, so that a submission is
    accepted only while nothing is pending. *)
Corollary reachable_pending (r : redis) :
  reachable r → (size (pending_of r) ≤ 1)%nat.
Proof.
  intros (_ & _ & Hone)%reachable_inv. unfold pending_of, zset_of.
  destruct (db r !! QUEUE_PENDING) as [[ | |z| ]|] eqn:E;
    rewrite ?map_size_empty; try lia.
  by rewrite (Hone z).
Qed.

(** X28. In every store the queue manager can bring about, a job hash
    stored under [job:<id>] records [<id>] as its [job_id]: the calls write
    a job hash only under the id of the job they serialize. *)
Corollary reachable_keyed (r : redis) : reachable r → hashes_keyed r = true.
Proof. by intros (? & _)%reachable_inv. Qed.

End reachable_facts.

(** The store a call leaves, named by the equation of its run. *)
Lemma reachable_step {A} (m : Redis A) (r r' : redis) (res : result A) :
  reachable (m r).1 → m r = (r', res) → reachable r'.
Proof. intros H E. by rewrite E in H. Qed.

(** The stores of the sample run are reachable: the submission into the empty
    store, the claim that follows it and the completion of the claimed job. *)
Example sample_stores_reachable :
  reachable queued_store ∧ reachable claimed_store
  ∧ reachable completed_store.
Proof.
  assert (Hq : reachable queued_store).
  { exact (reachable_step _ _ _ _
             (reach_submit clk0 sample_job _ reach_empty) submit_sample). }
  assert (Hc : reachable claimed_store).
  { exact (reachable_step _ _ _ _
             (reach_claim now1 "worker-0" _ Hq) claim_sample). }
  assert (Hd : reachable completed_store).
  { exact (reachable_step _ _ _ _
             (reach_complete now2 "j1" sample_url _ Hc) complete_sample). }
  exact (conj Hq (conj Hc Hd)).
Qed.
(* ===================================================================== *)
(** * Ordinals of dates *)
(* ===================================================================== *)

Import Timedelta.

Section ordinal_facts.

(** Every fourth year is a leap year, except the centuries that are not a
    multiple of 400. *)
Lemma days_before_year_next (y : Z) :
  _days_before_year (y + 1)
  = _days_before_year y + (if _is_leap y then 366 else 365).
Proof.
  unfold _days_before_year, _is_leap.
  replace (y + 1 - 1) with y by lia.
  destruct (Z.eqb_spec (y mod 4) 0), (Z.eqb_spec (y mod 100) 0),
    (Z.eqb_spec (y mod 400) 0); cbn [negb andb orb];
    Z.to_euclidean_division_equations; lia.
Qed.

Lemma days_before_year_mono (y y' : Z) :
  y ≤ y' → _days_before_year y ≤ _days_before_year y'.
Proof.
  unfold _days_before_year. intros H.
  Z.to_euclidean_division_equations. lia.
Qed.

(** A year written by its place in the cycle of 400 years. *)
Lemma days_before_year_cycle (a b c e : Z) :
  0 ≤ b < 4 → 0 ≤ c < 25 → 0 ≤ e < 4 →
  _days_before_year (400 * a + 100 * b + 4 * c + e + 1)
  = 146097 * a + 36524 * b + 1461 * c + 365 * e.
Proof.
  intros Hb Hc He. unfold _days_before_year.
  Z.to_euclidean_division_equations. lia.
Qed.

Lemma is_leap_cycle (a b c e : Z) :
  0 ≤ b < 4 → 0 ≤ c < 25 → 0 ≤ e < 4 →
  _is_leap (400 * a + 100 * b + 4 * c + e + 1)
  = (e =? 3) && (negb (c =? 24) || (b =? 3)).
Proof.
  intros Hb Hc He. unfold _is_leap.
  destruct (Z.eqb_spec e 3), (Z.eqb_spec c 24), (Z.eqb_spec b 3);
    cbn [negb andb orb];
    repeat match goal with
           | |- context [?x =? 0] => destruct (Z.eqb_spec x 0)
           end; cbn [negb andb orb]; try reflexivity; exfalso;
    Z.to_euclidean_division_equations; lia.
Qed.

(** The month and the day of the month of the [n]-th day of a year, counted
    from zero, as [_ord2ymd] finds them from its estimate of the month. *)
Lemma month_of_day (leapyear : bool) (n : Z) :
  0 ≤ n < 365 + (if leapyear then 1 else 0) →
  let month := Z.shiftr (n + 50) 5 in
  let preceding :=
    _DAYS_BEFORE_MONTH month + (if (month >? 2) && leapyear then 1 else 0) in
  ∃ m d,
    (∀ (T : Type) (f : Z → Z → T),
       (if preceding >? n then
          f (month - 1)
            (n - (preceding
                  - (_DAYS_IN_MONTH (month - 1)
                     + (if (month - 1 =? 2) && leapyear then 1 else 0))) + 1)
        else f month (n - preceding + 1)) = f m d)
    ∧ 1 ≤ m ≤ 12
    ∧ 1 ≤ d ≤ _DAYS_IN_MONTH m + (if (m =? 2) && leapyear then 1 else 0)
    ∧ _DAYS_BEFORE_MONTH m + (if (m >? 2) && leapyear then 1 else 0) + d = n + 1.
Proof.
  intros Hn. cbv zeta. rewrite Z.shiftr_div_pow2 by lia.
  change (2 ^ 5) with 32.
  assert (Hm : 1 ≤ (n + 50) / 32 ≤ 12).
  { destruct leapyear; Z.to_euclidean_division_equations; lia. }
  pose proof (Z.div_mod (n + 50) 32 ltac:(lia)) as Hdiv.
  pose proof (Z.mod_pos_bound (n + 50) 32 ltac:(lia)) as Hmod.
  set (month := (n + 50) / 32) in *. clearbody month.
  set (rest := (n + 50) mod 32) in *. clearbody rest.
  assert (month = 1 ∨ month = 2 ∨ month = 3 ∨ month = 4 ∨ month = 5
          ∨ month = 6 ∨ month = 7 ∨ month = 8 ∨ month = 9 ∨ month = 10
          ∨ month = 11 ∨ month = 12) as Hcases by lia.
  destruct leapyear;
    repeat (destruct Hcases as [-> | Hcases]); try subst month; simpl;
    match goal with
    | |- context [?p >? n] => destruct (Z.gtb_spec p n)
    end;
    eexists _, _; (split; [intros T f; reflexivity|]); simpl; lia.
Qed.

Lemma days_in_month_leap (y m : Z) :
  _days_in_month y m
  = _DAYS_IN_MONTH m + (if (m =? 2) && _is_leap y then 1 else 0).
Proof.
  unfold _days_in_month. destruct (Z.eqb_spec m 2) as [-> |]; cbn [andb]; [|lia].
  by destruct (_is_leap y).
Qed.

(** [_ord2ymd] answers a date of the calendar, and the date of that ordinal. *)
Lemma ord2ymd_spec (n : Z) :
  1 ≤ n →
  ∃ y m d,
    _ord2ymd n = (y, m, d)
    ∧ 1 ≤ y ∧ 1 ≤ m ≤ 12 ∧ 1 ≤ d ≤ _days_in_month y m
    ∧ _ymd2ord y m d = n.
Proof.
  intros Hn. unfold _ord2ymd. cbv zeta. unfold _DI400Y, _DI100Y, _DI4Y.
  pose proof (Z.div_mod (n - 1) 146097 ltac:(lia)) as E1.
  pose proof (Z.mod_pos_bound (n - 1) 146097 ltac:(lia)) as B1.
  assert (0 ≤ (n - 1) / 146097) as Ha by (apply Z.div_pos; lia).
  set (a := (n - 1) / 146097) in *. set (r1 := (n - 1) mod 146097) in *.
  pose proof (Z.div_mod r1 36524 ltac:(lia)) as E2.
  pose proof (Z.mod_pos_bound r1 36524 ltac:(lia)) as B2.
  set (b := r1 / 36524) in *. set (r2 := r1 mod 36524) in *.
  pose proof (Z.div_mod r2 1461 ltac:(lia)) as E3.
  pose proof (Z.mod_pos_bound r2 1461 ltac:(lia)) as B3.
  set (c := r2 / 1461) in *. set (r3 := r2 mod 1461) in *.
  pose proof (Z.div_mod r3 365 ltac:(lia)) as E4.
  pose proof (Z.mod_pos_bound r3 365 ltac:(lia)) as B4.
  set (e := r3 / 365) in *. set (r4 := r3 mod 365) in *.
  clearbody e r4. clearbody c r3. clearbody b r2. clearbody a r1.
  assert (0 ≤ b ≤ 4 ∧ 0 ≤ c ≤ 24 ∧ 0 ≤ e ≤ 4) as (Hb & Hc & He) by lia.
  unfold _ymd2ord, _days_before_month. setoid_rewrite days_in_month_leap.
  destruct (Z.eqb_spec b 4) as [Hb4 | Hb4].
  { rewrite orb_true_r. eexists _, _, _. split; [reflexivity|].
    replace (a * 400 + 1 + b * 100 + c * 4 + e - 1)
      with (400 * a + 100 * 3 + 4 * 24 + 3 + 1) by lia.
    rewrite is_leap_cycle, days_before_year_cycle by lia. simpl. lia. }
  destruct (Z.eqb_spec e 4) as [He4 | He4].
  { cbn [orb]. eexists _, _, _. split; [reflexivity|].
    replace (a * 400 + 1 + b * 100 + c * 4 + e - 1)
      with (400 * a + 100 * b + 4 * c + 3 + 1) by lia.
    rewrite is_leap_cycle, days_before_year_cycle by lia.
    destruct (Z.eqb_spec c 24); [lia|]. simpl. lia. }
  cbn [orb].
  replace (a * 400 + 1 + b * 100 + c * 4 + e)
    with (400 * a + 100 * b + 4 * c + e + 1) by lia.
  set (leapyear := (e =? 3) && (negb (c =? 24) || (b =? 3))).
  assert (0 ≤ r4 < 365 + (if leapyear then 1 else 0)) as Hr4
    by (destruct leapyear; lia).
  destruct (month_of_day leapyear r4 Hr4) as (m & d & Hmd & Hm & Hd & Hord).
  specialize (Hmd _ (λ m d, (400 * a + 100 * b + 4 * c + e + 1, m, d))).
  cbv beta zeta in Hmd. rewrite Hmd. clear Hmd.
  exists (400 * a + 100 * b + 4 * c + e + 1), m, d.
  split; [reflexivity|].
  rewrite is_leap_cycle, days_before_year_cycle by lia.
  fold leapyear. lia.
Qed.

Lemma ord2ymd_year (n y m d : Z) :
  1 ≤ n ≤ _MAXORDINAL → _ord2ymd n = (y, m, d) → 1 ≤ y ≤ 9999.
Proof.
  intros [Hn Hmax] Hymd.
  destruct (ord2ymd_spec n Hn) as (y' & m' & d' & E & Hy & Hm & Hd & Hord).
  rewrite Hymd in E. injection E as <- <- <-. split; [done|].
  destruct (Z.le_gt_cases y 9999) as [|Hbig]; [done|]. exfalso.
  pose proof (days_before_year_mono 10000 y ltac:(lia)) as Hmono.
  change (_days_before_year 10000) with 3652059 in Hmono.
  unfold _ymd2ord, _days_before_month, _MAXORDINAL in *.
  assert (0 ≤ _DAYS_BEFORE_MONTH m) by (unfold _DAYS_BEFORE_MONTH; repeat case_match; lia).
  repeat case_match; lia.
Qed.

(** The day of the year of a date of the calendar lies within the year. *)
Lemma day_of_year_bounds (y m d : Z) :
  1 ≤ m ≤ 12 → 1 ≤ d ≤ _days_in_month y m →
  1 ≤ _days_before_month y m + d ≤ (if _is_leap y then 366 else 365).
Proof.
  intros Hm Hd. rewrite days_in_month_leap in Hd. unfold _days_before_month.
  assert (m = 1 ∨ m = 2 ∨ m = 3 ∨ m = 4 ∨ m = 5 ∨ m = 6 ∨ m = 7 ∨ m = 8
          ∨ m = 9 ∨ m = 10 ∨ m = 11 ∨ m = 12) as Hcases by lia.
  destruct (_is_leap y);
    repeat (destruct Hcases as [-> | Hcases]); try subst m; simpl in *; lia.
Qed.

(** Two dates of one year with the same day of the year are the same. *)
Lemma day_of_year_inj (leap : bool) (m d m' d' : Z) :
  1 ≤ m ≤ 12 → 1 ≤ m' ≤ 12 →
  1 ≤ d ≤ _DAYS_IN_MONTH m + (if (m =? 2) && leap then 1 else 0) →
  1 ≤ d' ≤ _DAYS_IN_MONTH m' + (if (m' =? 2) && leap then 1 else 0) →
  _DAYS_BEFORE_MONTH m + (if (m >? 2) && leap then 1 else 0) + d
  = _DAYS_BEFORE_MONTH m' + (if (m' >? 2) && leap then 1 else 0) + d' →
  m = m' ∧ d = d'.
Proof.
  intros Hm Hm' Hd Hd' Heq.
  assert (m = 1 ∨ m = 2 ∨ m = 3 ∨ m = 4 ∨ m = 5 ∨ m = 6 ∨ m = 7 ∨ m = 8
          ∨ m = 9 ∨ m = 10 ∨ m = 11 ∨ m = 12) as Hcases by lia.
  assert (m' = 1 ∨ m' = 2 ∨ m' = 3 ∨ m' = 4 ∨ m' = 5 ∨ m' = 6 ∨ m' = 7
          ∨ m' = 8 ∨ m' = 9 ∨ m' = 10 ∨ m' = 11 ∨ m' = 12) as Hcases' by lia.
  destruct leap;
    repeat (destruct Hcases as [-> | Hcases]); try subst m;
    repeat (destruct Hcases' as [-> | Hcases']); try subst m';
    simpl in *; lia.
Qed.

(** The ordinal tells the date. *)
Lemma ymd2ord_inj (y m d y' m' d' : Z) :
  1 ≤ m ≤ 12 → 1 ≤ d ≤ _days_in_month y m →
  1 ≤ m' ≤ 12 → 1 ≤ d' ≤ _days_in_month y' m' →
  _ymd2ord y m d = _ymd2ord y' m' d' → y = y' ∧ m = m' ∧ d = d'.
Proof.
  intros Hm Hd Hm' Hd' Heq.
  pose proof (day_of_year_bounds y m d Hm Hd) as Hb.
  pose proof (day_of_year_bounds y' m' d' Hm' Hd') as Hb'.
  pose proof (days_before_year_next y) as Hn.
  pose proof (days_before_year_next y') as Hn'.
  unfold _ymd2ord in Heq.
  assert (y = y') as <-.
  { destruct (Z.lt_trichotomy y y') as [Hlt | [? | Hgt]]; [|done|].
    - pose proof (days_before_year_mono (y + 1) y' ltac:(lia)). lia.
    - pose proof (days_before_year_mono (y' + 1) y ltac:(lia)). lia. }
  split; [done|]. rewrite days_in_month_leap in Hd, Hd'.
  unfold _days_before_month in Heq.
  apply (day_of_year_inj (_is_leap y)); try done. lia.
Qed.

(** The date of the ordinal of a date is that date. *)
Lemma ord2ymd_ymd2ord (y m d : Z) :
  1 ≤ y → 1 ≤ m ≤ 12 → 1 ≤ d ≤ _days_in_month y m →
  _ord2ymd (_ymd2ord y m d) = (y, m, d).
Proof.
  intros Hy Hm Hd.
  assert (1 ≤ _ymd2ord y m d) as Hn.
  { pose proof (day_of_year_bounds y m d Hm Hd).
    pose proof (days_before_year_mono 1 y Hy) as H1.
    change (_days_before_year 1) with 0 in H1. unfold _ymd2ord. lia. }
  destruct (ord2ymd_spec _ Hn) as (y' & m' & d' & -> & Hy' & Hm' & Hd' & Hord).
  by apply ymd2ord_inj in Hord as (-> & -> & ->).
Qed.

Lemma is_leap_Z (y : N) : is_leap y = _is_leap (Z.of_N y).
Proof.
  unfold is_leap, _is_leap.
  replace (Z.of_N y mod 4) with (Z.of_N (y mod 4)) by apply (N2Z.inj_mod y 4).
  replace (Z.of_N y mod 100) with (Z.of_N (y mod 100))
    by apply (N2Z.inj_mod y 100).
  replace (Z.of_N y mod 400) with (Z.of_N (y mod 400))
    by apply (N2Z.inj_mod y 400).
  destruct (N.eqb_spec (y mod 4) 0) as [H4 | H4],
           (N.eqb_spec (y mod 100) 0) as [H100 | H100],
           (N.eqb_spec (y mod 400) 0) as [H400 | H400];
    repeat match goal with
           | |- context [Z.of_N ?x =? 0] => destruct (Z.eqb_spec (Z.of_N x) 0)
           end; cbn [negb andb orb]; try reflexivity; exfalso; try lia.
  all: pose proof (N.div_mod y 4 ltac:(lia));
       pose proof (N.div_mod y 100 ltac:(lia));
       pose proof (N.div_mod y 400 ltac:(lia));
       pose proof (N.mod_upper_bound y 4 ltac:(lia));
       pose proof (N.mod_upper_bound y 100 ltac:(lia));
       pose proof (N.mod_upper_bound y 400 ltac:(lia));
       repeat match goal with
              | H : context [N.div ?a ?b] |- _ =>
                  let q := fresh "q" in set (q := N.div a b) in *; clearbody q
              | H : context [N.modulo ?a ?b] |- _ =>
                  let q := fresh "q" in set (q := N.modulo a b) in *; clearbody q
              end; lia.
Qed.

Lemma days_in_month_Z (y m : N) :
  Z.of_N (days_in_month y m) = _days_in_month (Z.of_N y) (Z.of_N m).
Proof.
  unfold days_in_month, _days_in_month. rewrite <- is_leap_Z.
  destruct m as [|p]; [reflexivity|].
  do 4 (try destruct p as [p|p|]; try reflexivity);
    cbn; by destruct (is_leap y).
Qed.

(** The range checks of the constructor, over the integers. *)
Lemma valid_calendar (dt : datetime) :
  valid dt = true ↔
  1 ≤ Z.of_N (year dt) ≤ 9999 ∧ 1 ≤ Z.of_N (month dt) ≤ 12
  ∧ 1 ≤ Z.of_N (day dt)
      ≤ _days_in_month (Z.of_N (year dt)) (Z.of_N (month dt))
  ∧ Z.of_N (hour dt) < 24 ∧ Z.of_N (minute dt) < 60
  ∧ Z.of_N (second dt) < 60 ∧ Z.of_N (microsecond dt) < 1000000.
Proof.
  unfold valid. rewrite !andb_true_iff, !N.leb_le, !N.ltb_lt.
  rewrite <- days_in_month_Z. lia.
Qed.

Lemma ord2ymd_toordinal (dt : datetime) :
  valid dt = true →
  _ord2ymd (toordinal dt)
  = (Z.of_N (year dt), Z.of_N (month dt), Z.of_N (day dt)).
Proof.
  intros (Hy & Hm & Hd & _)%valid_calendar.
  apply ord2ymd_ymd2ord; lia.
Qed.

Lemma toordinal_bounds (dt : datetime) :
  valid dt = true → 1 ≤ toordinal dt ≤ _MAXORDINAL.
Proof.
  intros (Hy & Hm & Hd & _)%valid_calendar. unfold toordinal, _ymd2ord.
  pose proof (day_of_year_bounds _ _ _ Hm Hd) as Hb.
  pose proof (days_before_year_mono 1 (Z.of_N (year dt)) ltac:(lia)) as H1.
  pose proof (days_before_year_mono (Z.of_N (year dt) + 1) 10000 ltac:(lia)) as H2.
  rewrite days_before_year_next in H2.
  change (_days_before_year 1) with 0 in H1.
  change (_days_before_year 10000) with 3652059 in H2.
  unfold _MAXORDINAL. destruct (_is_leap _); lia.
Qed.

End ordinal_facts.

Section timedelta_facts.

(** The constructor keeps the duration and brings its fields in range. *)
Lemma timedelta_new_spec (d s us : Z) :
  match timedelta_new d s us with
  | Some t =>
      total_microseconds t = (d * 86400 + s) * 1000000 + us
      ∧ 0 ≤ seconds t < 86400 ∧ 0 ≤ microseconds t < 1000000
      ∧ Z.abs (days t) ≤ 999999999
  | None =>
      999999999 < Z.abs (((d * 86400 + s) * 1000000 + us) / 86400000000)
  end.
Proof.
  unfold timedelta_new. cbv zeta.
  match goal with |- context [Z.abs ?x >? _] => set (dd := x) end.
  assert (dd = ((d * 86400 + s) * 1000000 + us) / 86400000000) as Hdd.
  { subst dd. Z.to_euclidean_division_equations. lia. }
  destruct (Z.gtb_spec (Z.abs dd) 999999999) as [Hbig | Hok].
  - by rewrite <- Hdd.
  - unfold total_microseconds. cbn [days seconds microseconds].
    split_and!; try lia; clear Hok; subst dd;
      Z.to_euclidean_division_equations; lia.
Qed.

Lemma instant_day (dt : datetime) :
  valid dt = true →
  0 ≤ day_seconds dt < 86400
  ∧ 0 ≤ Z.of_N (microsecond dt) < 1000000.
Proof.
  intros (_ & _ & _ & Hh & Hm & Hs & Hus)%valid_calendar.
  unfold day_seconds. lia.
Qed.

(** The difference of two dates of the calendar is the duration between
    their instants. *)
Lemma datetime_sub_spec (a b : datetime) :
  valid a = true → valid b = true →
  ∃ t, datetime_sub a b = Some t
       ∧ total_microseconds t = instant a - instant b
       ∧ 0 ≤ seconds t < 86400 ∧ 0 ≤ microseconds t < 1000000.
Proof.
  intros Ha Hb. unfold datetime_sub.
  pose proof (timedelta_new_spec (toordinal a - toordinal b)
                (day_seconds a - day_seconds b)
                (Z.of_N (microsecond a) - Z.of_N (microsecond b))) as Hspec.
  pose proof (toordinal_bounds a Ha) as Hoa.
  pose proof (toordinal_bounds b Hb) as Hob.
  pose proof (instant_day a Ha) as [Hsa Hua].
  pose proof (instant_day b Hb) as [Hsb Hub].
  unfold _MAXORDINAL in *.
  destruct (timedelta_new _ _ _) as [t|].
  - exists t. destruct Hspec as (Htot & Hs & Hus & _).
    split; [done|]. split; [|done]. rewrite Htot. unfold instant. lia.
  - exfalso. revert Hspec.
    set (x := toordinal a) in *. set (y := toordinal b) in *.
    set (sa := day_seconds a) in *. set (sb := day_seconds b) in *.
    clearbody x y sa sb. intros Hspec.
    Z.to_euclidean_division_equations. lia.
Qed.

(** [(a - b).seconds] is the whole seconds between the two instants, less
    the whole days. *)
Lemma datetime_sub_seconds (a b : datetime) (t : timedelta) :
  valid a = true → valid b = true → datetime_sub a b = Some t →
  seconds t = ((instant a - instant b) / 1000000) mod 86400.
Proof.
  intros Ha Hb Ht.
  destruct (datetime_sub_spec a b Ha Hb) as (t' & E & Htot & Hs & Hus).
  rewrite Ht in E. injection E as <-. rewrite <- Htot.
  unfold total_microseconds. Z.to_euclidean_division_equations. lia.
Qed.

(** Adding a duration to a date of the calendar moves its instant by the
    duration; the sum is refused exactly when it leaves the calendar. *)
Lemma datetime_add_spec (dt : datetime) (t : timedelta) :
  valid dt = true →
  0 ≤ seconds t < 86400 → 0 ≤ microseconds t < 1000000 →
  match datetime_add dt t with
  | Some dt' =>
      valid dt' = true ∧ instant dt' = instant dt + total_microseconds t
  | None =>
      instant dt + total_microseconds t < 86400000000
      ∨ (_MAXORDINAL + 1) * 86400000000 ≤ instant dt + total_microseconds t
  end.
Proof.
  intros Hv Hs Hus. unfold datetime_add.
  pose proof (toordinal_bounds dt Hv) as Hord.
  pose proof (instant_day dt Hv) as [Hds Hdus].
  pose proof (timedelta_new_spec (toordinal dt)
                (Z.of_N (hour dt) * 3600 + Z.of_N (minute dt) * 60
                 + Z.of_N (second dt))
                (Z.of_N (microsecond dt))) as H1.
  unfold _MAXORDINAL in *.
  assert (Z.of_N (hour dt) * 3600 + Z.of_N (minute dt) * 60
          + Z.of_N (second dt) = day_seconds dt) as Esec
    by (unfold day_seconds; lia).
  rewrite Esec in *.
  destruct (timedelta_new (toordinal dt) _ _) as [d1|]; cbn [mbind option_bind];
    [|exfalso; revert H1; generalize (toordinal dt) (day_seconds dt) Hord Hds;
      intros; Z.to_euclidean_division_equations; lia].
  destruct H1 as (Htot1 & Hs1 & Hus1 & _).
  assert (total_microseconds d1 = instant dt) as Hinst
    by (rewrite Htot1; reflexivity).
  pose proof (timedelta_new_spec (days d1 + days t) (seconds d1 + seconds t)
                (microseconds d1 + microseconds t)) as H2.
  assert (((days d1 + days t) * 86400 + (seconds d1 + seconds t)) * 1000000
          + (microseconds d1 + microseconds t)
          = instant dt + total_microseconds t) as Esum
    by (rewrite <- Hinst; unfold total_microseconds; lia).
  rewrite Esum in H2. clear Esum.
  set (target := instant dt + total_microseconds t) in *. clearbody target.
  destruct (timedelta_new (days d1 + days t) _ _) as [d2|];
    cbn [mbind option_bind];
    [|Z.to_euclidean_division_equations; lia].
  destruct H2 as (Htot2 & Hs2 & Hus2 & _). unfold total_microseconds in Htot2.
  destruct (Z.ltb_spec 0 (days d2)) as [Hpos | Hneg]; cbn [andb]; [|lia].
  destruct (Z.leb_spec (days d2) 3652059) as [Hmax | Hover]; [|lia].
  destruct (ord2ymd_spec (days d2) ltac:(lia))
    as (y & m & d & E & Hy & Hm & Hd & Hymd).
  pose proof (ord2ymd_year (days d2) y m d ltac:(unfold _MAXORDINAL; lia) E)
    as Hyear.
  rewrite E. split.
  - apply valid_calendar. cbn [year month day hour minute second microsecond].
    rewrite !Z2N.id by (try lia; Z.to_euclidean_division_equations; lia).
    split_and!; try lia; Z.to_euclidean_division_equations; lia.
  - unfold instant at 1, toordinal, day_seconds.
    cbn [year month day hour minute second microsecond].
    rewrite !Z2N.id by (try lia; Z.to_euclidean_division_equations; lia).
    rewrite Hymd, <- Htot2.
    Z.to_euclidean_division_equations. lia.
Qed.

End timedelta_facts.
(* ===================================================================== *)
(** * Claiming: the empty queue and the failed claim *)
(* ===================================================================== *)

Section claim_edges.

Lemma zfirst_empty : zfirst ∅ = None.
Proof. unfold zfirst. by rewrite map_to_list_empty. Qed.

Lemma zfirst_is_Some (z : gmap string Q) : z ≠ ∅ → is_Some (zfirst z).
Proof.
  intros Hz. destruct (zfirst z) eqn:E; [by eexists|].
  by apply zfirst_none in E.
Qed.

(** What [get_next_job] has done when it got past the two checks: the head
    of pending is in flight, and the rest of the call ran in that store. *)
Lemma get_next_job_claimed (now : datetime) (wid : string) (r : redis) :
  zset_key QUEUE_PENDING r = true → list_key QUEUE_PROCESSING r = true →
  Z.of_nat (length (list_of QUEUE_PROCESSING r)) < MAX_CONCURRENT_JOBS →
  ∀ jid score, zfirst (pending_of r) = Some (jid, score) →
  ∃ r2,
    pending_of r2 = delete jid (pending_of r)
    ∧ (pending_of r2 = ∅ → db r2 !! QUEUE_PENDING = None)
    ∧ list_of QUEUE_PROCESSING r2 = jid :: list_of QUEUE_PROCESSING r
    ∧ (∀ k, k ≠ QUEUE_PENDING → k ≠ QUEUE_PROCESSING → db r2 !! k = db r !! k)
    ∧ (∀ k, k ≠ QUEUE_PENDING → k ≠ QUEUE_PROCESSING → ttl r2 !! k = ttl r !! k)
    ∧ get_next_job now wid r
      = (job_data ← hgetall (job_key jid);
         job ← lift (_deserialize_job job_data);
         let job := with_claim now wid job in
         _ ← hset (job_key jid) (_serialize_job job);
         _ ← setex (timeout_key jid) JOB_TIMEOUT_SECONDS "1";
         mret (Some job)) r2.
Proof.
  intros Hpend Hproc Hcap jid score Hfirst.
  unfold get_next_job. rewrite redis_bind_run.
  unfold llen, list_of, list_key in *.
  destruct (db r !! QUEUE_PROCESSING) as [[ |l| | ]|] eqn:Eproc; try done.
  - destruct (Z.geb_spec (Z.of_nat (length l)) MAX_CONCURRENT_JOBS); [lia|].
    rewrite redis_bind_run. unfold zrange_first, pending_of, zset_of, zset_key in *.
    destruct (db r !! QUEUE_PENDING) as [[ | |z| ]|] eqn:Epend; try done.
    rewrite Hfirst. rewrite redis_bind_run. unfold zrem. rewrite Epend.
    case_decide as Hz.
    + rewrite redis_bind_run. unfold lpush. cbn [db drop_key].
      rewrite lookup_delete_ne, Eproc by done.
      eexists. split_and!; [| | | | |reflexivity];
        cbn [db ttl store_key drop_key].
      * rewrite lookup_insert_ne, lookup_delete_eq by done. by rewrite Hz.
      * intros _. by rewrite lookup_insert_ne, lookup_delete_eq.
      * by rewrite lookup_insert_eq.
      * intros k ? ?. by rewrite lookup_insert_ne, lookup_delete_ne.
      * intros k ? ?. by rewrite lookup_delete_ne.
    + rewrite redis_bind_run. unfold lpush. cbn [db store_key].
      rewrite lookup_insert_ne, Eproc by done.
      eexists. split_and!; [| | | | |reflexivity]; cbn [db ttl store_key].
      * by rewrite lookup_insert_ne, lookup_insert_eq.
      * rewrite lookup_insert_ne, lookup_insert_eq by done. done.
      * by rewrite lookup_insert_eq.
      * intros k ? ?. by rewrite !lookup_insert_ne.
      * done.
  - destruct (Z.geb_spec 0 MAX_CONCURRENT_JOBS); [done|].
    rewrite redis_bind_run. unfold zrange_first, pending_of, zset_of, zset_key in *.
    destruct (db r !! QUEUE_PENDING) as [[ | |z| ]|] eqn:Epend; try done.
    rewrite Hfirst. rewrite redis_bind_run. unfold zrem. rewrite Epend.
    case_decide as Hz.
    + rewrite redis_bind_run. unfold lpush. cbn [db drop_key].
      rewrite lookup_delete_ne, Eproc by done.
      eexists. split_and!; [| | | | |reflexivity];
        cbn [db ttl store_key drop_key].
      * rewrite lookup_insert_ne, lookup_delete_eq by done. by rewrite Hz.
      * intros _. by rewrite lookup_insert_ne, lookup_delete_eq.
      * by rewrite lookup_insert_eq.
      * intros k ? ?. by rewrite lookup_insert_ne, lookup_delete_ne.
      * intros k ? ?. by rewrite lookup_delete_ne.
    + rewrite redis_bind_run. unfold lpush. cbn [db store_key].
      rewrite lookup_insert_ne, Eproc by done.
      eexists. split_and!; [| | | | |reflexivity]; cbn [db ttl store_key].
      * by rewrite lookup_insert_ne, lookup_insert_eq.
      * rewrite lookup_insert_ne, lookup_insert_eq by done. done.
      * by rewrite lookup_insert_eq.
      * intros k ? ?. by rewrite !lookup_insert_ne.
      * done.
Qed.

(** The rest of a claim, once the head of pending is in flight: it raises
    and writes nothing when the job hash cannot be read, and otherwise marks
    the job and sets its timeout key. *)
Lemma claim_tail (now : datetime) (wid jid : string) (r2 : redis) :
  let run :=
    (job_data ← hgetall (job_key jid);
     job ← lift (_deserialize_job job_data);
     let job := with_claim now wid job in
     _ ← hset (job_key jid) (_serialize_job job);
     _ ← setex (timeout_key jid) JOB_TIMEOUT_SECONDS "1";
     mret (Some job)) r2 in
  (∃ e, run = (r2, Raise e)
        ∧ (hash_key (job_key jid) r2 = false ∧ e = WrongType
           ∨ hash_key (job_key jid) r2 = true
             ∧ _deserialize_job (hash_of (job_key jid) r2) = Raise e))
  ∨ (∃ job0,
       hash_key (job_key jid) r2 = true
       ∧ _deserialize_job (hash_of (job_key jid) r2) = Ok job0
       ∧ run
         = (mkRedis
              (<[timeout_key jid := RString "1"]>
                 (<[job_key jid :=
                      RHash (_serialize_job (with_claim now wid job0)
                             ∪ hash_of (job_key jid) r2)]> (db r2)))
              (<[timeout_key jid := JOB_TIMEOUT_SECONDS]> (ttl r2))
              (writes r2
               ++ [HSET (job_key jid) (_serialize_job (with_claim now wid job0));
                   SETEX (timeout_key jid) JOB_TIMEOUT_SECONDS "1"]),
            Ok (Some (with_claim now wid job0)))).
Proof.
  cbv zeta. rewrite redis_bind_run. unfold hgetall, hash_key, hash_of.
  destruct (db r2 !! job_key jid) as [[ | | |h]|] eqn:Eh;
    try (left; eexists; split; [reflexivity|]; by left).
  - rewrite redis_bind_run. unfold lift.
    destruct (_deserialize_job h) as [job0|e] eqn:Ejob.
    + right. exists job0. split; [done|]. split; [done|].
      rewrite redis_bind_run. unfold hset. rewrite Eh.
      rewrite redis_bind_run. unfold setex. cbn [db ttl writes store_key].
      by rewrite <- app_assoc.
    + left. exists e. split; [done|]. by right.
  - rewrite redis_bind_run. unfold lift.
    destruct (_deserialize_job ∅) as [job0|e] eqn:Ejob.
    + right. exists job0. split; [done|]. split; [done|].
      rewrite redis_bind_run. unfold hset. rewrite Eh.
      rewrite redis_bind_run. unfold setex. cbn [db ttl writes store_key].
      by rewrite <- app_assoc, (right_id_L ∅ (∪)).
    + left. exists e. split; [done|]. by right.
Qed.

Lemma get_next_job_idle_run (now : datetime) (wid : string) (r : redis) :
  zset_key QUEUE_PENDING r = true → list_key QUEUE_PROCESSING r = true →
  MAX_CONCURRENT_JOBS ≤ Z.of_nat (length (list_of QUEUE_PROCESSING r))
  ∨ pending_of r = ∅ →
  get_next_job now wid r = (r, Ok None).
Proof.
  intros Hpend Hproc Hidle. unfold get_next_job. rewrite redis_bind_run.
  unfold llen, list_of, list_key, pending_of, zset_of, zset_key in *.
  destruct (db r !! QUEUE_PROCESSING) as [[ |l| | ]|] eqn:Eproc; try done.
  - destruct (Z.geb_spec (Z.of_nat (length l)) MAX_CONCURRENT_JOBS); [done|].
    destruct Hidle as [? | Hempty]; [lia|].
    rewrite redis_bind_run. unfold zrange_first.
    destruct (db r !! QUEUE_PENDING) as [[ | |z| ]|]; try done.
    by rewrite Hempty, zfirst_empty.
  - destruct (Z.geb_spec 0 MAX_CONCURRENT_JOBS); [done|].
    destruct Hidle as [? | Hempty]; [cbn in *; lia|].
    rewrite redis_bind_run. unfold zrange_first.
    destruct (db r !! QUEUE_PENDING) as [[ | |z| ]|]; try done.
    by rewrite Hempty, zfirst_empty.
Qed.

Lemma queues_typed_keys (r : redis) :
  queues_typed r = true →
  zset_key QUEUE_PENDING r = true ∧ list_key QUEUE_PROCESSING r = true
  ∧ list_key QUEUE_COMPLETED r = true ∧ list_key QUEUE_FAILED r = true.
Proof. unfold queues_typed. rewrite !andb_true_iff. tauto. Qed.

(** X1. On a store whose queue keys hold what the queue manager keeps in
    them, [get_next_job] returns [None] exactly when the in-flight list is at
    its limit or nothing is pending, and it has then written nothing: a job
    that is pending while a slot is free is never passed over. *)
Theorem get_next_job_none_iff (now : datetime) (wid : string) (r : redis) :
  queues_typed r = true →
  ((∃ r', get_next_job now wid r = (r', Ok None))
   ↔ (MAX_CONCURRENT_JOBS ≤ Z.of_nat (length (list_of QUEUE_PROCESSING r))
      ∨ pending_of r = ∅))
  ∧ (∀ r', get_next_job now wid r = (r', Ok None) → r' = r).
Proof.
  intros (Hpend & Hproc & _)%queues_typed_keys.
  assert (Hnone : ∀ r', get_next_job now wid r = (r', Ok None) →
            MAX_CONCURRENT_JOBS ≤ Z.of_nat (length (list_of QUEUE_PROCESSING r))
            ∨ pending_of r = ∅).
  { intros r' Hrun.
    destruct (Z.le_gt_cases MAX_CONCURRENT_JOBS
                (Z.of_nat (length (list_of QUEUE_PROCESSING r)))) as [|Hcap];
      [by left|]. right.
    destruct (decide (pending_of r = ∅)) as [|Hne]; [done|]. exfalso.
    destruct (zfirst_is_Some _ Hne) as [[jid score] Hfirst].
    destruct (get_next_job_claimed now wid r Hpend Hproc ltac:(lia) jid score
                Hfirst) as (r2 & _ & _ & _ & _ & _ & Hrest).
    rewrite Hrest in Hrun. cbv zeta in Hrun.
    destruct (claim_tail now wid jid r2) as [(e & E & _) | (job0 & _ & _ & E)];
      cbv zeta in E; rewrite E in Hrun; discriminate Hrun. }
  split; [split|].
  - intros [r' Hrun]. by eapply Hnone.
  - intros Hidle. exists r. by apply get_next_job_idle_run.
  - intros r' Hrun. pose proof (Hnone r' Hrun) as Hidle.
    rewrite (get_next_job_idle_run now wid r Hpend Hproc Hidle) in Hrun.
    by injection Hrun.
Qed.

(** X2. When [get_next_job] raises on such a store, it has already taken the
    head of pending and pushed it on the in-flight list, and it leaves it
    there: the job is out of the queue, its hash is as it was, and the slot
    it holds is not given back. *)
Theorem get_next_job_failed_claim (now : datetime) (wid : string)
    (r r' : redis) (e : exn) :
  queues_typed r = true →
  get_next_job now wid r = (r', Raise e) →
  ∃ jid score,
    zfirst (pending_of r) = Some (jid, score)
    ∧ pending_of r' = delete jid (pending_of r)
    ∧ list_of QUEUE_PROCESSING r' = jid :: list_of QUEUE_PROCESSING r
    ∧ db r' !! job_key jid = db r !! job_key jid
    ∧ (e = WrongType
       ∨ _deserialize_job (hash_of (job_key jid) r) = Raise e).
Proof.
  intros (Hpend & Hproc & _)%queues_typed_keys Hrun.
  destruct (Z.le_gt_cases MAX_CONCURRENT_JOBS
              (Z.of_nat (length (list_of QUEUE_PROCESSING r)))) as [Hcap|Hcap].
  { rewrite (get_next_job_idle_run now wid r Hpend Hproc (or_introl Hcap))
      in Hrun. discriminate Hrun. }
  destruct (decide (pending_of r = ∅)) as [Hempty|Hne].
  { rewrite (get_next_job_idle_run now wid r Hpend Hproc (or_intror Hempty))
      in Hrun. discriminate Hrun. }
  destruct (zfirst_is_Some _ Hne) as [[jid score] Hfirst].
  destruct (get_next_job_claimed now wid r Hpend Hproc ltac:(lia) jid score
              Hfirst) as (r2 & Hp & _ & Hl & Hdb & _ & Hrest).
  rewrite Hrest in Hrun. cbv zeta in Hrun. exists jid, score.
  assert (Hkey : db r2 !! job_key jid = db r !! job_key jid)
    by (apply Hdb; apply job_key_queue).
  destruct (claim_tail now wid jid r2) as [(e' & E & He) | (job0 & _ & _ & E)];
    cbv zeta in E; rewrite E in Hrun; [|discriminate Hrun].
  injection Hrun as <- <-. split_and!; try done.
  destruct He as [[_ ->] | [_ He]]; [by left|right].
  unfold hash_of in *. by rewrite <- Hkey.
Qed.

Lemma get_next_job_passed (now : datetime) (wid : string) (r r' : redis)
    (job : ProjectJob) :
  get_next_job now wid r = (r', Ok (Some job)) →
  zset_key QUEUE_PENDING r = true ∧ list_key QUEUE_PROCESSING r = true
  ∧ Z.of_nat (length (list_of QUEUE_PROCESSING r)) < MAX_CONCURRENT_JOBS
  ∧ ∃ jid score, zfirst (pending_of r) = Some (jid, score).
Proof.
  unfold get_next_job. intros H.
  bind_ok H n r1 E. apply llen_ok in E as (-> & -> & Hl).
  destruct (Z.geb_spec (Z.of_nat (length (list_of QUEUE_PROCESSING r)))
              MAX_CONCURRENT_JOBS) as [|Hcap];
    [by apply mret_ok in H as [? ?]|].
  bind_ok H jobs r1 E. apply zrange_first_ok in E as (-> & Hz & ->).
  fold (pending_of r) in *.
  destruct (zfirst (pending_of r)) as [[jid score]|] eqn:Hfirst;
    [|by apply mret_ok in H as [? ?]].
  split_and!; try done. by exists jid, score.
Qed.

(** X3. A job that [get_next_job] returns is marked as taken, in the object
    returned and in the store alike: its status is [processing], its start
    time the reading of the clock and its worker the caller, the hash filed
    under its id says the same, and the timeout key of the job holds [1]
    with a time to live of [JOB_TIMEOUT_SECONDS] (3600). *)
Theorem get_next_job_marks_processing (now : datetime) (wid : string)
    (r r' : redis) (job : ProjectJob) :
  hashes_keyed r = true →
  get_next_job now wid r = (r', Ok (Some job)) →
  status job = PROCESSING
  ∧ started_at job = Some now
  ∧ worker_id job = Some wid
  ∧ hash_of (job_key (job_id job)) r' !! "status" = Some "processing"
  ∧ hash_of (job_key (job_id job)) r' !! "started_at" = Some (isoformat now)
  ∧ hash_of (job_key (job_id job)) r' !! "worker_id" = Some wid
  ∧ db r' !! timeout_key (job_id job) = Some (RString "1")
  ∧ ttl r' !! timeout_key (job_id job) = Some 3600.
Proof.
  intros Hkeyed Hrun.
  destruct (get_next_job_passed _ _ _ _ _ Hrun)
    as (Hpend & Hproc & Hcap & jid & score & Hfirst).
  destruct (get_next_job_claimed now wid r Hpend Hproc Hcap jid score Hfirst)
    as (r2 & _ & _ & _ & Hdb & _ & Hrest).
  rewrite Hrest in Hrun. cbv zeta in Hrun.
  assert (Hkey : db r2 !! job_key jid = db r !! job_key jid)
    by (apply Hdb; apply job_key_queue).
  destruct (claim_tail now wid jid r2) as [(e' & E & _) | (job0 & _ & Hjob & E)];
    cbv zeta in E; rewrite E in Hrun; [discriminate Hrun|].
  injection Hrun as <- <-.
  assert (job_id job0 = jid) as Hid.
  { pose proof (deserialize_job_id _ _ Hjob) as Hfield.
    unfold hash_of in Hjob, Hfield. rewrite Hkey in Hjob, Hfield.
    destruct (db r !! job_key jid) as [[ | | |h]|] eqn:Hk; try done.
    eapply hashes_keyed_lookup; eauto. }
  cbn [with_claim status started_at worker_id job_id]. rewrite Hid.
  assert (timeout_key jid ≠ job_key jid) as Hne.
  { unfold timeout_key, job_key. intros Heq.
    apply String.app_inj in Heq. apply (f_equal String.length) in Heq.
    rewrite string_app_length in Heq. cbn in Heq. lia. }
  unfold hash_of. cbn [db ttl].
  rewrite lookup_insert_ne, !lookup_insert_eq by done.
  destruct (serialize_lookup (with_claim now wid job0))
    as (_ & _ & _ & _ & Est & _ & _ & Estart & _ & _ & _ & Ew).
  split_and!; try done.
  - apply lookup_union_Some_l. by rewrite Est.
  - apply lookup_union_Some_l. by rewrite Estart.
  - apply lookup_union_Some_l. by rewrite Ew.
Qed.

End claim_edges.

(* ===================================================================== *)
(** * What the calls leave untouched *)
(* ===================================================================== *)

Section preserved_readings.

Lemma preserves_bind {A B C} (f : redis → C) (m : Redis A) (g : A → Redis B) :
  preserves f m → (∀ a, preserves f (g a)) → preserves f (m ≫= g).
Proof.
  intros Hm Hg r. rewrite redis_bind_run. specialize (Hm r).
  destruct (m r) as [r1 [a|e]]; cbn [fst] in *; [|done].
  by rewrite Hg.
Qed.

Lemma preserves_ret {A C} (f : redis → C) (a : A) : preserves f (mret a).
Proof. done. Qed.

Lemma preserves_raise {A C} (f : redis → C) (e : exn) :
  preserves f (raise (A := A) e).
Proof. done. Qed.

Lemma preserves_lift {A C} (f : redis → C) (x : result A) : preserves f (lift x).
Proof. done. Qed.

(** The commands that read. *)
Lemma preserves_read {A C} (f : redis → C) (m : Redis A) :
  (∀ r, (m r).1 = r) → preserves f m.
Proof. intros Hm r. by rewrite Hm. Qed.

Lemma llen_reads (key : string) (r : redis) : (llen key r).1 = r.
Proof. unfold llen. by repeat case_match. Qed.

Lemma zcard_reads (key : string) (r : redis) : (zcard key r).1 = r.
Proof. unfold zcard. by repeat case_match. Qed.

Lemma zrank_reads (key member : string) (r : redis) : (zrank key member r).1 = r.
Proof. unfold zrank. by repeat case_match. Qed.

Lemma zrange_first_reads (key : string) (r : redis) : (zrange_first key r).1 = r.
Proof. unfold zrange_first. by repeat case_match. Qed.

Lemma hgetall_reads (key : string) (r : redis) : (hgetall key r).1 = r.
Proof. unfold hgetall. by repeat case_match. Qed.

Lemma get_reads (key : string) (r : redis) : (get key r).1 = r.
Proof. unfold get. by repeat case_match. Qed.

(** The commands that write change the key they are given, and no other. *)
Lemma lpush_db (key value k : string) :
  k ≠ key → preserves (λ r, db r !! k) (lpush key value).
Proof.
  intros Hk r. unfold lpush.
  repeat case_match; cbn [fst db store_key]; by rewrite ?lookup_insert_ne.
Qed.

Lemma lrem_all_db (key value k : string) :
  k ≠ key → preserves (λ r, db r !! k) (lrem_all key value).
Proof.
  intros Hk r. unfold lrem_all.
  repeat case_match; cbn [fst db store_key drop_key served];
    by rewrite ?lookup_insert_ne, ?lookup_delete_ne.
Qed.

Lemma zadd_db (key member k : string) (score : Q) :
  k ≠ key → preserves (λ r, db r !! k) (zadd key member score).
Proof.
  intros Hk r. unfold zadd.
  repeat case_match; cbn [fst db store_key]; by rewrite ?lookup_insert_ne.
Qed.

Lemma zrem_db (key member k : string) :
  k ≠ key → preserves (λ r, db r !! k) (zrem key member).
Proof.
  intros Hk r. unfold zrem.
  repeat case_match; cbn [fst db store_key drop_key served];
    by rewrite ?lookup_insert_ne, ?lookup_delete_ne.
Qed.

Lemma hset_db (key k : string) (m : gmap string string) :
  k ≠ key → preserves (λ r, db r !! k) (hset key m).
Proof.
  intros Hk r. unfold hset.
  repeat case_match; cbn [fst db store_key]; by rewrite ?lookup_insert_ne.
Qed.

Lemma incr_db (key k : string) :
  k ≠ key → preserves (λ r, db r !! k) (incr key).
Proof.
  intros Hk r. unfold incr.
  repeat case_match; cbn [fst db store_key]; by rewrite ?lookup_insert_ne.
Qed.

Lemma expire_db (key k : string) (seconds : Z) :
  preserves (λ r, db r !! k) (expire key seconds).
Proof. intros r. unfold expire. by repeat case_match. Qed.

Lemma setex_db (key value k : string) (seconds : Z) :
  k ≠ key → preserves (λ r, db r !! k) (setex key seconds value).
Proof. intros Hk r. unfold setex. cbn [fst db]. by rewrite lookup_insert_ne. Qed.

(** The times to live. *)
Lemma lpush_ttl (key value k : string) :
  preserves (λ r, ttl r !! k) (lpush key value).
Proof. intros r. unfold lpush. by repeat case_match. Qed.

Lemma lrem_all_ttl (key value k : string) :
  k ≠ key → preserves (λ r, ttl r !! k) (lrem_all key value).
Proof.
  intros Hk r. unfold lrem_all.
  repeat case_match; cbn [fst ttl store_key drop_key served];
    by rewrite ?lookup_delete_ne.
Qed.

Lemma zrem_ttl (key member k : string) :
  k ≠ key → preserves (λ r, ttl r !! k) (zrem key member).
Proof.
  intros Hk r. unfold zrem.
  repeat case_match; cbn [fst ttl store_key drop_key served];
    by rewrite ?lookup_delete_ne.
Qed.

Lemma hset_ttl (key k : string) (m : gmap string string) :
  preserves (λ r, ttl r !! k) (hset key m).
Proof. intros r. unfold hset. by repeat case_match. Qed.

Lemma setex_ttl (key value k : string) (seconds : Z) :
  k ≠ key → preserves (λ r, ttl r !! k) (setex key seconds value).
Proof. intros Hk r. unfold setex. cbn [fst ttl]. by rewrite lookup_insert_ne. Qed.

Lemma expire_ttl (key k : string) (seconds : Z) :
  k ≠ key → preserves (λ r, ttl r !! k) (expire key seconds).
Proof.
  intros Hk r. unfold expire.
  repeat case_match; cbn [fst ttl served]; by rewrite ?lookup_insert_ne.
Qed.

End preserved_readings.

(** Two keys differ, by their text or by a hypothesis. *)
Ltac key_side := first [key_ne | solve [auto]].

(** Settles that a call leaves the reading of a key it does not write. *)
Ltac preserved :=
  repeat first
    [ apply preserves_ret | apply preserves_raise | apply preserves_lift
    | apply preserves_read;
      first [ apply llen_reads | apply zcard_reads | apply zrank_reads
            | apply zrange_first_reads | apply hgetall_reads | apply get_reads ]
    | apply expire_db | apply lpush_ttl | apply hset_ttl
    | apply lpush_db; key_side | apply lrem_all_db; key_side
    | apply zadd_db; key_side | apply zrem_db; key_side
    | apply hset_db; key_side | apply incr_db; key_side
    | apply setex_db; key_side
    | apply lrem_all_ttl; key_side | apply zrem_ttl; key_side
    | apply setex_ttl; key_side | apply expire_ttl; key_side
    | apply preserves_bind; [|intros ?]
    | match goal with
      | |- preserves _ (if ?b then _ else _) => destruct b
      | |- preserves _ (match ?x with [] => _ | _ :: _ => _ end) =>
          destruct x as [|[? ?] ?]
      end ].

Section untouched.

(** A key that is neither a queue key nor the key of a job or of its
    timeout is left alone by a claim. *)
Lemma get_next_job_db (now : datetime) (wid k : string) :
  k ≠ QUEUE_PENDING → k ≠ QUEUE_PROCESSING →
  (∀ jid, k ≠ job_key jid) → (∀ jid, k ≠ timeout_key jid) →
  preserves (λ r, db r !! k) (get_next_job now wid).
Proof. intros ? ? Hj Ht. unfold get_next_job. preserved. Qed.

Lemma complete_job_db (now : datetime) (jid url k : string) :
  k ≠ QUEUE_PROCESSING → k ≠ QUEUE_COMPLETED → k ≠ job_key jid →
  preserves (λ r, db r !! k) (complete_job now jid url).
Proof. intros ? ? ?. unfold complete_job. preserved. Qed.

Lemma fail_job_db (now : datetime) (jid error k : string) :
  k ≠ QUEUE_PROCESSING → k ≠ QUEUE_FAILED → k ≠ job_key jid →
  preserves (λ r, db r !! k) (fail_job now jid error).
Proof. intros ? ? ?. unfold fail_job. preserved. Qed.

(** X4. The monthly counters are written by [submit_job] alone: claiming,
    completing and failing a job leave the counter of every user and month
    as it was, whether the call returns or raises. A job that fails has
    still used up one submission of its user's month. *)
Theorem month_counter_untouched (uid : string) (month : datetime)
    (now : datetime) (wid jid url error : string) (r : redis) :
  monthly_count uid month (get_next_job now wid r).1 = monthly_count uid month r
  ∧ monthly_count uid month (complete_job now jid url r).1
    = monthly_count uid month r
  ∧ monthly_count uid month (fail_job now jid error r).1
    = monthly_count uid month r.
Proof.
  assert (Hcount : ∀ r1 r2,
            db r1 !! month_key uid month = db r2 !! month_key uid month →
            monthly_count uid month r1 = monthly_count uid month r2).
  { intros r1 r2 E. unfold monthly_count, get. rewrite E.
    by destruct (db r2 !! month_key uid month) as [[]|]. }
  split_and!; apply Hcount.
  - apply (get_next_job_db now wid (month_key uid month)); key_ne.
  - apply (complete_job_db now jid url (month_key uid month)); key_ne.
  - apply (fail_job_db now jid error (month_key uid month)); key_ne.
Qed.

(** A [complete_job] call that returns leaves the job hash a time to live
    of seven days. *)
Lemma job_hash_ttl_completed (now : datetime) (jid url : string)
    (r r' : redis) :
  complete_job now jid url r = (r', Ok tt) →
  ttl r' !! job_key jid = Some 604800.
Proof.
  unfold complete_job. intros H.
  bind_ok H n1 r1 E. clear E.
  bind_ok H h r2 E. apply hgetall_ok in E as (-> & _ & _).
  bind_ok H job0 r2 E. apply lift_ok in E as (-> & _).
  bind_ok H n2 r2 E. apply hset_ok in E as (_ & ->).
  bind_ok H n3 r3 E. apply lpush_ok in E as (_ & ->).
  bind_ok H b r4 E. apply mret_ok in H as [-> _].
  unfold expire in E. cbn [db store_key] in E.
  rewrite lookup_insert_ne, lookup_insert_eq in E by key_ne.
  injection E as <- _. cbn [ttl]. apply lookup_insert_eq.
Qed.

(** X5. Only a completed job is given an expiry: a [complete_job] call that
    returns leaves the job hash with a time to live of 604800 seconds (seven
    days), while [submit_job] and [fail_job] never change the time to live
    of the job hash, so that a failed job is kept until it is removed by
    other means. *)
Theorem job_hash_expiry (now : datetime) (jid url error : string)
    (clk : submit_clock) (job : ProjectJob) (r : redis) :
  (∀ r', complete_job now jid url r = (r', Ok tt) →
         ttl r' !! job_key jid = Some 604800)
  ∧ ttl (fail_job now jid error r).1 !! job_key jid = ttl r !! job_key jid
  ∧ ttl (submit_job clk job r).1 !! job_key (job_id job)
    = ttl r !! job_key (job_id job).
Proof.
  split_and!.
  - apply job_hash_ttl_completed.
  - assert (H : preserves (λ r, ttl r !! job_key jid) (fail_job now jid error))
      by (unfold fail_job; preserved).
    apply (H r).
  - assert (H : preserves (λ r, ttl r !! job_key (job_id job))
                  (submit_job clk job)).
    { unfold submit_job, _check_user_limit, _get_queue_position.
      preserved.
      - intros r'. unfold zadd. by repeat case_match.
      - intros r'. unfold incr. by repeat case_match. }
    apply (H r).
Qed.

Lemma lrem_all_run (key value : string) (r : redis) :
  list_key key r = true →
  ∃ r1 n, lrem_all key value r = (r1, Ok n)
          ∧ list_of key r1 = filter (λ x, x ≠ value) (list_of key r)
          ∧ (∀ k, k ≠ key → db r1 !! k = db r !! k).
Proof.
  intros Hl. unfold lrem_all, list_key, list_of in *.
  destruct (db r !! key) as [[ |l| | ]|] eqn:E; try done.
  - destruct (filter _ l) eqn:F; eexists _, _; (split; [reflexivity|]);
      cbn [db store_key drop_key].
    + rewrite lookup_delete_eq. split; [done|].
      intros k Hk. by rewrite lookup_delete_ne.
    + rewrite lookup_insert_eq. split; [done|].
      intros k Hk. by rewrite lookup_insert_ne.
  - eexists _, _. split; [reflexivity|]. cbn [db served]. by rewrite E.
Qed.

Lemma deserialize_empty : _deserialize_job ∅ = Raise (KeyError "job_id").
Proof. reflexivity. Qed.

(** X6. Completing or failing a job of which the store has no hash raises
    [KeyError('job_id')]: the id has been taken off the in-flight list, and
    nothing else is changed, so that no hash is made for it and it is pushed
    on neither the completed nor the failed list. *)
Theorem finish_unknown_job (now : datetime) (jid url error : string)
    (r : redis) :
  list_key QUEUE_PROCESSING r = true →
  db r !! job_key jid = None →
  ∃ r1,
    complete_job now jid url r = (r1, Raise (KeyError "job_id"))
    ∧ fail_job now jid error r = (r1, Raise (KeyError "job_id"))
    ∧ list_of QUEUE_PROCESSING r1
      = filter (λ x, x ≠ jid) (list_of QUEUE_PROCESSING r)
    ∧ (∀ k, k ≠ QUEUE_PROCESSING → db r1 !! k = db r !! k).
Proof.
  intros Hl Hnone.
  destruct (lrem_all_run QUEUE_PROCESSING jid r Hl) as (r1 & n & E & Hlist & Hdb).
  exists r1.
  assert (Hh : hgetall (job_key jid) r1 = (r1, Ok ∅)).
  { unfold hgetall. rewrite Hdb by apply job_key_queue. by rewrite Hnone. }
  unfold complete_job, fail_job.
  rewrite !redis_bind_run, E, !redis_bind_run, Hh, !redis_bind_run.
  unfold lift. rewrite deserialize_empty. done.
Qed.

End untouched.

(* ===================================================================== *)
(** * The quota of a month *)
(* ===================================================================== *)

Section quota_facts.



End quota_facts.
(* ===================================================================== *)
(** * The order of the pending sorted set and the queue position *)
(* ===================================================================== *)

Section sorted_set_order.

Lemma string_ltb_lt (a b : string) :
  String.ltb a b = true ↔ OrderedTypeEx.String_as_OT.lt a b.
Proof.
  unfold String.ltb. rewrite <- OrderedTypeEx.String_as_OT.cmp_lt.
  unfold OrderedTypeEx.String_as_OT.cmp.
  destruct (String.compare a b); naive_solver.
Qed.

Lemma string_ltb_irrefl (a : string) : String.ltb a a = false.
Proof.
  unfold String.ltb.
  pose proof (proj2 (OrderedTypeEx.String_as_OT.cmp_eq a a) eq_refl) as E.
  unfold OrderedTypeEx.String_as_OT.cmp in E. by rewrite E.
Qed.

Lemma string_ltb_trans (a b c : string) :
  String.ltb a b = true → String.ltb b c = true → String.ltb a c = true.
Proof.
  rewrite !string_ltb_lt. apply OrderedTypeEx.String_as_OT.lt_trans.
Qed.

Lemma string_ltb_total (a b : string) :
  a ≠ b → String.ltb a b = true ∨ String.ltb b a = true.
Proof.
  intros Hne. unfold String.ltb. rewrite (String.compare_antisym b a).
  destruct (String.compare a b) eqn:E; cbn; auto.
  by apply String.compare_eq_iff in E.
Qed.

Lemma zlt_irrefl (a : string * Q) : zlt a a = false.
Proof.
  unfold zlt. destruct (Qcompare_spec a.2 a.2) as [_ | H | H];
    [apply string_ltb_irrefl | |]; exfalso; by apply Qlt_irrefl in H.
Qed.

Lemma zlt_trans (a b c : string * Q) :
  zlt a b = true → zlt b c = true → zlt a c = true.
Proof.
  unfold zlt.
  destruct (Qcompare_spec a.2 b.2), (Qcompare_spec b.2 c.2),
    (Qcompare_spec a.2 c.2); try done; try lra.
  apply string_ltb_trans.
Qed.

(** Two members of a sorted set are ordered one way or the other. *)
Lemma zlt_total (a b : string * Q) :
  a.1 ≠ b.1 → zlt a b = true ∨ zlt b a = true.
Proof.
  intros Hne. unfold zlt.
  destruct (Qcompare_spec a.2 b.2), (Qcompare_spec b.2 a.2);
    try lra; auto.
  by apply string_ltb_total.
Qed.

(** The head of a list under [zlt] is preceded by none of its elements. *)
Lemma first_of_list_min (l : list (string * Q)) (x : string * Q) :
  foldr (λ x acc, match acc with
                  | None => Some x
                  | Some y => if zlt x y then Some x else Some y
                  end) None l = Some x →
  ∀ y, y ∈ l → zlt y x = false.
Proof.
  revert x. induction l as [|a l IH]; intros x; [done|].
  cbn [foldr]. destruct (foldr _ None l) as [y|] eqn:E.
  - specialize (IH y eq_refl).
    destruct (zlt a y) eqn:Hlt; intros [= <-].
    + intros z [-> | Hz]%elem_of_cons; [apply zlt_irrefl|].
      destruct (zlt z a) eqn:Hza; [|done].
      pose proof (IH z Hz) as Hzy.
      by rewrite (zlt_trans z a y Hza Hlt) in Hzy.
    + intros z [-> | Hz]%elem_of_cons; [done | by apply IH].
  - intros [= <-]. destruct l as [|b l]; [|cbn [foldr] in E; by repeat case_match].
    intros z ->%list_elem_of_singleton. apply zlt_irrefl.
Qed.

Lemma zfirst_min (z : gmap string Q) (x : string * Q) :
  zfirst z = Some x → ∀ m sc, z !! m = Some sc → zlt (m, sc) x = false.
Proof.
  unfold zfirst. intros H m sc Hm.
  apply (first_of_list_min _ _ H). by apply elem_of_map_to_list.
Qed.

(** The member no member precedes is the head. *)
Lemma zfirst_unique (z : gmap string Q) (m : string) (sc : Q) :
  z !! m = Some sc →
  (∀ m' sc', z !! m' = Some sc' → zlt (m', sc') (m, sc) = false) →
  zfirst z = Some (m, sc).
Proof.
  intros Hm Hmin.
  destruct (zfirst z) as [[m' sc']|] eqn:E;
    [|apply zfirst_none in E; by rewrite E, lookup_empty in Hm].
  pose proof (zfirst_lowest _ _ _ E) as [Hm' _].
  pose proof (zfirst_min _ _ E m sc Hm) as H1.
  pose proof (Hmin m' sc' Hm') as H2.
  destruct (decide (m' = m)) as [-> | Hne].
  - rewrite Hm in Hm'. by injection Hm' as ->.
  - destruct (zlt_total (m', sc') (m, sc) Hne); congruence.
Qed.

Lemma filter_length_lt {A} (P : A → Prop) `{!∀ x, Decision (P x)}
    (l : list A) (x : A) :
  x ∈ l → ¬ P x → (length (filter P l) < length l)%nat.
Proof.
  induction l as [|a l IH]; intros Hin Hx; [by apply elem_of_nil in Hin|].
  pose proof (length_filter P l) as Hle.
  rewrite filter_cons. apply elem_of_cons in Hin as [<- | Hin].
  - rewrite decide_False by done. cbn. lia.
  - specialize (IH Hin Hx). case_decide; cbn; lia.
Qed.

End sorted_set_order.

Section queue_position.

(** X8. The queue position is the place of the job in the order in which the
    workers take the jobs. On a store whose pending key holds a sorted set,
    [_get_queue_position] returns without writing; its answer is 0 exactly
    for an id that is not pending, lies between 1 and the number of pending
    jobs for one that is, and is 1 exactly for the job [zrange] puts first,
    which is the one [get_next_job] takes. *)
Theorem queue_position_head (jid : string) (r : redis) :
  zset_key QUEUE_PENDING r = true →
  ∃ position,
    _get_queue_position jid r = (r, Ok position)
    ∧ (position = 0 ↔ pending_of r !! jid = None)
    ∧ (is_Some (pending_of r !! jid) →
       1 ≤ position ≤ Z.of_nat (size (pending_of r)))
    ∧ (position = 1 ↔ ∃ score, zfirst (pending_of r) = Some (jid, score)).
Proof.
  intros Hz. unfold _get_queue_position. rewrite redis_bind_run.
  unfold zrank, pending_of, zset_of, zset_key in *.
  destruct (db r !! QUEUE_PENDING) as [[ | |z| ]|] eqn:E; try done.
  - destruct (z !! jid) as [sc|] eqn:Hm.
    + eexists. split; [reflexivity|].
      set (before := filter (λ x, zlt x (jid, sc) = true) (map_to_list z)).
      assert (Hlt : (length before < size z)%nat).
      { unfold before. rewrite <- length_map_to_list.
        apply (filter_length_lt _ _ (jid, sc)).
        - by apply elem_of_map_to_list.
        - by rewrite zlt_irrefl. }
      split_and!.
      * split; [lia | done].
      * intros _. lia.
      * split.
        -- intros Hpos. exists sc. apply zfirst_unique; [done|].
           intros m' sc' Hm'. destruct (zlt (m', sc') (jid, sc)) eqn:Hp; [|done].
           assert (Hin : (m', sc') ∈ before).
           { apply list_elem_of_filter. split; [done|].
             by apply elem_of_map_to_list. }
           destruct before; [by apply elem_of_nil in Hin | cbn in Hpos; lia].
        -- intros [score Hfirst].
           pose proof (zfirst_lowest _ _ _ Hfirst) as [Hm' _].
           rewrite Hm in Hm'. injection Hm' as <-.
           assert (before = []) as ->; [|done].
           destruct before as [|[m' sc'] rest] eqn:Hb; [done|]. exfalso.
           assert (Hin : (m', sc') ∈ before) by (rewrite Hb; left).
           apply list_elem_of_filter in Hin as [Hp Hin%elem_of_map_to_list].
           by rewrite (zfirst_min _ _ Hfirst) in Hp.
    + exists 0. split_and!; try done.
      split; [done|]. intros [score [Hm' _]%zfirst_lowest]. congruence.
  - exists 0. rewrite lookup_empty. split_and!; try done.
    split; [done|]. intros [score Hf]. by rewrite zfirst_empty in Hf.
Qed.

End queue_position.
(* ===================================================================== *)
(** * Submission: the unknown tier, and the job a worker receives *)
(* ===================================================================== *)

Section submission_edges.

(** X9. A submission under a tier name that is none of the four, whatever
    the case of its letters, raises the [KeyError] of the tier table once
    the size check has passed, and writes nothing. *)
Theorem submit_job_unknown_tier (clk : submit_clock) (job : ProjectJob)
    (r : redis) (n : Z) :
  llen QUEUE_PENDING r = (r, Ok n) → n < MAX_QUEUE_SIZE →
  upper (tier job) ∉ ["FREE"; "INDIE"; "PRO"; "ENTERPRISE"] →
  ∃ key, submit_job clk job r = (r, Raise (KeyError key)).
Proof.
  intros Hlen Hn Htier. exists (upper (tier job)).
  unfold submit_job. rewrite redis_bind_run, Hlen.
  destruct (Z.geb_spec n MAX_QUEUE_SIZE); [lia|].
  rewrite redis_bind_run, check_user_limit_run.
  unfold TierLimits.getitem.
  repeat match goal with
         | |- context [String.eqb ?a ?b] =>
             destruct (String.eqb_spec a b) as [E|_];
               [exfalso; apply Htier; rewrite E; set_solver|]
         end.
  done.
Qed.

Lemma submit_job_db (clk : submit_clock) (job : ProjectJob) (k : string) :
  k ≠ QUEUE_PENDING → k ≠ job_key (job_id job) →
  k ≠ month_key (user_id job) (counter_now clk) →
  preserves (λ r, db r !! k) (submit_job clk job).
Proof.
  intros ? ? ?. unfold submit_job, _check_user_limit, _get_queue_position.
  preserved.
Qed.

Lemma zfirst_singleton (m : string) (sc : Q) :
  zfirst {[ m := sc ]} = Some (m, sc).
Proof. unfold zfirst. by rewrite map_to_list_singleton. Qed.

(** X10. What is submitted is what a worker receives. After a [submit_job]
    call that returned, a [get_next_job] call that finds a free slot returns
    the submitted job as the codec reads it back, marked as taken: nothing
    else can be pending. The time stamps of the job are those of a Python
    [datetime]. *)
Theorem submit_then_claim (clk : submit_clock) (job : ProjectJob)
    (now : datetime) (wid : string) (r r1 : redis) (rc : receipt) :
  valid (created_at job) = true →
  valid_optional (started_at job) = true →
  valid_optional (completed_at job) = true →
  list_key QUEUE_PROCESSING r = true →
  Z.of_nat (length (list_of QUEUE_PROCESSING r)) < MAX_CONCURRENT_JOBS →
  submit_job clk job r = (r1, Ok rc) →
  ∃ r2,
    get_next_job now wid r1
    = (r2, Ok (Some (with_claim now wid (job_image job))))
    ∧ pending_of r2 = ∅
    ∧ list_of QUEUE_PROCESSING r2 = job_id job :: list_of QUEUE_PROCESSING r.
Proof.
  intros Hc Hs Hd Hl Hcap Hsubmit.
  pose proof (submit_job_db clk job QUEUE_PROCESSING
                ltac:(key_ne) ltac:(key_ne) ltac:(key_ne) r) as Hproc.
  cbn beta in Hproc. rewrite Hsubmit in Hproc. cbn [fst] in Hproc.
  apply submit_job_ok in Hsubmit as (_ & _ & Hpend & Hhash & _).
  assert (Hz1 : zset_key QUEUE_PENDING r1 = true).
  { unfold pending_of, zset_of, zset_key in *.
    by destruct (db r1 !! QUEUE_PENDING) as [[]|]. }
  assert (Hl1 : list_key QUEUE_PROCESSING r1 = true)
    by (unfold list_key in *; by rewrite Hproc).
  assert (Hlist : list_of QUEUE_PROCESSING r1 = list_of QUEUE_PROCESSING r)
    by (unfold list_of; by rewrite Hproc).
  destruct (get_next_job_claimed now wid r1 Hz1 Hl1 ltac:(by rewrite Hlist)
              (job_id job) (job_score (priority job) (score_time clk)))
    as (r2 & Hp2 & _ & Hl2 & Hdb & _ & Hrest).
  { rewrite Hpend. apply zfirst_singleton. }
  rewrite Hrest. cbv zeta.
  assert (Hh2 : hash_of (job_key (job_id job)) r2
                = hash_of (job_key (job_id job)) r1).
  { unfold hash_of. by rewrite Hdb by apply job_key_queue. }
  destruct (claim_tail now wid (job_id job) r2)
    as [(e & E & He) | (job0 & _ & Hjob & E)]; cbv zeta in E; rewrite E.
  - exfalso. destruct He as [[Hk _] | [_ He]].
    + unfold hash_key, hash_of in *.
      destruct (db r2 !! job_key (job_id job)) as [[]|] eqn:Ek; try done;
        rewrite <- Hh2 in Hhash; symmetry in Hhash;
        apply (f_equal (λ m : gmap string string, m !! "job_id")) in Hhash;
        destruct (serialize_lookup job) as [Hid _];
        rewrite (lookup_union_Some_l _ _ _ _ Hid), lookup_empty in Hhash;
        discriminate Hhash.
    + rewrite Hh2, Hhash, deserialize_union, deserialize_serialize in He by done.
      discriminate He.
  - rewrite Hh2, Hhash, deserialize_union, deserialize_serialize in Hjob by done.
    injection Hjob as <-. eexists. split; [reflexivity|].
    unfold pending_of, zset_of, list_of in *. cbn [db].
    rewrite !lookup_insert_ne by key_ne. split.
    + rewrite Hp2, Hpend. apply delete_singleton_eq.
    + by rewrite Hl2, Hproc.
Qed.

End submission_edges.

(* ===================================================================== *)
(** * The in-flight limit *)
(* ===================================================================== *)

Section in_flight_limit.

Lemma redis_bind_store {A B} (m : Redis A) (f : A → Redis B) (r : redis) :
  ((m ≫= f) r).1 = match m r with
                   | (r1, Ok a) => (f a r1).1
                   | (r1, Raise _) => r1
                   end.
Proof. rewrite redis_bind_run. by destruct (m r) as [r1 [a|e]]. Qed.

Lemma list_of_db (key : string) (r r' : redis) :
  db r' !! key = db r !! key → list_of key r' = list_of key r.
Proof. unfold list_of. by intros ->. Qed.

Lemma get_next_job_in_flight (now : datetime) (wid : string) (r : redis) :
  Z.of_nat (length (list_of QUEUE_PROCESSING r)) ≤ MAX_CONCURRENT_JOBS →
  Z.of_nat (length (list_of QUEUE_PROCESSING (get_next_job now wid r).1))
  ≤ MAX_CONCURRENT_JOBS.
Proof.
  intros Hcap.
  destruct (list_key QUEUE_PROCESSING r) eqn:Hl.
  2:{ unfold get_next_job. rewrite redis_bind_store. unfold llen, list_key in *.
      by destruct (db r !! QUEUE_PROCESSING) as [[]|]. }
  destruct (Z.le_gt_cases MAX_CONCURRENT_JOBS
              (Z.of_nat (length (list_of QUEUE_PROCESSING r)))) as [Hfull|Hfree].
  { unfold get_next_job. rewrite redis_bind_store. unfold llen, list_of in *.
    destruct (db r !! QUEUE_PROCESSING) as [[ |l| | ]|] eqn:E; try done.
    destruct (Z.geb_spec (Z.of_nat (length l)) MAX_CONCURRENT_JOBS); [|lia].
    unfold mret, Redis_ret. cbn [fst]. by rewrite E. }
  destruct (zset_key QUEUE_PENDING r) eqn:Hz.
  2:{ unfold get_next_job. rewrite redis_bind_store.
      unfold llen, list_key, list_of, zset_key in *.
      destruct (db r !! QUEUE_PROCESSING) as [[ |l| | ]|] eqn:E; try done;
        cbn [fst];
        match goal with
        | |- context [?a >=? ?b] => destruct (Z.geb_spec a b); [lia|]
        end;
        rewrite redis_bind_store; unfold zrange_first;
        destruct (db r !! QUEUE_PENDING) as [[]|]; try done;
        unfold mret, Redis_ret; cbn [fst]; by rewrite ?E. }
  destruct (decide (pending_of r = ∅)) as [Hempty|Hne].
  { by rewrite (get_next_job_idle_run now wid r Hz Hl (or_intror Hempty)). }
  destruct (zfirst_is_Some _ Hne) as [[jid score] Hfirst].
  destruct (get_next_job_claimed now wid r Hz Hl ltac:(lia) jid score Hfirst)
    as (r2 & _ & _ & Hl2 & _ & _ & Hrest).
  rewrite Hrest.
  assert (Hlen : Z.of_nat (length (list_of QUEUE_PROCESSING r2))
                 ≤ MAX_CONCURRENT_JOBS).
  { rewrite Hl2. cbn [length]. lia. }
  destruct (claim_tail now wid jid r2) as [(e & E & _) | (job0 & _ & _ & E)];
    cbv zeta in E; cbv zeta; rewrite E; cbn [fst]; [done|].
  erewrite list_of_db; [exact Hlen|]. cbn [db].
  by rewrite !lookup_insert_ne by key_ne.
Qed.

Lemma lrem_all_in_flight (key value : string) (r : redis) :
  (length (list_of key (lrem_all key value r).1) ≤ length (list_of key r))%nat.
Proof.
  unfold lrem_all, list_of.
  destruct (db r !! key) as [[ |l| | ]|] eqn:E; cbn [fst]; rewrite ?E; try done.
  - destruct (filter _ l) eqn:F; cbn [fst db drop_key store_key].
    + rewrite lookup_delete_eq. cbn. lia.
    + rewrite lookup_insert_eq, <- F. apply length_filter.
  - cbn [db served]. by rewrite E.
Qed.

Lemma complete_job_in_flight (now : datetime) (jid url : string) (r : redis) :
  (length (list_of QUEUE_PROCESSING (complete_job now jid url r).1)
   ≤ length (list_of QUEUE_PROCESSING r))%nat.
Proof.
  unfold complete_job. rewrite redis_bind_store.
  pose proof (lrem_all_in_flight QUEUE_PROCESSING jid r) as Hrem.
  destruct (lrem_all QUEUE_PROCESSING jid r) as [r1 [n|e]]; [|done].
  cbn [fst] in Hrem.
  match goal with
  | |- context [(?rest r1).1] =>
      assert (Hp : preserves (λ r, db r !! QUEUE_PROCESSING) rest)
        by preserved
  end.
  erewrite list_of_db; [exact Hrem | apply (Hp r1)].
Qed.

Lemma fail_job_in_flight (now : datetime) (jid error : string) (r : redis) :
  (length (list_of QUEUE_PROCESSING (fail_job now jid error r).1)
   ≤ length (list_of QUEUE_PROCESSING r))%nat.
Proof.
  unfold fail_job. rewrite redis_bind_store.
  pose proof (lrem_all_in_flight QUEUE_PROCESSING jid r) as Hrem.
  destruct (lrem_all QUEUE_PROCESSING jid r) as [r1 [n|e]]; [|done].
  cbn [fst] in Hrem.
  match goal with
  | |- context [(?rest r1).1] =>
      assert (Hp : preserves (λ r, db r !! QUEUE_PROCESSING) rest)
        by preserved
  end.
  erewrite list_of_db; [exact Hrem | apply (Hp r1)].
Qed.

Lemma in_flight_capped (r : redis) :
  reachable r →
  Z.of_nat (length (list_of QUEUE_PROCESSING r)) ≤ MAX_CONCURRENT_JOBS.
Proof.
  induction 1 as [| clk job r _ IH | now wid r _ IH | now jid url r _ IH
                  | now jid error r _ IH].
  - done.
  - erewrite list_of_db; [exact IH|].
    apply (submit_job_db clk job QUEUE_PROCESSING); key_ne.
  - by apply get_next_job_in_flight.
  - pose proof (complete_job_in_flight now jid url r). lia.
  - pose proof (fail_job_in_flight now jid error r). lia.
Qed.

(** X11. The in-flight list of a store the queue manager can bring about
    never holds more than [MAX_CONCURRENT_JOBS] (3) ids: [get_next_job] is
    the one call that adds to it, and it does so below the limit only; and
    after a [get_next_job] call the list is never longer than the limit,
    whatever the call returns or raises, if it was not before. *)
Theorem reachable_in_flight (r : redis) (now : datetime) (wid : string) :
  reachable r →
  Z.of_nat (length (list_of QUEUE_PROCESSING r)) ≤ MAX_CONCURRENT_JOBS
  ∧ Z.of_nat (length (list_of QUEUE_PROCESSING (get_next_job now wid r).1))
    ≤ MAX_CONCURRENT_JOBS.
Proof.
  intros Hr. pose proof (in_flight_capped r Hr) as Hcap.
  split; [done | by apply get_next_job_in_flight].
Qed.

End in_flight_limit.

Section queue_stats.

Lemma get_queue_stats_typed (r : redis) :
  queues_typed r = true →
  get_queue_stats r
  = (r, Ok {| stats_pending := Z.of_nat (size (pending_of r));
              stats_processing := Z.of_nat (length (list_of QUEUE_PROCESSING r));
              completed_today := Z.of_nat (length (list_of QUEUE_COMPLETED r));
              failed_today := Z.of_nat (length (list_of QUEUE_FAILED r));
              avg_processing_time_minutes := 12.5%Q;
              estimated_wait_minutes :=
                Z.of_nat (size (pending_of r)) / MAX_CONCURRENT_JOBS * 10 |}).
Proof.
  intros (Hz & Hp & Hc & Hf)%queues_typed_keys.
  unfold pending_of, zset_of, list_of, zset_key, list_key in *.
  destruct (db r !! QUEUE_PENDING) as [[ | |z| ]|] eqn:E1; try done;
    destruct (db r !! QUEUE_PROCESSING) as [[ |l1| | ]|] eqn:E2; try done;
    destruct (db r !! QUEUE_COMPLETED) as [[ |l2| | ]|] eqn:E3; try done;
    destruct (db r !! QUEUE_FAILED) as [[ |l3| | ]|] eqn:E4; try done;
    unfold get_queue_stats, _get_completed_today, _get_failed_today,
      _estimate_wait_time, zcard, llen;
    repeat (cbv beta iota delta [mbind Redis_bind mret Redis_ret];
            rewrite ?E1, ?E2, ?E3, ?E4);
    reflexivity.
Qed.

(** X12. On a store the queue manager can bring about, [get_queue_stats]
    returns and writes nothing. It reports at most one pending job and at
    most [MAX_CONCURRENT_JOBS] in flight, the lengths of the completed and
    failed lists, and an estimated wait of 0 minutes. *)
Theorem reachable_queue_stats (r : redis) :
  reachable r →
  ∃ st,
    get_queue_stats r = (r, Ok st)
    ∧ 0 ≤ stats_pending st ≤ 1
    ∧ 0 ≤ stats_processing st ≤ MAX_CONCURRENT_JOBS
    ∧ completed_today st = Z.of_nat (length (list_of QUEUE_COMPLETED r))
    ∧ failed_today st = Z.of_nat (length (list_of QUEUE_FAILED r))
    ∧ estimated_wait_minutes st = 0.
Proof.
  intros Hr. pose proof (reachable_inv r Hr) as (_ & Htyped & Hone).
  pose proof (in_flight_capped r Hr) as Hcap.
  assert (Hp : (size (pending_of r) ≤ 1)%nat).
  { unfold pending_of, zset_of.
    destruct (db r !! QUEUE_PENDING) as [[ | |z| ]|] eqn:E;
      rewrite ?map_size_empty; try lia.
    by rewrite (Hone z). }
  eexists. split; [by apply get_queue_stats_typed|].
  cbn [stats_pending stats_processing completed_today failed_today
       estimated_wait_minutes].
  split_and!; try done; try lia.
  unfold MAX_CONCURRENT_JOBS. rewrite Z.div_small by lia. done.
Qed.

End queue_stats.
(* ===================================================================== *)
(** * The status report *)
(* ===================================================================== *)

Import Timedelta.

Section status_facts.

(** The estimate is ten minutes for each position. *)
Lemma estimate_start_time_spec (now : datetime) (position : Z) :
  valid now = true → 0 ≤ position →
  match _estimate_start_time now position with
  | Some est =>
      valid est = true
      ∧ instant est = instant now + position * 600000000
  | None =>
      (_MAXORDINAL + 1) * 86400000000 ≤ instant now + position * 600000000
  end.
Proof.
  intros Hv Hpos. unfold _estimate_start_time, POSITION_ESTIMATE_SECONDS.
  cbv zeta.
  assert (position * 600 / 60 * 60 = position * 600) as ->
    by (Z.to_euclidean_division_equations; lia).
  pose proof (timedelta_new_spec 0 (position * 600) 0) as Hdelta.
  pose proof (toordinal_bounds now Hv) as Hord.
  pose proof (instant_day now Hv) as [Hds Hdus].
  unfold _MAXORDINAL in *.
  destruct (timedelta_new 0 (position * 600) 0) as [delta|];
    cbn [mbind option_bind].
  - destruct Hdelta as (Htot & Hs & Hus & _).
    pose proof (datetime_add_spec now delta Hv Hs Hus) as Hadd.
    destruct (datetime_add now delta) as [est|].
    + destruct Hadd as [Hvalid Hinst]. split; [done|]. rewrite Hinst. lia.
    + unfold instant, _MAXORDINAL in *. lia.
  - unfold instant. Z.to_euclidean_division_equations. lia.
Qed.

(** Two dates of the calendar at one instant are the same. *)
Lemma instant_inj (a b : datetime) :
  valid a = true → valid b = true → instant a = instant b → a = b.
Proof.
  intros Ha Hb Heq.
  pose proof (instant_day a Ha) as [Hsa Hua].
  pose proof (instant_day b Hb) as [Hsb Hub].
  pose proof Ha as (_ & Hma & Hda & Hha & Hmia & Hseca & _)%valid_calendar.
  pose proof Hb as (_ & Hmb & Hdb & Hhb & Hmib & Hsecb & _)%valid_calendar.
  unfold instant in Heq.
  assert (toordinal a = toordinal b ∧ day_seconds a = day_seconds b
          ∧ Z.of_N (microsecond a) = Z.of_N (microsecond b))
    as (Hord & Hsec & Hus) by lia.
  unfold toordinal in Hord.
  apply ymd2ord_inj in Hord as (Hy & Hm & Hd); try done.
  unfold day_seconds in Hsec.
  destruct a, b. cbn in *. f_equal; lia.
Qed.

(** What [get_job_status] does with the hash of a job. *)
Lemma get_job_status_hash (now : datetime) (jid : string) (r : redis)
    (h : gmap string string) :
  db r !! job_key jid = Some (RHash h) → h ≠ ∅ →
  get_job_status now jid r
  = match _deserialize_job h with
    | Raise e => (r, Raised (Queue e))
    | Ok job =>
        let response :=
          [ ("job_id", PStr (job_id job));
            ("status", PStr (status_value (status job)));
            ("created_at", PStr (isoformat (created_at job))) ] in
        match status job with
        | QUEUED =>
            match _get_queue_position jid r with
            | (_, Raise e) => (r, Raised (Queue e))
            | (_, Ok position) =>
                match _estimate_start_time now position with
                | None => (r, Raised OverflowError)
                | Some estimated_start =>
                    (r, Returned (dict_update response
                      [ ("queue_position", PInt position);
                        ("estimated_start", PStr (isoformat estimated_start));
                        ("estimated_wait_minutes", PInt (position * 10)) ]))
                end
            end
        | PROCESSING =>
            match started_at job with
            | None => (r, Raised TypeError)
            | Some started =>
                match datetime_sub now started with
                | None => (r, Raised OverflowError)
                | Some delta =>
                    (r, Returned (dict_update response
                      [ ("started_at", PStr (isoformat started));
                        ("elapsed_seconds", PInt (seconds delta));
                        ("worker_id", py_optional_str (worker_id job)) ]))
                end
            end
        | COMPLETED =>
            match completed_at job with
            | None => (r, Raised AttributeError)
            | Some completed =>
                match started_at job with
                | None => (r, Raised TypeError)
                | Some started =>
                    match datetime_sub completed started with
                    | None => (r, Raised OverflowError)
                    | Some delta =>
                        (r, Returned (dict_update response
                          [ ("completed_at", PStr (isoformat completed));
                            ("result_url", py_optional_str (result_url job));
                            ("duration_seconds", PInt (seconds delta)) ]))
                    end
                end
            end
        | FAILED =>
            match completed_at job with
            | None => (r, Raised AttributeError)
            | Some completed =>
                (r, Returned (dict_update response
                  [ ("completed_at", PStr (isoformat completed));
                    ("error", py_optional_str (error_message job)) ]))
            end
        | CANCELLED => (r, Returned response)
        end
    end.
Proof.
  intros Hh Hne. unfold get_job_status.
  unfold mbind, status_bind, Api_bind, mret, status_ret, Api_ret, call, throw,
    required, seconds_between, hgetall, lift.
  rewrite Hh. rewrite decide_False by done.
  destruct (_deserialize_job h) as [job|e]; [|done]. cbv zeta.
  destruct (status job); try done.
  - pose proof (zrank_reads QUEUE_PENDING jid r) as Hread.
    unfold _get_queue_position. rewrite redis_bind_run.
    destruct (zrank QUEUE_PENDING jid r) as [r' [rank|e]]; cbn [fst] in Hread;
      subst r'; [|done].
    unfold mret, Redis_ret. by destruct (_estimate_start_time now _).
  - destruct (started_at job); [|done]. by destruct (datetime_sub now _).
  - destruct (completed_at job); [|done]. destruct (started_at job); [|done].
    by destruct (datetime_sub _ _).
  - by destruct (completed_at job).
Qed.

Lemma get_queue_position_reads (jid : string) (r : redis) :
  (_get_queue_position jid r).1 = r.
Proof.
  unfold _get_queue_position. rewrite redis_bind_store.
  pose proof (zrank_reads QUEUE_PENDING jid r) as Hread.
  by destruct (zrank QUEUE_PENDING jid r) as [r' [rank|e]].
Qed.

Lemma serialize_nonempty (job : ProjectJob) (h : gmap string string) :
  _serialize_job job ∪ h ≠ ∅.
Proof.
  intros Hempty. destruct (serialize_lookup job) as [Hid _].
  apply (f_equal (λ m : gmap string string, m !! "job_id")) in Hempty.
  by rewrite (lookup_union_Some_l _ _ _ _ Hid), lookup_empty in Hempty.
Qed.

Lemma deserialize_nonempty (h : gmap string string) (job : ProjectJob) :
  _deserialize_job h = Ok job → h ≠ ∅.
Proof. intros Hjob ->. by rewrite deserialize_empty in Hjob. Qed.

(** X13. [get_job_status] is a reading: whatever it returns or raises, the
    store is as it was. For an id under which the store has nothing it
    raises [HTTPException] with status code 404 and the detail
    [Job not found]. *)
Theorem get_job_status_reads (now : datetime) (jid : string) (r : redis) :
  (get_job_status now jid r).1 = r
  ∧ (db r !! job_key jid = None →
     get_job_status now jid r
     = (r, Raised (HTTPException 404 "Job not found"))).
Proof.
  split.
  - destruct (db r !! job_key jid) as [v|] eqn:Hk.
    + destruct v as [s|l|z|h];
        try (unfold get_job_status, mbind, status_bind, Api_bind, call,
               hgetall; by rewrite Hk).
      destruct (decide (h = ∅)) as [-> | Hne].
      { unfold get_job_status, mbind, status_bind, Api_bind, call, hgetall,
          throw. by rewrite Hk. }
      rewrite (get_job_status_hash now jid r h Hk Hne).
      pose proof (get_queue_position_reads jid r) as Hpos.
      destruct (_deserialize_job h) as [job|e]; [|done]. cbv zeta.
      destruct (status job); try done.
      * destruct (_get_queue_position jid r) as [r' [position|e]]; [|done].
        by destruct (_estimate_start_time now position).
      * destruct (started_at job); [|done]. by destruct (datetime_sub now _).
      * destruct (completed_at job); [|done]. destruct (started_at job); [|done].
        by destruct (datetime_sub _ _).
      * by destruct (completed_at job).
    + unfold get_job_status, mbind, status_bind, Api_bind, call, hgetall, throw.
      by rewrite Hk.
  - intros Hk.
    unfold get_job_status, mbind, status_bind, Api_bind, call, hgetall, throw.
    by rewrite Hk.
Qed.

Lemma queue_position_singleton (jid : string) (score : Q) (r : redis) :
  pending_of r = {[ jid := score ]} →
  _get_queue_position jid r = (r, Ok 1).
Proof.
  intros Hp. unfold _get_queue_position. rewrite redis_bind_run.
  unfold zrank, pending_of, zset_of in *.
  destruct (db r !! QUEUE_PENDING) as [[ | |z| ]|];
    try (symmetry in Hp; by apply map_non_empty_singleton in Hp).
  subst z. rewrite lookup_singleton_eq, map_to_list_singleton.
  rewrite filter_cons, decide_False by (by rewrite zlt_irrefl).
  by rewrite filter_nil.
Qed.

Lemma submit_job_position (clk : submit_clock) (job : ProjectJob)
    (r r' : redis) (rc : receipt) :
  submit_job clk job r = (r', Ok rc) →
  rc = mkReceipt (job_id job) "queued" 1 10
  ∧ _get_queue_position (job_id job) r' = (r', Ok 1).
Proof.
  intros H. pose proof H as (_ & _ & Hp & _)%submit_job_ok.
  pose proof (queue_position_singleton _ _ _ Hp) as Hpos.
  split; [|done]. unfold submit_job in H.
  bind_ok H n r1 E. apply llen_ok in E as (-> & -> & Hl).
  destruct (_ >=? _) eqn:Hfull; [done|].
  bind_ok H within r1 E. rewrite check_user_limit_run in E.
  injection E as <- Hres. destruct within; [|done]. cbn [negb] in H.
  bind_ok H n1 r1 E. clear E. bind_ok H n2 r2 E. clear E.
  bind_ok H n3 r3 E. clear E. bind_ok H b r4 E. clear E.
  bind_ok H pos r5 E. apply mret_ok in H as [-> ->].
  pose proof (get_queue_position_reads (job_id job) r4) as Hread.
  rewrite E in Hread. cbn [fst] in Hread. subst r4.
  rewrite Hpos in E. by injection E as <-.
Qed.

(** X14. A [submit_job] call that returns always answers that the job is
    first in the queue: its receipt gives the status [queued], the queue
    position 1 and an estimated wait of 10 minutes, whatever else the store
    holds. *)
Theorem submit_job_receipt (clk : submit_clock) (job : ProjectJob)
    (r r' : redis) (rc : receipt) :
  submit_job clk job r = (r', Ok rc) →
  receipt_job_id rc = job_id job
  ∧ receipt_status rc = "queued"
  ∧ receipt_queue_position rc = 1
  ∧ receipt_estimated_wait_minutes rc = 10.
Proof. by intros [-> _]%submit_job_position. Qed.

(** X15. The status of a job that has just been submitted agrees with the
    receipt of the submission: [get_job_status] reports the job as queued at
    position 1 with a wait of 10 minutes, and an estimated start ten
    minutes after the reading of the clock; it raises [OverflowError] when
    that instant is past the last day of the calendar. The time stamps of
    the job are those of a Python [datetime]. *)
Theorem submit_then_status (clk : submit_clock) (job : ProjectJob)
    (now : datetime) (r r1 : redis) (rc : receipt) :
  valid (created_at job) = true →
  valid_optional (started_at job) = true →
  valid_optional (completed_at job) = true →
  status job = QUEUED →
  submit_job clk job r = (r1, Ok rc) →
  get_job_status now (job_id job) r1
  = (r1, match _estimate_start_time now 1 with
         | Some estimated_start =>
             Returned
               [ ("job_id", PStr (job_id job));
                 ("status", PStr "queued");
                 ("created_at", PStr (isoformat (created_at job)));
                 ("queue_position", PInt (receipt_queue_position rc));
                 ("estimated_start", PStr (isoformat estimated_start));
                 ("estimated_wait_minutes",
                  PInt (receipt_estimated_wait_minutes rc)) ]
         | None => Raised OverflowError
         end).
Proof.
  intros Hc Hs Hd Hst Hsubmit.
  pose proof (submit_job_position _ _ _ _ _ Hsubmit) as [-> Hpos].
  apply submit_job_ok in Hsubmit as (_ & _ & _ & Hhash & _).
  assert (∃ h, db r1 !! job_key (job_id job) = Some (RHash h)
               ∧ h = _serialize_job job ∪ hash_of (job_key (job_id job)) r)
    as (h & Hh & ->).
  { unfold hash_of in Hhash at 1.
    destruct (db r1 !! job_key (job_id job)) as [[ | | |h]|];
      try (symmetry in Hhash; by apply serialize_nonempty in Hhash).
    by exists h. }
  rewrite (get_job_status_hash now _ r1 _ Hh (serialize_nonempty _ _)).
  rewrite deserialize_union, deserialize_serialize by done.
  cbn [job_image status job_id created_at]. rewrite Hst, Hpos.
  cbn [receipt_queue_position receipt_estimated_wait_minutes status_value].
  by destruct (_estimate_start_time now 1).
Qed.

Lemma deserialize_started (h : gmap string string) (job : ProjectJob) :
  _deserialize_job h = Ok job →
  optional_datetime h "started_at" = Ok (started_at job)
  ∧ optional_datetime h "completed_at" = Ok (completed_at job).
Proof.
  unfold _deserialize_job. intros H.
  repeat (let a := fresh "a" in let E := fresh "E" in
          apply result_bind_ok in H as (a & E & H)).
  by simplify_eq.
Qed.

(** X16. The elapsed time reported for a job in flight leaves out the whole
    days: it is the number of seconds from the start of the job to the
    reading of the clock, modulo 86400. It lies between 0 and 86399, and two
    readings of the clock at the same time of day, on whatever days, give
    the same report. *)
Theorem status_elapsed_wraps (now now' : datetime) (jid : string) (r : redis)
    (h : gmap string string) (job : ProjectJob) (started : datetime) :
  db r !! job_key jid = Some (RHash h) →
  _deserialize_job h = Ok job →
  status job = PROCESSING →
  started_at job = Some started →
  valid now = true → valid now' = true →
  day_seconds now' = day_seconds now →
  microsecond now' = microsecond now →
  ∃ elapsed response,
    get_job_status now jid r = (r, Returned response)
    ∧ get_job_status now' jid r = (r, Returned response)
    ∧ dict_get "elapsed_seconds" response = Some (PInt elapsed)
    ∧ elapsed = ((instant now - instant started) / 1000000) mod 86400
    ∧ 0 ≤ elapsed < 86400.
Proof.
  intros Hh Hjob Hst Hstart Hv Hv' Hsec Hus.
  pose proof (deserialize_nonempty _ _ Hjob) as Hne.
  pose proof (deserialize_decoded _ _ Hjob) as (_ & _ & Hvs & _).
  rewrite Hstart in Hvs. cbn [valid_optional] in Hvs.
  rewrite !(get_job_status_hash _ jid r h Hh Hne), Hjob. cbv zeta.
  rewrite Hst, Hstart.
  destruct (datetime_sub_spec now started Hv Hvs) as (t & Et & _ & Hb & _).
  destruct (datetime_sub_spec now' started Hv' Hvs) as (t' & Et' & _ & _ & _).
  pose proof (datetime_sub_seconds _ _ _ Hv Hvs Et) as Hs.
  pose proof (datetime_sub_seconds _ _ _ Hv' Hvs Et') as Hs'.
  assert (seconds t' = seconds t) as Heq.
  { rewrite Hs, Hs'. unfold instant. rewrite Hsec, Hus.
    generalize (toordinal now) (toordinal now') (toordinal started)
      (day_seconds now) (day_seconds started) (Z.of_N (microsecond now))
      (Z.of_N (microsecond started)).
    intros. Z.to_euclidean_division_equations. lia. }
  rewrite Et, Et', Heq. exists (seconds t). eexists.
  split; [reflexivity|]. split; [reflexivity|]. split; [reflexivity|].
  by split.
Qed.

(** X17. A job that is completed without having been claimed cannot be
    reported. After a [complete_job] call that returned on a job whose hash
    had no start time, every [get_job_status] call for the job raises
    [TypeError], and writes nothing. The reading of the clock in
    [complete_job] is that of a Python [datetime]. *)
Theorem complete_unclaimed_status (now now' : datetime) (jid url : string)
    (r r' : redis) :
  valid now = true →
  optional_datetime (hash_of (job_key jid) r) "started_at" = Ok None →
  complete_job now jid url r = (r', Ok tt) →
  get_job_status now' jid r' = (r', Raised TypeError).
Proof.
  intros Hv Hnone Hrun.
  apply complete_job_ok in Hrun as (h & job0 & Hh & Hjob & _ & _ & _ & _ & Hh' & _).
  unfold hash_of in Hnone. rewrite Hh in Hnone.
  pose proof (deserialize_started _ _ Hjob) as [Hstart _].
  rewrite Hnone in Hstart. injection Hstart as Hstart.
  pose proof (deserialize_decoded _ _ Hjob) as (_ & Hc & _ & _).
  rewrite (get_job_status_hash now' jid r' _ Hh' (serialize_nonempty _ _)).
  rewrite deserialize_union, deserialize_serialize;
    [|done|by cbn; rewrite <- Hstart|done].
  cbn [job_image with_completion status completed_at started_at].
  by rewrite <- Hstart.
Qed.

(** X18. The report of a job that was claimed and then completed. After
    [get_next_job] has returned a job and [complete_job] has returned for
    it, [get_job_status] reports the job as completed, with the completion
    time and the result URL of the [complete_job] call, and as duration the
    seconds from the reading of the clock in [get_next_job] to that in
    [complete_job], the whole days left out. The two readings are those of a
    Python [datetime], and the store is one in which every job hash is filed
    under the id it records. *)
Theorem claimed_completed_status (now1 now2 now : datetime) (wid url : string)
    (r r1 r2 : redis) (job : ProjectJob) :
  hashes_keyed r = true →
  valid now1 = true → valid now2 = true →
  get_next_job now1 wid r = (r1, Ok (Some job)) →
  complete_job now2 (job_id job) url r1 = (r2, Ok tt) →
  get_job_status now (job_id job) r2
  = (r2, Returned
           [ ("job_id", PStr (job_id job));
             ("status", PStr "completed");
             ("created_at", PStr (isoformat (created_at job)));
             ("completed_at", PStr (isoformat now2));
             ("result_url", PStr url);
             ("duration_seconds",
              PInt (((instant now2 - instant now1) / 1000000) mod 86400)) ]).
Proof.
  intros Hkeyed Hv1 Hv2 Hclaim Hdone.
  apply get_next_job_some in Hclaim
    as (jid & score & job0 & _ & Hjob0 & -> & _ & _ & Hhash1 & _).
  assert (job_id job0 = jid) as Hid.
  { pose proof (deserialize_job_id _ _ Hjob0) as Hfield.
    unfold hash_of in Hjob0, Hfield.
    destruct (db r !! job_key jid) as [[ | | |h]|] eqn:Hk; try done.
    eapply hashes_keyed_lookup; eauto. }
  cbn [with_claim job_id created_at] in *. rewrite Hid in *.
  pose proof (deserialize_decoded _ _ Hjob0) as (_ & Hc0 & _ & Hd0 & _).
  apply complete_job_ok in Hdone
    as (h & job1 & Hh & Hjob1 & _ & _ & _ & _ & Hh2 & _).
  unfold hash_of in Hhash1 at 1. rewrite Hh in Hhash1. subst h.
  rewrite deserialize_union, deserialize_serialize in Hjob1 by done.
  injection Hjob1 as <-.
  rewrite (get_job_status_hash now jid r2 _ Hh2 (serialize_nonempty _ _)).
  rewrite deserialize_union, deserialize_serialize by done.
  cbn [job_image with_completion with_claim status completed_at started_at
       job_id created_at result_url str_optional id status_value].
  destruct (datetime_sub_spec now2 now1 Hv2 Hv1) as (t & Et & _ & _ & _).
  rewrite Et, (datetime_sub_seconds _ _ _ Hv2 Hv1 Et), Hid. reflexivity.
Qed.

(** X19. The estimated start of a job is the reading of the clock plus ten
    minutes for each position in the queue: the estimate is a date of the
    calendar at that instant, and the reading itself for position 0. The
    estimate is refused, with [OverflowError], exactly when that instant
    lies past the last day of the year 9999. The position is one that a
    sorted set can give, below 2^32, for which the float of the code holds
    the number of minutes exactly. *)
Theorem estimate_start_time_instant (now : datetime) (position : Z) :
  valid now = true → 0 ≤ position < 2 ^ 32 →
  match _estimate_start_time now position with
  | Some est =>
      valid est = true
      ∧ instant est = instant now + position * 600000000
      ∧ instant est < (_MAXORDINAL + 1) * 86400000000
      ∧ (position = 0 → est = now)
  | None =>
      (_MAXORDINAL + 1) * 86400000000 ≤ instant now + position * 600000000
  end.
Proof.
  intros Hv [Hpos _].
  pose proof (estimate_start_time_spec now position Hv Hpos) as H.
  destruct (_estimate_start_time now position) as [est|]; [|done].
  destruct H as [Hvalid Hinst]. split_and!; try done.
  - pose proof (toordinal_bounds est Hvalid) as Hord.
    pose proof (instant_day est Hvalid) as [Hds Hdus].
    unfold instant, _MAXORDINAL in *. lia.
  - intros ->. apply instant_inj; try done. lia.
Qed.

End status_facts.
(* ===================================================================== *)
(** * The HTTP interface *)
(* ===================================================================== *)

Section http_facts.

Variable str_exn : exn → string.

(** The priorities of [QueueConfig] are the queue priorities of the tier
    table. *)
Lemma priority_attr_limits (name : string) (prio : Z) :
  priority_attr name = Ok prio →
  ∃ lim, TierLimits.getitem name = Ok lim ∧ queue_priority lim = prio.
Proof.
  unfold priority_attr.
  destruct (String.eqb_spec name "ENTERPRISE") as [-> | _];
    [intros [= <-]; by eexists|].
  destruct (String.eqb_spec name "PRO") as [-> | _];
    [intros [= <-]; by eexists|].
  destruct (String.eqb_spec name "INDIE") as [-> | _];
    [intros [= <-]; by eexists|].
  destruct (String.eqb_spec name "FREE") as [-> | _];
    [intros [= <-]; by eexists|].
  done.
Qed.

(** X20. A request under a tier name that is none of the four, whatever the
    case of its letters, is answered with [HTTPException] of status code 400
    whose detail is the text of the [KeyError] of the priority lookup; the
    store is not written. *)
Theorem create_project_unknown_tier (job_uuid : string) (now : datetime)
    (clk : submit_clock) (uid tr : string) (schema : pyval) (r : redis) :
  upper tr ∉ ["FREE"; "INDIE"; "PRO"; "ENTERPRISE"] →
  ∃ key,
    create_project str_exn job_uuid now clk uid tr schema r
    = (r, Raised (HTTPException 400 (str_exn (KeyError key)))).
Proof.
  intros Htier. exists ("PRIORITY_" +:+ upper tr).
  unfold create_project. rewrite redis_bind_run.
  unfold lift, priority_attr.
  repeat match goal with
         | |- context [String.eqb ?a ?b] =>
             destruct (String.eqb_spec a b) as [E|_];
               [exfalso; apply Htier; rewrite E; set_solver|]
         end.
  done.
Qed.

(** X21. A request that is accepted is answered with status code 202 and
    the receipt of [submit_job] for a job whose id is the UUID drawn for
    it. The job is pending under the score of the queue priority that the
    tier table gives its tier, and its hash records it as queued with that
    priority: the priority constants of the configuration and the tier
    table agree. *)
Theorem create_project_accepted (job_uuid : string) (now : datetime)
    (clk : submit_clock) (uid tr : string) (schema : pyval) (r r' : redis)
    (response : json_response) :
  create_project str_exn job_uuid now clk uid tr schema r
  = (r', Returned response) →
  response = mkJSONResponse 202 (mkReceipt job_uuid "queued" 1 10)
  ∧ ∃ lim,
      TierLimits.getitem (upper tr) = Ok lim
      ∧ pending_of r'
        = {[ job_uuid := job_score (queue_priority lim) (score_time clk) ]}
      ∧ hash_of (job_key job_uuid) r' !! "status" = Some "queued"
      ∧ hash_of (job_key job_uuid) r' !! "priority"
        = Some (str_int (queue_priority lim))
      ∧ hash_of (job_key job_uuid) r' !! "tier" = Some tr
      ∧ hash_of (job_key job_uuid) r' !! "created_at" = Some (isoformat now).
Proof.
  unfold create_project. rewrite redis_bind_run. unfold lift.
  destruct (priority_attr (upper tr)) as [prio|e] eqn:Hprio; [|done].
  destruct (submit_job clk _ r) as [r1 [rc|e]] eqn:Hsubmit; [|done].
  intros [= <- <-].
  destruct (priority_attr_limits _ _ Hprio) as (lim & Hlim & <-).
  pose proof (submit_job_position _ _ _ _ _ Hsubmit) as [-> _].
  apply submit_job_ok in Hsubmit as (_ & _ & Hpend & Hhash & _).
  cbn [new_job job_id priority] in *. split; [done|].
  exists lim. split; [done|]. split; [done|]. rewrite Hhash.
  destruct (serialize_lookup
              (new_job job_uuid now uid tr schema (queue_priority lim)))
    as (_ & _ & Etier & _ & Est & Eprio & Ecreated & _).
  split_and!; apply lookup_union_Some_l; done.
Qed.

End http_facts.

(* ===================================================================== *)
(** * The worker *)
(* ===================================================================== *)

Section worker_facts.

Variable str_exn : exn → string.
Variable generate : ProjectJob → result unit.

Lemma list_key_db (key : string) (r r' : redis) :
  db r' !! key = db r !! key → list_key key r' = list_key key r.
Proof. unfold list_key. by intros ->. Qed.

(** Removing an id from the in-flight list, and whatever follows that does
    not write the list. *)
Lemma lrem_all_releases {A} (jid : string) (rest : Redis A) (r : redis) :
  list_key QUEUE_PROCESSING r = true →
  preserves (λ r, db r !! QUEUE_PROCESSING) rest →
  let r' := ((_ ← lrem_all QUEUE_PROCESSING jid; rest) r).1 in
  list_key QUEUE_PROCESSING r' = true
  ∧ jid ∉ list_of QUEUE_PROCESSING r'.
Proof.
  intros Hl Hrest. cbv zeta. rewrite redis_bind_store.
  destruct (lrem_all_run QUEUE_PROCESSING jid r Hl) as (r1 & n & E & Hlist & _).
  pose proof (lrem_all_ok _ _ _ _ _ E) as (_ & Hl1 & _).
  rewrite E. split.
  - erewrite list_key_db; [exact Hl1 | apply (Hrest r1)].
  - erewrite list_of_db; [|apply (Hrest r1)]. rewrite Hlist.
    intros [Hne _]%list_elem_of_filter. by apply Hne.
Qed.

Lemma complete_job_releases (now : datetime) (jid url : string) (r : redis) :
  list_key QUEUE_PROCESSING r = true →
  list_key QUEUE_PROCESSING (complete_job now jid url r).1 = true
  ∧ jid ∉ list_of QUEUE_PROCESSING (complete_job now jid url r).1.
Proof.
  intros Hl. unfold complete_job. apply lrem_all_releases; [done|]. preserved.
Qed.

Lemma fail_job_releases (now : datetime) (jid error : string) (r : redis) :
  list_key QUEUE_PROCESSING r = true →
  list_key QUEUE_PROCESSING (fail_job now jid error r).1 = true
  ∧ jid ∉ list_of QUEUE_PROCESSING (fail_job now jid error r).1.
Proof.
  intros Hl. unfold fail_job. apply lrem_all_releases; [done|]. preserved.
Qed.


(** The store a claim leaves: the hash of the job reads back as the job
    returned, and the keys of the other lists are as they were. *)
Lemma claimed_job_store (now : datetime) (wid : string) (r r1 : redis)
    (job : ProjectJob) :
  hashes_keyed r = true → valid now = true →
  get_next_job now wid r = (r1, Ok (Some job)) →
  ∃ h1,
    db r1 !! job_key (job_id job) = Some (RHash h1)
    ∧ _deserialize_job h1 = Ok (job_image job)
    ∧ list_key QUEUE_PROCESSING r1 = true
    ∧ db r1 !! QUEUE_COMPLETED = db r !! QUEUE_COMPLETED
    ∧ db r1 !! QUEUE_FAILED = db r !! QUEUE_FAILED.
Proof.
  intros Hkeyed Hv Hclaim.
  pose proof (get_next_job_db now wid QUEUE_COMPLETED ltac:(key_ne)
                ltac:(key_ne) ltac:(intros; key_ne) ltac:(intros; key_ne) r)
    as Hc.
  pose proof (get_next_job_db now wid QUEUE_FAILED ltac:(key_ne)
                ltac:(key_ne) ltac:(intros; key_ne) ltac:(intros; key_ne) r)
    as Hf.
  cbn beta in Hc, Hf. rewrite Hclaim in Hc, Hf. cbn [fst] in Hc, Hf.
  apply get_next_job_some in Hclaim
    as (jid & score & job0 & _ & Hjob0 & -> & _ & Hlist & Hhash1 & _).
  assert (job_id job0 = jid) as Hid.
  { pose proof (deserialize_job_id _ _ Hjob0) as Hfield.
    unfold hash_of in Hjob0, Hfield.
    destruct (db r !! job_key jid) as [[ | | |h]|] eqn:Hk; try done.
    eapply hashes_keyed_lookup; eauto. }
  cbn [with_claim job_id]. rewrite Hid.
  pose proof (deserialize_decoded _ _ Hjob0) as (_ & Hc0 & _ & Hd0 & _).
  assert (∃ h1, db r1 !! job_key jid = Some (RHash h1)
                ∧ h1 = _serialize_job (with_claim now wid job0)
                       ∪ hash_of (job_key jid) r) as (h1 & Hh1 & ->).
  { unfold hash_of in Hhash1 at 1.
    destruct (db r1 !! job_key jid) as [[ | | |h]|];
      try (symmetry in Hhash1; by apply serialize_nonempty in Hhash1).
    by exists h. }
  eexists. split; [exact Hh1|].
  rewrite deserialize_union, deserialize_serialize by done.
  split; [done|]. split; [|done].
  unfold list_key, list_of in *.
  by destruct (db r1 !! QUEUE_PROCESSING) as [[]|].
Qed.

(** X23. A turn of the worker loop in which the generation returns. When
    [get_next_job] returns a job and the generation of the project returns,
    the turn ends without a pause and leaves the job completed: its hash
    records the status [completed], the time of completion and the URL
    [https://storage.yourcloud.com/projects/<job_id>.zip], its id heads the
    completed list and is off the in-flight list, and the hash expires
    after seven days. *)
Theorem worker_turn_completes (clk : worker_clock) (wid : string)
    (r r1 : redis) (job : ProjectJob) :
  hashes_keyed r = true →
  valid (claimed_now clk) = true →
  list_key QUEUE_COMPLETED r = true →
  get_next_job (claimed_now clk) wid r = (r1, Ok (Some job)) →
  generate job = Ok tt →
  ∃ r2,
    worker_turn str_exn generate clk wid r = (r2, 0)
    ∧ hash_of (job_key (job_id job)) r2 !! "status" = Some "completed"
    ∧ hash_of (job_key (job_id job)) r2 !! "completed_at"
      = Some (isoformat (completed_now clk))
    ∧ hash_of (job_key (job_id job)) r2 !! "result_url"
      = Some ("https://storage.yourcloud.com/projects/" +:+ job_id job
              +:+ ".zip")
    ∧ list_of QUEUE_COMPLETED r2 = job_id job :: list_of QUEUE_COMPLETED r
    ∧ (job_id job ∉ list_of QUEUE_PROCESSING r2)
    ∧ ttl r2 !! job_key (job_id job) = Some 604800.
Proof.
  intros Hkeyed Hv Hcompleted Hclaim Hgen.
  destruct (claimed_job_store _ _ _ _ _ Hkeyed Hv Hclaim)
    as (h1 & Hh1 & Hjob1 & Hl1 & Hc1 & _).
  assert (Hlc1 : list_key QUEUE_COMPLETED r1 = true)
    by (by rewrite (list_key_db _ _ _ Hc1)).
  destruct (complete_job_run (completed_now clk) (job_id job)
              (_upload_result (job_id job)) r1 h1 _ Hl1 Hlc1 Hh1 Hjob1)
    as [r2 Hrun].
  exists r2. unfold worker_turn. rewrite Hclaim.
  unfold process_claimed. rewrite redis_bind_run.
  unfold lift, _process_project. rewrite Hgen. cbn [mbind result_bind].
  rewrite Hrun. split; [done|].
  pose proof (job_hash_ttl_completed _ _ _ _ _ Hrun) as Httl.
  pose proof (complete_job_releases (completed_now clk) (job_id job)
                (_upload_result (job_id job)) r1 Hl1) as [_ Hout].
  rewrite Hrun in Hout. cbn [fst] in Hout.
  apply complete_job_ok in Hrun
    as (h & job0 & Hh & Hjob & _ & _ & _ & Hlist & Hh2 & _).
  unfold hash_of. rewrite Hh2.
  destruct (serialize_lookup
              (with_completion (completed_now clk)
                 (_upload_result (job_id job)) job0))
    as (_ & _ & _ & _ & Est & _ & _ & _ & Edone & _ & Eurl & _).
  split_and!; try done; try (apply lookup_union_Some_l; done).
  rewrite Hlist. unfold list_of. by rewrite Hc1.
Qed.

(** X24. A turn of the worker loop in which the generation raises. When
    [get_next_job] returns a job and the generation of the project raises an
    exception, the turn ends without a pause and leaves the job failed: its
    hash records the status [failed], the time of the failure and the text
    of the exception as error message, its id heads the failed list and is
    off the in-flight list, and nothing is added to the completed list. *)
Theorem worker_turn_fails (clk : worker_clock) (wid : string)
    (r r1 : redis) (job : ProjectJob) (e : exn) :
  hashes_keyed r = true →
  valid (claimed_now clk) = true →
  list_key QUEUE_FAILED r = true →
  get_next_job (claimed_now clk) wid r = (r1, Ok (Some job)) →
  generate job = Raise e →
  ∃ r2,
    worker_turn str_exn generate clk wid r = (r2, 0)
    ∧ hash_of (job_key (job_id job)) r2 !! "status" = Some "failed"
    ∧ hash_of (job_key (job_id job)) r2 !! "completed_at"
      = Some (isoformat (failed_now clk))
    ∧ hash_of (job_key (job_id job)) r2 !! "error_message"
      = Some (str_exn e)
    ∧ list_of QUEUE_FAILED r2 = job_id job :: list_of QUEUE_FAILED r
    ∧ (job_id job ∉ list_of QUEUE_PROCESSING r2)
    ∧ list_of QUEUE_COMPLETED r2 = list_of QUEUE_COMPLETED r.
Proof.
  intros Hkeyed Hv Hfailed Hclaim Hgen.
  destruct (claimed_job_store _ _ _ _ _ Hkeyed Hv Hclaim)
    as (h1 & Hh1 & Hjob1 & Hl1 & Hc1 & Hf1).
  assert (Hlf1 : list_key QUEUE_FAILED r1 = true)
    by (by rewrite (list_key_db _ _ _ Hf1)).
  destruct (fail_job_run (failed_now clk) (job_id job) (str_exn e) r1 h1 _
              Hl1 Hlf1 Hh1 Hjob1) as [r2 Hrun].
  exists r2. unfold worker_turn. rewrite Hclaim.
  unfold process_claimed. rewrite redis_bind_run.
  unfold lift, _process_project. rewrite Hgen. cbn [mbind result_bind].
  rewrite Hrun. split; [done|].
  pose proof (fail_job_releases (failed_now clk) (job_id job) (str_exn e) r1
                Hl1) as [_ Hout].
  rewrite Hrun in Hout. cbn [fst] in Hout.
  apply fail_job_ok in Hrun
    as (h & job0 & Hh & Hjob & _ & Hlist & Hh2 & _ & Hc2).
  unfold hash_of. rewrite Hh2.
  destruct (serialize_lookup
              (with_failure (failed_now clk) (str_exn e) job0))
    as (_ & _ & _ & _ & Est & _ & _ & _ & Edone & Eerr & _).
  split_and!; try done; try (apply lookup_union_Some_l; done).
  - rewrite Hlist. unfold list_of. by rewrite Hf1.
  - unfold list_of. by rewrite Hc2, Hc1.
Qed.

End worker_facts.
(* ===================================================================== *)
(** * The codec: unset fields, and reading back what was read *)
(* ===================================================================== *)

Section codec_edges.

(** X25. What the codec does to the fields that are not set. A job whose
    error message, result URL or worker id is [None] comes back from
    [_deserialize_job] after [_serialize_job] with the four-letter string
    [None] in that field, and with its queue position and estimated start
    unset whatever they were; the other fields of the report come back as
    they were. The time stamps of the job are those of a Python
    [datetime]. *)
Theorem serialize_unset_fields (job : ProjectJob) :
  valid (created_at job) = true →
  valid_optional (started_at job) = true →
  valid_optional (completed_at job) = true →
  ∃ job',
    _deserialize_job (_serialize_job job) = Ok job'
    ∧ (error_message job = None → error_message job' = Some "None")
    ∧ (result_url job = None → result_url job' = Some "None")
    ∧ (worker_id job = None → worker_id job' = Some "None")
    ∧ queue_position job' = None
    ∧ estimated_start job' = None
    ∧ job_id job' = job_id job ∧ status job' = status job
    ∧ priority job' = priority job ∧ created_at job' = created_at job
    ∧ started_at job' = started_at job
    ∧ completed_at job' = completed_at job.
Proof.
  intros Hc Hs Hd. exists (job_image job).
  rewrite deserialize_serialize by done.
  unfold job_image. cbn. split_and!; try done; by intros ->.
Qed.

Lemma deserialize_optional (h : gmap string string) (job : ProjectJob) :
  _deserialize_job h = Ok job →
  error_message job = h !! "error_message"
  ∧ result_url job = h !! "result_url"
  ∧ worker_id job = h !! "worker_id".
Proof.
  unfold _deserialize_job. intros H.
  repeat (let a := fresh "a" in let E := fresh "E" in
          apply result_bind_ok in H as (a & E & H)).
  by simplify_eq.
Qed.

(** X26. Reading a job and writing it back changes nothing that is read
    again. A job that [_deserialize_job] returns from a hash holding the
    three optional string fields comes back unchanged from
    [_deserialize_job] after [_serialize_job]: the calls that read a job,
    set some of its fields and write it back leave the other fields as the
    hash had them. *)
Theorem deserialize_stable (h : gmap string string) (job : ProjectJob) :
  _deserialize_job h = Ok job →
  is_Some (h !! "error_message") →
  is_Some (h !! "result_url") →
  is_Some (h !! "worker_id") →
  _deserialize_job (_serialize_job job) = Ok job.
Proof.
  intros Hjob [e He] [u Hu] [w Hw].
  pose proof (deserialize_decoded _ _ Hjob) as Hdec.
  pose proof (deserialize_optional _ _ Hjob) as (Ee & Eu & Ew).
  rewrite He in Ee. rewrite Hu in Eu. rewrite Hw in Ew.
  pose proof Hdec as (_ & Hc & Hs & Hd & Hq & Hest).
  rewrite deserialize_serialize, job_image_decoded by done.
  destruct job. cbn in *. by subst.
Qed.

End codec_edges.
(* ===================================================================== *)
(** * The properties on the worked scenario *)
(* ===================================================================== *)

Import Timedelta.

Section scenario_checks.

Example ghost_claim_sample :
  get_next_job now1 "worker-0" ghost_store
  = (ghost_claimed_store, Raise (KeyError "job_id")).
Proof. vm_compute. reflexivity. Qed.

Example complete_unclaimed_sample :
  complete_job now2 "j1" sample_url queued_store
  = (unclaimed_completed_store, Ok tt).
Proof. vm_compute. reflexivity. Qed.

Example queued_store_unstarted :
  optional_datetime (hash_of (job_key "j1") queued_store) "started_at"
  = Ok None.
Proof. vm_compute. reflexivity. Qed.

Example queued_store_lists :
  list_key QUEUE_COMPLETED queued_store = true
  ∧ list_key QUEUE_FAILED queued_store = true.
Proof. split; vm_compute; reflexivity. Qed.

Example gold_tier_unknown :
  upper "gold" ∉ ["FREE"; "INDIE"; "PRO"; "ENTERPRISE"].
Proof.
  intros H. repeat (apply elem_of_cons in H as [H | H]; [discriminate H|]).
  by apply elem_of_nil in H.
Qed.

Example claimed_hash_optional :
  is_Some (hash_of (job_key "j1") claimed_store !! "error_message")
  ∧ is_Some (hash_of (job_key "j1") claimed_store !! "result_url")
  ∧ is_Some (hash_of (job_key "j1") claimed_store !! "worker_id").
Proof. split_and!; vm_compute; by eexists. Qed.

Lemma get_next_job_none_iff_witness :
  queues_typed empty_redis = true
  ∧ ((∃ r', get_next_job now1 "worker-0" empty_redis = (r', Ok None))
     ↔ (MAX_CONCURRENT_JOBS
        ≤ Z.of_nat (length (list_of QUEUE_PROCESSING empty_redis))
        ∨ pending_of empty_redis = ∅))
  ∧ (∀ r', get_next_job now1 "worker-0" empty_redis = (r', Ok None) →
           r' = empty_redis).
Proof.
  split; [reflexivity|].
  exact (get_next_job_none_iff now1 "worker-0" empty_redis eq_refl).
Defined.

Lemma get_next_job_failed_claim_witness :
  queues_typed ghost_store = true
  ∧ get_next_job now1 "worker-0" ghost_store
    = (ghost_claimed_store, Raise (KeyError "job_id"))
  ∧ ∃ jid score,
      zfirst (pending_of ghost_store) = Some (jid, score)
      ∧ pending_of ghost_claimed_store = delete jid (pending_of ghost_store)
      ∧ list_of QUEUE_PROCESSING ghost_claimed_store
        = jid :: list_of QUEUE_PROCESSING ghost_store
      ∧ db ghost_claimed_store !! job_key jid = db ghost_store !! job_key jid
      ∧ (KeyError "job_id" = WrongType
         ∨ _deserialize_job (hash_of (job_key jid) ghost_store)
           = Raise (KeyError "job_id")).
Proof.
  assert (H : queues_typed ghost_store = true) by (vm_compute; reflexivity).
  split; [exact H|]. split; [exact ghost_claim_sample|].
  exact (get_next_job_failed_claim now1 "worker-0" ghost_store
           ghost_claimed_store (KeyError "job_id") H ghost_claim_sample).
Defined.

Lemma get_next_job_marks_processing_witness :
  hashes_keyed queued_store = true
  ∧ get_next_job now1 "worker-0" queued_store
    = (claimed_store, Ok (Some claimed_job))
  ∧ status claimed_job = PROCESSING
  ∧ started_at claimed_job = Some now1
  ∧ worker_id claimed_job = Some "worker-0"
  ∧ hash_of (job_key (job_id claimed_job)) claimed_store !! "status"
    = Some "processing"
  ∧ hash_of (job_key (job_id claimed_job)) claimed_store !! "started_at"
    = Some (isoformat now1)
  ∧ hash_of (job_key (job_id claimed_job)) claimed_store !! "worker_id"
    = Some "worker-0"
  ∧ db claimed_store !! timeout_key (job_id claimed_job) = Some (RString "1")
  ∧ ttl claimed_store !! timeout_key (job_id claimed_job) = Some 3600.
Proof.
  split; [exact queued_store_keyed|]. split; [exact claim_sample|].
  exact (get_next_job_marks_processing now1 "worker-0" queued_store
           claimed_store claimed_job queued_store_keyed claim_sample).
Defined.

Lemma finish_unknown_job_witness :
  list_key QUEUE_PROCESSING empty_redis = true
  ∧ db empty_redis !! job_key "j0" = None
  ∧ ∃ r1,
      complete_job now2 "j0" sample_url empty_redis
      = (r1, Raise (KeyError "job_id"))
      ∧ fail_job now2 "j0" "boom" empty_redis
        = (r1, Raise (KeyError "job_id"))
      ∧ list_of QUEUE_PROCESSING r1
        = filter (λ x, x ≠ "j0") (list_of QUEUE_PROCESSING empty_redis)
      ∧ (∀ k, k ≠ QUEUE_PROCESSING → db r1 !! k = db empty_redis !! k).
Proof.
  split; [reflexivity|]. split; [reflexivity|].
  exact (finish_unknown_job now2 "j0" sample_url "boom" empty_redis
           eq_refl eq_refl).
Defined.


Lemma queue_position_head_witness :
  zset_key QUEUE_PENDING ghost_store = true
  ∧ ∃ position,
      _get_queue_position "ghost" ghost_store = (ghost_store, Ok position)
      ∧ (position = 0 ↔ pending_of ghost_store !! "ghost" = None)
      ∧ (is_Some (pending_of ghost_store !! "ghost") →
         1 ≤ position ≤ Z.of_nat (size (pending_of ghost_store)))
      ∧ (position = 1
         ↔ ∃ score, zfirst (pending_of ghost_store) = Some ("ghost", score)).
Proof.
  assert (H : zset_key QUEUE_PENDING ghost_store = true)
    by (vm_compute; reflexivity).
  split; [exact H|]. exact (queue_position_head "ghost" ghost_store H).
Defined.

Lemma submit_job_unknown_tier_witness :
  llen QUEUE_PENDING empty_redis = (empty_redis, Ok 0)
  ∧ 0 < MAX_QUEUE_SIZE
  ∧ (upper (tier gold_job) ∉ ["FREE"; "INDIE"; "PRO"; "ENTERPRISE"])
  ∧ ∃ key, submit_job clk0 gold_job empty_redis
             = (empty_redis, Raise (KeyError key)).
Proof.
  split; [reflexivity|]. split; [reflexivity|].
  split; [exact gold_tier_unknown|].
  exact (submit_job_unknown_tier clk0 gold_job empty_redis 0 eq_refl eq_refl
           gold_tier_unknown).
Defined.

Lemma submit_then_claim_witness :
  valid (created_at sample_job) = true
  ∧ valid_optional (started_at sample_job) = true
  ∧ valid_optional (completed_at sample_job) = true
  ∧ list_key QUEUE_PROCESSING empty_redis = true
  ∧ Z.of_nat (length (list_of QUEUE_PROCESSING empty_redis))
    < MAX_CONCURRENT_JOBS
  ∧ submit_job clk0 sample_job empty_redis
    = (queued_store, Ok (mkReceipt "j1" "queued" 1 10))
  ∧ ∃ r2,
      get_next_job now1 "worker-0" queued_store
      = (r2, Ok (Some (with_claim now1 "worker-0" (job_image sample_job))))
      ∧ pending_of r2 = ∅
      ∧ list_of QUEUE_PROCESSING r2
        = job_id sample_job :: list_of QUEUE_PROCESSING empty_redis.
Proof.
  split; [reflexivity|]. split; [reflexivity|]. split; [reflexivity|].
  split; [reflexivity|]. split; [reflexivity|]. split; [exact submit_sample|].
  exact (submit_then_claim clk0 sample_job now1 "worker-0" empty_redis
           queued_store (mkReceipt "j1" "queued" 1 10) eq_refl eq_refl eq_refl
           eq_refl eq_refl submit_sample).
Defined.

Lemma reachable_in_flight_witness :
  reachable claimed_store
  ∧ Z.of_nat (length (list_of QUEUE_PROCESSING claimed_store))
    ≤ MAX_CONCURRENT_JOBS
  ∧ Z.of_nat (length (list_of QUEUE_PROCESSING
                        (get_next_job now2 "worker-1" claimed_store).1))
    ≤ MAX_CONCURRENT_JOBS.
Proof.
  pose proof sample_stores_reachable as (_ & H & _).
  split; [exact H|].
  exact (reachable_in_flight claimed_store now2 "worker-1" H).
Defined.

Lemma reachable_queue_stats_witness :
  reachable claimed_store
  ∧ ∃ st,
      get_queue_stats claimed_store = (claimed_store, Ok st)
      ∧ 0 ≤ stats_pending st ≤ 1
      ∧ 0 ≤ stats_processing st ≤ MAX_CONCURRENT_JOBS
      ∧ completed_today st
        = Z.of_nat (length (list_of QUEUE_COMPLETED claimed_store))
      ∧ failed_today st
        = Z.of_nat (length (list_of QUEUE_FAILED claimed_store))
      ∧ estimated_wait_minutes st = 0.
Proof.
  pose proof sample_stores_reachable as (_ & H & _).
  split; [exact H|]. exact (reachable_queue_stats claimed_store H).
Defined.

Lemma reachable_pending_witness :
  reachable queued_store ∧ (size (pending_of queued_store) ≤ 1)%nat.
Proof.
  pose proof sample_stores_reachable as (H & _).
  split; [exact H|]. exact (reachable_pending queued_store H).
Defined.

Lemma reachable_keyed_witness :
  reachable completed_store ∧ hashes_keyed completed_store = true.
Proof.
  pose proof sample_stores_reachable as (_ & _ & H).
  split; [exact H|]. exact (reachable_keyed completed_store H).
Defined.

Lemma submit_job_receipt_witness :
  submit_job clk0 sample_job empty_redis
  = (queued_store, Ok (mkReceipt "j1" "queued" 1 10))
  ∧ receipt_job_id (mkReceipt "j1" "queued" 1 10) = job_id sample_job
  ∧ receipt_status (mkReceipt "j1" "queued" 1 10) = "queued"
  ∧ receipt_queue_position (mkReceipt "j1" "queued" 1 10) = 1
  ∧ receipt_estimated_wait_minutes (mkReceipt "j1" "queued" 1 10) = 10.
Proof.
  split; [exact submit_sample|].
  exact (submit_job_receipt clk0 sample_job empty_redis queued_store
           (mkReceipt "j1" "queued" 1 10) submit_sample).
Defined.

Lemma submit_then_status_witness :
  valid (created_at sample_job) = true
  ∧ valid_optional (started_at sample_job) = true
  ∧ valid_optional (completed_at sample_job) = true
  ∧ status sample_job = QUEUED
  ∧ submit_job clk0 sample_job empty_redis
    = (queued_store, Ok (mkReceipt "j1" "queued" 1 10))
  ∧ get_job_status now1 (job_id sample_job) queued_store
    = (queued_store,
       match _estimate_start_time now1 1 with
       | Some estimated_start =>
           Returned
             [ ("job_id", PStr (job_id sample_job));
               ("status", PStr "queued");
               ("created_at", PStr (isoformat (created_at sample_job)));
               ("queue_position",
                PInt (receipt_queue_position (mkReceipt "j1" "queued" 1 10)));
               ("estimated_start", PStr (isoformat estimated_start));
               ("estimated_wait_minutes",
                PInt (receipt_estimated_wait_minutes
                        (mkReceipt "j1" "queued" 1 10))) ]
       | None => Raised OverflowError
       end).
Proof.
  split; [reflexivity|]. split; [reflexivity|]. split; [reflexivity|].
  split; [reflexivity|]. split; [exact submit_sample|].
  exact (submit_then_status clk0 sample_job now1 empty_redis queued_store
           (mkReceipt "j1" "queued" 1 10) eq_refl eq_refl eq_refl eq_refl
           submit_sample).
Defined.

Lemma status_elapsed_wraps_witness :
  db claimed_store !! job_key "j1"
  = Some (RHash (hash_of (job_key "j1") claimed_store))
  ∧ _deserialize_job (hash_of (job_key "j1") claimed_store)
    = Ok (job_image claimed_job)
  ∧ status (job_image claimed_job) = PROCESSING
  ∧ started_at (job_image claimed_job) = Some now1
  ∧ valid now2 = true ∧ valid now2_next_day = true
  ∧ day_seconds now2_next_day = day_seconds now2
  ∧ microsecond now2_next_day = microsecond now2
  ∧ ∃ elapsed response,
      get_job_status now2 "j1" claimed_store = (claimed_store, Returned response)
      ∧ get_job_status now2_next_day "j1" claimed_store
        = (claimed_store, Returned response)
      ∧ dict_get "elapsed_seconds" response = Some (PInt elapsed)
      ∧ elapsed = ((instant now2 - instant now1) / 1000000) mod 86400
      ∧ 0 ≤ elapsed < 86400.
Proof.
  pose proof claimed_store_hash as [Hh Hjob].
  split; [exact Hh|]. split; [exact Hjob|].
  split; [reflexivity|]. split; [reflexivity|]. split; [reflexivity|].
  split; [reflexivity|]. split; [reflexivity|]. split; [reflexivity|].
  exact (status_elapsed_wraps now2 now2_next_day "j1" claimed_store
           (hash_of (job_key "j1") claimed_store) (job_image claimed_job) now1
           Hh Hjob eq_refl eq_refl eq_refl eq_refl eq_refl eq_refl).
Defined.

Lemma complete_unclaimed_status_witness :
  valid now2 = true
  ∧ optional_datetime (hash_of (job_key "j1") queued_store) "started_at"
    = Ok None
  ∧ complete_job now2 "j1" sample_url queued_store
    = (unclaimed_completed_store, Ok tt)
  ∧ get_job_status now3 "j1" unclaimed_completed_store
    = (unclaimed_completed_store, Raised TypeError).
Proof.
  split; [reflexivity|]. split; [exact queued_store_unstarted|].
  split; [exact complete_unclaimed_sample|].
  exact (complete_unclaimed_status now2 now3 "j1" sample_url queued_store
           unclaimed_completed_store eq_refl queued_store_unstarted
           complete_unclaimed_sample).
Defined.

Lemma claimed_completed_status_witness :
  hashes_keyed queued_store = true
  ∧ valid now1 = true ∧ valid now2 = true
  ∧ get_next_job now1 "worker-0" queued_store
    = (claimed_store, Ok (Some claimed_job))
  ∧ complete_job now2 (job_id claimed_job) sample_url claimed_store
    = (completed_store, Ok tt)
  ∧ get_job_status now3 (job_id claimed_job) completed_store
    = (completed_store,
       Returned
         [ ("job_id", PStr (job_id claimed_job));
           ("status", PStr "completed");
           ("created_at", PStr (isoformat (created_at claimed_job)));
           ("completed_at", PStr (isoformat now2));
           ("result_url", PStr sample_url);
           ("duration_seconds",
            PInt (((instant now2 - instant now1) / 1000000) mod 86400)) ]).
Proof.
  split; [exact queued_store_keyed|]. split; [reflexivity|].
  split; [reflexivity|]. split; [exact claim_sample|].
  split; [exact complete_sample|].
  exact (claimed_completed_status now1 now2 now3 "worker-0" sample_url
           queued_store claimed_store completed_store claimed_job
           queued_store_keyed eq_refl eq_refl claim_sample complete_sample).
Defined.

Lemma estimate_start_time_instant_witness :
  valid now1 = true ∧ 0 ≤ 3 < 2 ^ 32
  ∧ match _estimate_start_time now1 3 with
    | Some est =>
        valid est = true
        ∧ instant est = instant now1 + 3 * 600000000
        ∧ instant est < (_MAXORDINAL + 1) * 86400000000
        ∧ (3 = 0 → est = now1)
    | None =>
        (_MAXORDINAL + 1) * 86400000000 ≤ instant now1 + 3 * 600000000
    end.
Proof.
  split; [reflexivity|]. split; [lia|].
  exact (estimate_start_time_instant now1 3 eq_refl ltac:(lia)).
Defined.

Lemma create_project_unknown_tier_witness :
  (upper "gold" ∉ ["FREE"; "INDIE"; "PRO"; "ENTERPRISE"])
  ∧ ∃ key,
      create_project plain_text "j9" now1 clk0 "u9" "gold" sample_schema
        empty_redis
      = (empty_redis, Raised (HTTPException 400 (plain_text (KeyError key)))).
Proof.
  split; [exact gold_tier_unknown|].
  exact (create_project_unknown_tier plain_text "j9" now1 clk0 "u9" "gold"
           sample_schema empty_redis gold_tier_unknown).
Defined.

Example create_project_sample :
  create_project plain_text "j1" (created_at sample_job) clk0 "u1" "free"
    sample_schema empty_redis
  = (queued_store, Returned (mkJSONResponse 202 (mkReceipt "j1" "queued" 1 10))).
Proof.
  unfold create_project. rewrite redis_bind_run.
  change (lift (priority_attr (upper "free")) empty_redis)
    with (empty_redis, Ok PRIORITY_FREE).
  cbv beta iota.
  change (new_job "j1" (created_at sample_job) "u1" "free" sample_schema
            PRIORITY_FREE) with sample_job.
  by rewrite submit_sample.
Qed.

Lemma create_project_accepted_witness :
  create_project plain_text "j1" (created_at sample_job) clk0 "u1" "free"
    sample_schema empty_redis
  = (queued_store, Returned (mkJSONResponse 202 (mkReceipt "j1" "queued" 1 10)))
  ∧ mkJSONResponse 202 (mkReceipt "j1" "queued" 1 10)
    = mkJSONResponse 202 (mkReceipt "j1" "queued" 1 10)
  ∧ ∃ lim,
      TierLimits.getitem (upper "free") = Ok lim
      ∧ pending_of queued_store
        = {[ "j1" := job_score (queue_priority lim) (score_time clk0) ]}
      ∧ hash_of (job_key "j1") queued_store !! "status" = Some "queued"
      ∧ hash_of (job_key "j1") queued_store !! "priority"
        = Some (str_int (queue_priority lim))
      ∧ hash_of (job_key "j1") queued_store !! "tier" = Some "free"
      ∧ hash_of (job_key "j1") queued_store !! "created_at"
        = Some (isoformat (created_at sample_job)).
Proof.
  split; [exact create_project_sample|].
  exact (create_project_accepted plain_text "j1" (created_at sample_job) clk0
           "u1" "free" sample_schema empty_redis queued_store
           (mkJSONResponse 202 (mkReceipt "j1" "queued" 1 10))
           create_project_sample).
Defined.



Lemma worker_turn_completes_witness :
  hashes_keyed queued_store = true
  ∧ valid (claimed_now sample_worker_clock) = true
  ∧ list_key QUEUE_COMPLETED queued_store = true
  ∧ get_next_job (claimed_now sample_worker_clock) "worker-0" queued_store
    = (claimed_store, Ok (Some claimed_job))
  ∧ generate_ok claimed_job = Ok tt
  ∧ ∃ r2,
      worker_turn plain_text generate_ok sample_worker_clock "worker-0"
        queued_store = (r2, 0)
      ∧ hash_of (job_key (job_id claimed_job)) r2 !! "status"
        = Some "completed"
      ∧ hash_of (job_key (job_id claimed_job)) r2 !! "completed_at"
        = Some (isoformat (completed_now sample_worker_clock))
      ∧ hash_of (job_key (job_id claimed_job)) r2 !! "result_url"
        = Some ("https://storage.yourcloud.com/projects/"
                +:+ job_id claimed_job +:+ ".zip")
      ∧ list_of QUEUE_COMPLETED r2
        = job_id claimed_job :: list_of QUEUE_COMPLETED queued_store
      ∧ (job_id claimed_job ∉ list_of QUEUE_PROCESSING r2)
      ∧ ttl r2 !! job_key (job_id claimed_job) = Some 604800.
Proof.
  pose proof queued_store_lists as [Hc _].
  split; [exact queued_store_keyed|]. split; [reflexivity|].
  split; [exact Hc|]. split; [exact claim_sample|]. split; [reflexivity|].
  exact (worker_turn_completes plain_text generate_ok sample_worker_clock
           "worker-0" queued_store claimed_store claimed_job
           queued_store_keyed eq_refl Hc claim_sample eq_refl).
Defined.

Lemma worker_turn_fails_witness :
  hashes_keyed queued_store = true
  ∧ valid (claimed_now sample_worker_clock) = true
  ∧ list_key QUEUE_FAILED queued_store = true
  ∧ get_next_job (claimed_now sample_worker_clock) "worker-0" queued_store
    = (claimed_store, Ok (Some claimed_job))
  ∧ generate_boom claimed_job = Raise (Exception "boom")
  ∧ ∃ r2,
      worker_turn plain_text generate_boom sample_worker_clock "worker-0"
        queued_store = (r2, 0)
      ∧ hash_of (job_key (job_id claimed_job)) r2 !! "status" = Some "failed"
      ∧ hash_of (job_key (job_id claimed_job)) r2 !! "completed_at"
        = Some (isoformat (failed_now sample_worker_clock))
      ∧ hash_of (job_key (job_id claimed_job)) r2 !! "error_message"
        = Some (plain_text (Exception "boom"))
      ∧ list_of QUEUE_FAILED r2
        = job_id claimed_job :: list_of QUEUE_FAILED queued_store
      ∧ (job_id claimed_job ∉ list_of QUEUE_PROCESSING r2)
      ∧ list_of QUEUE_COMPLETED r2 = list_of QUEUE_COMPLETED queued_store.
Proof.
  pose proof queued_store_lists as [_ Hf].
  split; [exact queued_store_keyed|]. split; [reflexivity|].
  split; [exact Hf|]. split; [exact claim_sample|]. split; [reflexivity|].
  exact (worker_turn_fails plain_text generate_boom sample_worker_clock
           "worker-0" queued_store claimed_store claimed_job
           (Exception "boom") queued_store_keyed eq_refl Hf claim_sample
           eq_refl).
Defined.

Lemma serialize_unset_fields_witness :
  valid (created_at sample_job) = true
  ∧ valid_optional (started_at sample_job) = true
  ∧ valid_optional (completed_at sample_job) = true
  ∧ ∃ job',
      _deserialize_job (_serialize_job sample_job) = Ok job'
      ∧ (error_message sample_job = None → error_message job' = Some "None")
      ∧ (result_url sample_job = None → result_url job' = Some "None")
      ∧ (worker_id sample_job = None → worker_id job' = Some "None")
      ∧ queue_position job' = None
      ∧ estimated_start job' = None
      ∧ job_id job' = job_id sample_job ∧ status job' = status sample_job
      ∧ priority job' = priority sample_job
      ∧ created_at job' = created_at sample_job
      ∧ started_at job' = started_at sample_job
      ∧ completed_at job' = completed_at sample_job.
Proof.
  split; [reflexivity|]. split; [reflexivity|]. split; [reflexivity|].
  exact (serialize_unset_fields sample_job eq_refl eq_refl eq_refl).
Defined.

Lemma deserialize_stable_witness :
  _deserialize_job (hash_of (job_key "j1") claimed_store)
  = Ok (job_image claimed_job)
  ∧ is_Some (hash_of (job_key "j1") claimed_store !! "error_message")
  ∧ is_Some (hash_of (job_key "j1") claimed_store !! "result_url")
  ∧ is_Some (hash_of (job_key "j1") claimed_store !! "worker_id")
  ∧ _deserialize_job (_serialize_job (job_image claimed_job))
    = Ok (job_image claimed_job).
Proof.
  pose proof claimed_store_hash as [_ Hjob].
  pose proof claimed_hash_optional as (He & Hu & Hw).
  split; [exact Hjob|]. split; [exact He|]. split; [exact Hu|].
  split; [exact Hw|].
  exact (deserialize_stable (hash_of (job_key "j1") claimed_store)
           (job_image claimed_job) Hjob He Hu Hw).
Defined.

End scenario_checks.
